(** * Event detection on edge time series: a shallow embedding of [ev.py]

    The development follows the source file function by function:
    [calculate_ets], [rss_surr], [event_detection], [threshold_ets_matrix],
    [surrogates_to_array] and the mask of [debiasing].

    Modelling conventions.
    - A NumPy [float64] is an IEEE-754 binary64 value, taken from the
      specification of floating-point arithmetic of the standard library
      ([spec_float] at precision 53 and maximal exponent 1024): signed
      zeros, infinities, one NaN and finite numbers, with correctly rounded
      [+], [*], [/] and [sqrt].
    - A [T x N] array is the list of its [T] rows.  The column count of an
      array without rows is not represented; statements about whole runs
      take at least one time point.
    - Python exceptions are values of [exn] in an error monad.
    - The collaborators outside the file (the masker that reads volumes,
      the random generator, [np.histogram]) are fields of [world].
    - [np.mean] of a boolean mask is the quotient of the number of [True]
      entries by the size of the mask.  The pipeline only compares that
      quotient with [pcrit]; it is kept as an exact rational (the final
      rounding of the quotient to binary64 is monotone and is not
      represented), with [None] for the undefined mean of an empty mask.
    - The arrays returned by the masker are [float64] arrays;
      [calculate_ets_of] is [calculate_ets] on an array of any dtype.
    - Reductions add from left to right.  NumPy adds long contiguous rows
      pairwise; the two orders differ in the last bits only and agree on
      rows of fewer than eight entries. *)

From Stdlib Require Import String Ascii.
From Stdlib Require Import ZArith QArith Qpower Lqa List Sorted Permutation Bool Lia.
From Stdlib Require Import SpecFloat.
Import ListNotations.
Close Scope Q_scope.

Set Implicit Arguments.

(** ** Binary64 *)

Module B64.

Definition prec : Z := 53.
Definition emax : Z := 1024.

Definition float64 := spec_float.

Definition zero : float64 := S754_zero false.
Definition nan : float64 := S754_nan.
  (** Largest finite binary64, 1.7976931348623157e308. *)
Definition fmax : float64 := SFmax_float prec emax.

Definition add : float64 -> float64 -> float64 := SFadd prec emax.
Definition sub : float64 -> float64 -> float64 := SFsub prec emax.
Definition mul : float64 -> float64 -> float64 := SFmul prec emax.
Definition div : float64 -> float64 -> float64 := SFdiv prec emax.
Definition sqrt : float64 -> float64 := SFsqrt prec emax.
Definition opp : float64 -> float64 := SFopp.

Definition of_Z (z : Z) : float64 := binary_normalize prec emax z 0 false.
Definition of_nat (n : nat) : float64 := of_Z (Z.of_nat n).

  (** Comparisons; each one is false as soon as an operand is NaN. *)
Definition leb : float64 -> float64 -> bool := SFleb.
Definition ltb : float64 -> float64 -> bool := SFltb.
Definition eqb : float64 -> float64 -> bool := SFeqb.
Definition geb (x y : float64) : bool := SFleb y x.
Definition gtb (x y : float64) : bool := SFltb y x.

Definition is_nan (x : float64) : bool :=
    match x with S754_nan => true | _ => false end.


Definition is_finite (x : float64) : bool :=
    match x with S754_zero _ | S754_finite _ _ _ => true | _ => false end.

End B64.

Import B64.

Declare Scope f64_scope.
Delimit Scope f64_scope with f64.
Infix "+" := add : f64_scope.
Infix "-" := sub : f64_scope.
Infix "*" := mul : f64_scope.
Infix "/" := div : f64_scope.
Infix "<=?" := leb : f64_scope.
Infix "<?" := ltb : f64_scope.
Infix ">=?" := geb : f64_scope.
Infix "==?" := eqb (at level 70) : f64_scope.

Definition vec := list float64.
Definition matrix := list vec.

(** ** Exceptions *)

Inductive exn : Type :=
| IndexError   (* an index outside an array *)
| ValueError.  (* a reduction of an empty array, a shape mismatch, an empty random range *)

Inductive result (A : Type) : Type :=
| Ok (a : A)
| Raise (e : exn).
Arguments Ok {A} a.
Arguments Raise {A} e.

Definition bind {A B} (c : result A) (k : A -> result B) : result B :=
  match c with
  | Ok a => k a
  | Raise e => Raise e
  end.

Notation "x <- c ;; k" := (bind c (fun x => k))
  (at level 61, c at next level, right associativity).
Notation "' p <- c ;; k" := (bind c (fun x => let p := x in k))
  (at level 61, p pattern, c at next level, right associativity).

Fixpoint mapM {A B} (f : A -> result B) (l : list A) : result (list B) :=
  match l with
  | [] => Ok []
  | a :: r => b <- f a ;; bs <- mapM f r ;; Ok (b :: bs)
  end.

Definition raises {A} (c : result A) : Prop := exists e, c = Raise e.

(** ** NumPy and SciPy operations used by the file *)

Module Np.

Fixpoint map2 {A B C} (f : A -> B -> C) (l : list A) (l' : list B) : list C :=
    match l, l' with
    | a :: r, b :: r' => f a b :: map2 f r r'
    | _, _ => []
    end.

  (** [a[i]] *)
Definition index {A} (a : list A) (i : nat) : result A :=
    match nth_error a i with
    | Some x => Ok x
    | None => Raise IndexError
    end.

  (** [a[js]], indexing with an array of positions. *)
Definition take {A} (a : list A) (js : list nat) : result (list A) :=
    mapM (index a) js.

  (** [a[mask]], indexing with a boolean array. *)
Fixpoint mask_select {A} (mask : list bool) (a : list A) : list A :=
    match mask, a with
    | b :: m, x :: r => if b then x :: mask_select m r else mask_select m r
    | _, _ => []
    end.

  (** [a[i] = x] *)
Fixpoint upd {A} (i : nat) (x : A) (a : list A) : list A :=
    match a, i with
    | [], _ => []
    | _ :: r, O => x :: r
    | y :: r, S j => y :: upd j x r
    end.

Definition ncols (m : matrix) : nat :=
    match m with
    | [] => 0
    | r :: _ => length r
    end.

  (** [np.nan_to_num]: NaN becomes 0.0, an infinity the finite number of
      largest magnitude and same sign. *)
Definition nan_to_num1 (x : float64) : float64 :=
    match x with
    | S754_nan => zero
    | S754_infinity false => fmax
    | S754_infinity true => opp fmax
    | _ => x
    end.

Definition nan_to_num (m : matrix) : matrix := map (map nan_to_num1) m.

Definition square (x : float64) : float64 := (x * x)%f64.

  (** [np.sum] of a one-dimensional array. *)
Definition sum (l : vec) : float64 :=
    match l with
    | [] => zero
    | x :: r => fold_left add r x
    end.

  (** [np.sum(m, axis=1)] *)
Definition sum_axis1 (m : matrix) : vec := map sum m.

  (** [np.sum(m, axis=0)]: the rows are added one after the other. *)
Definition sum_axis0 (m : matrix) : vec :=
    match m with
    | [] => []
    | r :: rs => fold_left (map2 add) rs r
    end.

  (** [np.cumsum] *)
Fixpoint cumsum_from (acc : float64) (l : vec) : vec :=
    match l with
    | [] => []
    | x :: r => let acc' := (acc + x)%f64 in acc' :: cumsum_from acc' r
    end.

Definition cumsum (l : vec) : vec :=
    match l with
    | [] => []
    | x :: r => x :: cumsum_from x r
    end.

  (** [np.min] and [np.max] of all the entries: NaN wins, an empty array
      has no minimum. *)
Definition minimum (a b : float64) : float64 :=
    if (a <=? b)%f64 || is_nan a then a else b.
Definition maximum (a b : float64) : float64 :=
    if (a >=? b)%f64 || is_nan a then a else b.

Definition min (l : vec) : result float64 :=
    match l with
    | [] => Raise ValueError
    | x :: r => Ok (fold_left minimum r x)
    end.

Definition max (l : vec) : result float64 :=
    match l with
    | [] => Raise ValueError
    | x :: r => Ok (fold_left maximum r x)
    end.

  (** [np.argmax]: the first position of the largest entry; the first NaN
      if there is one. *)
Fixpoint argmax_from (mp : float64) (best i : nat) (l : vec) : nat :=
    match l with
    | [] => best
    | x :: r =>
        if negb (x <=? mp)%f64
        then (if is_nan x then i else argmax_from x i (S i) r)
        else argmax_from mp best (S i) r
    end.

Definition argmax (l : vec) : result nat :=
    match l with
    | [] => Raise ValueError
    | x :: r => Ok (if is_nan x then 0 else argmax_from x 0 1 r)
    end.

  (** [np.argwhere(mask)[:, 0]] for a mask of shape [(t, 1)]. *)
Fixpoint argwhere_from (i : nat) (mask : list bool) : list nat :=
    match mask with
    | [] => []
    | b :: r => if b then i :: argwhere_from (S i) r else argwhere_from (S i) r
    end.

Definition argwhere (mask : list bool) : list nat := argwhere_from 0 mask.

  (** [np.argwhere] of a two-dimensional array, in row-major order. *)
Definition argwhere2 (m : list (list bool)) : list (nat * nat) :=
    concat (map2 (fun i row => map (fun j => (i, j)) (argwhere row))
                 (seq 0 (length m)) m).

  (** [np.triu(np.ones(n), k)]: the vector of ones is broadcast to [n x n]
      and entry [(i, j)] is kept when [j - i >= k].  Entries are given by
      whether they are non-zero. *)
Definition triu_ones (n k : nat) : list (list bool) :=
    map (fun i => map (fun j => (i + k <=? j)%nat) (seq 0 n)) (seq 0 n).

  (** [np.unique] of integers: the distinct values in increasing order. *)
Fixpoint insert_unique (z : Z) (l : list Z) : list Z :=
    match l with
    | [] => [z]
    | y :: r =>
        match (z ?= y)%Z with
        | Lt => z :: l
        | Eq => l
        | Gt => y :: insert_unique z r
        end
    end.

Definition unique (l : list Z) : list Z := fold_right insert_unique [] l.

  (** [np.roll(a, k)] *)
Definition roll {A} (a : list A) (k : nat) : list A :=
    let t := length a in
    match t with
    | O => a
    | _ => skipn (t - k mod t) a ++ firstn (t - k mod t) a
    end.

  (** [m[:, i]] and [m[:, i] = c] *)
Definition get_col (i : nat) (m : matrix) : result vec :=
    mapM (fun row => index row i) m.

Definition set_col (i : nat) (c : vec) (m : matrix) : matrix :=
    map2 (fun row x => upd i x row) m c.

  (** [np.linspace(start, stop, num)] for [num >= 2]: [num] points, the
      last one set to [stop]. *)
Definition linspace (start stop : float64) (num : nat) : vec :=
    let div := of_nat (num - 1) in
    let step := ((stop - start) / div)%f64 in
    map (fun i => (of_nat i * step + start)%f64) (seq 0 (num - 1)) ++ [stop].

  (** [np.mean] of a boolean mask. *)
Definition mean_mask (mask : list bool) : option Q :=
    match length mask with
    | O => None
    | S k => Some (Qmake (Z.of_nat (count_occ bool_dec mask true)) (Pos.of_succ_nat k))
    end.

  (** [p < c] for a mean of a mask; false when the mean is undefined. *)
Definition mean_ltb (p : option Q) (c : Q) : bool :=
    match p with
    | Some q => negb (Qle_bool c q)
    | None => false
    end.

  (** [np.nanmean] of a one-dimensional array: NaN entries count as
      absent. *)
Definition nanmean (l : vec) : float64 :=
    let kept := filter (fun x => negb (is_nan x)) l in
    (sum (map (fun x => if is_nan x then zero else x) l) / of_nat (length kept))%f64.

  (** [scipy.stats.zscore(a, ddof=ddof)] along axis 0, as [scipy.stats.zmap]
      computes it: mean and standard deviation of every column, and NaN
      for a column all of whose entries equal its first one. *)
Definition mean_axis0 (a : matrix) : vec :=
    map (fun s => (s / of_nat (length a))%f64) (sum_axis0 a).

Definition std_axis0 (a : matrix) (ddof : nat) : vec :=
    let arrmean := mean_axis0 a in
    let x := map (fun row => map2 sub row arrmean) a in
    let x := map (map square) x in
    map (fun s => sqrt (s / of_nat (length a - ddof))%f64) (sum_axis0 x).

Definition isconst_axis0 (a : matrix) : list bool :=
    match a with
    | [] => []
    | first :: _ =>
        fold_left (fun acc row => map2 andb acc (map2 eqb first row)) a
                  (map (fun _ => true) first)
    end.

Fixpoint zrow (row mn std : vec) (isconst : list bool) : vec :=
    match row, mn, std, isconst with
    | x :: row', m :: mn', s :: std', c :: isconst' =>
        (if c then nan else ((x - m) / s)%f64) :: zrow row' mn' std' isconst'
    | _, _, _, _ => []
    end.

Definition zscore (a : matrix) (ddof : nat) : matrix :=
    let mn := mean_axis0 a in
    let std := std_axis0 a ddof in
    let isconst := isconst_axis0 a in
    let std := map2 (fun (c : bool) s => if c then of_Z 1 else s) isconst std in
    map (fun row => zrow row mn std isconst) a.

End Np.

Import Np.

(** ** The collaborators of the pipeline *)

Record world : Type := {
  (** [masker.fit_transform(DATA_file)] *)
  fit_transform_data : matrix;
  (** [masker.fit_transform(f"{surrprefix}{irand}{sursufix}.nii.gz")] *)
  fit_transform_surr : nat -> matrix;
  (** The value of the [i]-th call of [np.random.randint(t)] made by trial
      [irand]. *)
  randint : nat -> nat -> nat;
  (** [np.histogram(a, bins=nbins, range=hist_range)]: the counts and the
      [nbins + 1] bin edges. *)
  histogram : vec -> nat -> float64 * float64 -> result (vec * vec)
}.

(** ["AUC" in surrprefix] *)
Definition has_AUC (surrprefix : string) : bool :=
  match String.index 0 "AUC" surrprefix with
  | Some _ => true
  | None => false
  end.

(** ** [calculate_ets] *)

(** [y[:, u] * y[:, v]] *)
Definition edge_product (y : matrix) (u v : list nat) : result matrix :=
  mapM (fun row => yu <- take row u ;; yv <- take row v ;; Ok (map2 mul yu yv)) y.

Definition calculate_ets (y : matrix) (n : nat)
  : result (matrix * list nat * list nat) :=
  (* upper triangle indices (node pairs = edges) *)
  let uv := argwhere2 (triu_ones n 1) in
  let u := map fst uv in
  let v := map snd uv in
  (* edge time series *)
  ets <- edge_product y u v ;;
  Ok (ets, u, v).

(** [np.sqrt(np.sum(np.square(ets), axis=1))] *)
Definition root_sum_squares (ets : matrix) : vec :=
  map sqrt (sum_axis1 (map (map square) ets)).

(** ** [rss_surr] *)

(** The loop [for i in range(n): zr[:, i] = np.roll(zr[:, i], np.random.randint(t))];
    [np.random.randint(0)] raises [ValueError]. *)
Fixpoint roll_columns (draw : nat -> nat) (t : nat) (cols : list nat) (zr : matrix)
  : result matrix :=
  match cols with
  | [] => Ok zr
  | i :: cols' =>
      k <- (if (t =? 0)%nat then Raise ValueError else Ok (draw i)) ;;
      c <- get_col i zr ;;
      roll_columns draw t cols' (set_col i (roll c k) zr)
  end.

(** The branch [if surrprefix != ""]: the surrogate of trial [irand] read
    from its volume.  AUC surrogates are not z-scored. *)
Definition surrogate_series (w : world) (surrprefix : string) (irand : nat) : matrix :=
  let zr := fit_transform_surr w irand in
  let zr := if negb (has_AUC surrprefix)
            then nan_to_num (zscore zr 1) else zr in
  nan_to_num zr.

Definition rss_surr (w : world) (z_ts : matrix) (u v : list nat)
    (surrprefix : string) (irand : nat) : result (vec * float64 * float64) :=
  let t := length z_ts in
  let n := ncols z_ts in
  zr <- (if negb (surrprefix =? "")%string then
           Ok (surrogate_series w surrprefix irand)
         else
           (* perform numrand randomizations *)
           roll_columns (randint w irand) t (seq 0 n) z_ts) ;;
  (* edge time series with circshift data *)
  etsr <- edge_product zr u v ;;
  (* calcuate rss *)
  let rssr := root_sum_squares etsr in
  mn <- Np.min (concat etsr) ;;
  mx <- Np.max (concat etsr) ;;
  Ok (rssr, mn, mx).

(** ** [threshold_ets_matrix] *)

(** [m[idxs, :] = rows] *)
Fixpoint assign_rows (m : matrix) (idxs : list nat) (rows : matrix) : matrix :=
  match idxs, rows with
  | i :: idxs', r :: rows' => assign_rows (upd i r m) idxs' rows'
  | _, _ => m
  end.

Definition threshold_ets_matrix (ets_matrix : matrix) (selected_idxs : list nat)
    (thr : float64) : result matrix :=
  (* Initialize matrix with zeros *)
  let thresholded_matrix := map (map (fun _ => zero)) ets_matrix in
  (* Get selected columns from ETS matrix *)
  selected <- take ets_matrix selected_idxs ;;
  let thresholded_matrix := assign_rows thresholded_matrix selected_idxs selected in
  (* Threshold ETS matrix based on surrogate percentile *)
  Ok (map (map (fun x => if (x <? thr)%f64 then zero else x)) thresholded_matrix).

(** ** [calculate_hist] and [surrogates_to_array] *)

Definition calculate_hist (w : world) (irand : nat) (hist_range : float64 * float64)
    (nbins : nat) : result (vec * vec) :=
  let auc := fit_transform_surr w irand in
  let n := ncols auc in
  '(ets_temp, _, _) <- calculate_ets (nan_to_num auc) n ;;
  histogram w (concat ets_temp) nbins hist_range.

(** [row[:] = x] for a row of length [n]: the lengths agree, or [x] has one
    entry, which is repeated. *)
Definition broadcast_to (n : nat) (x : vec) : result vec :=
  if (length x =? n)%nat then Ok x
  else match x with
       | [c] => Ok (repeat c n)
       | _ => Raise ValueError
       end.

(** [np.sum(ets_hist, axis=0)] for [ets_hist] of shape [(numrand, nbins)]. *)
Definition pooled_histogram (ets_hist : matrix) (nbins : nat) : vec :=
  match ets_hist with
  | [] => repeat zero nbins
  | _ => sum_axis0 ets_hist
  end.

(** [np.cumsum(ets_hist_sum) / np.sum(ets_hist_sum) * 100] *)
Definition cumsum_percentile (ets_hist_sum : vec) : vec :=
  map (fun c => (c / Np.sum ets_hist_sum * of_Z 100)%f64) (cumsum ets_hist_sum).

(** [len(cumsum_percentile[cumsum_percentile <= percentile])] *)
Definition count_upto (percentile : float64) (cumsum_percentile : vec) : nat :=
  length (filter (fun c => (c <=? percentile)%f64) cumsum_percentile).

(** The part of [surrogates_to_array] after the histograms are gathered. *)
Definition pooled_threshold (hist : list (vec * vec)) (nbins : nat)
    (percentile : float64) : result float64 :=
  ets_hist <- mapM (fun h => broadcast_to nbins (fst h)) hist ;;
  h0 <- index hist 0 ;;
  let bin_edges := snd h0 in
  let ets_hist_sum := pooled_histogram ets_hist nbins in
  let cumsum_percentile := cumsum_percentile ets_hist_sum in
  index bin_edges (count_upto percentile cumsum_percentile).

Definition surrogates_to_array (w : world) (hist_range : float64 * float64)
    (numrand nbins : nat) (percentile : float64) : result float64 :=
  hist <- mapM (fun irand => calculate_hist w irand hist_range nbins)
               (seq 0 numrand) ;;
  pooled_threshold hist nbins percentile.

(** ** [event_detection] *)

Definition numrand : nat := 100.
Definition pcrit : Q := Qmake 1 1000.

(** The loop [for irand in range(numrand): rssr[:, irand] = results[irand][0]]. *)
Fixpoint fill_columns (rssr : matrix) (irand : nat)
    (results : list (vec * float64 * float64)) : result matrix :=
  match results with
  | [] => Ok rssr
  | r :: results' =>
      c <- broadcast_to (length rssr) (fst (fst r)) ;;
      fill_columns (set_col irand c rssr) (S irand) results'
  end.

(** [rssr[0, :] = 0] *)
Definition zero_first_row (rssr : matrix) : result matrix :=
  match rssr with
  | [] => Raise IndexError
  | row0 :: rows => Ok (map (fun _ => zero) row0 :: rows)
  end.

(** The loop [for i in range(t): p[i] = np.mean(rssr_flat >= rss[i])];
    [rss] has [t] entries. *)
Definition pvalues (rss : vec) (rssr : matrix) : list (option Q) :=
  let rssr_flat := concat rssr in
  map (fun rss_i => mean_mask (map (fun x => (x >=? rss_i)%f64) rssr_flat)) rss.

(** [np.argwhere(p < pcrit)[:, 0]] *)
Definition candidates (p : list (option Q)) : list nat :=
  argwhere (map (fun p_i => mean_ltb p_i pcrit) p).

(** [idx.T - range(len(idx))] *)
Definition index_offsets (idx : list nat) : list Z :=
  map2 (fun i k => (Z.of_nat i - Z.of_nat k)%Z) idx (seq 0 (length idx)).

(** [idx[dff.T == unq[ievent].T]] *)
Definition event_members (idx : list nat) (dff : list Z) (d : Z) : list nat :=
  mask_select (map (fun x => (x =? d)%Z) dff) idx.

(** The branch [if segments:]: one peak for every distinct offset. *)
Definition segment_peaks (rss : vec) (idx : list nat) : result (list nat) :=
  (* identify contiguous segments of frames that pass statistical test *)
  let dff := index_offsets idx in
  let unq := unique dff in
  (* find the peak rss within each segment *)
  mapM (fun d =>
          let idxevent := event_members idx dff d in
          rssevent <- take rss idxevent ;;
          idxmax <- argmax rssevent ;;
          index idxevent idxmax)
       unq.

(** [np.nanmean(etspeaks, 0)] for [etspeaks] with [nedges] columns. *)
Definition nanmean_axis0 (nedges : nat) (etspeaks : matrix) : vec :=
  map (fun e => nanmean (map (fun row => nth e row nan) etspeaks)) (seq 0 nedges).

Record detection : Type := {
  ets : matrix;
  rss : vec;
  rssr : matrix;
  idxpeak : list nat;
  etspeaks : matrix;
  mu : vec;
  ets_thr : option matrix;
  u : list nat;
  v : list nat
}.

(** The null matrix [rssr] and, in AUC mode, the range [(hist_min, hist_max)]. *)
Definition null_distribution (auc : bool) (t : nat)
    (results : list (vec * float64 * float64))
  : result (matrix * option (float64 * float64)) :=
  (* initialize array for null rss *)
  let rssr := repeat (repeat zero numrand) t in
  rssr <- fill_columns rssr 0 results ;;
  if auc then
    rssr <- zero_first_row rssr ;;
    hist_min <- Np.min (map (fun r => snd (fst r)) results) ;;
    hist_max <- Np.max (map snd results) ;;
    Ok (rssr, Some (hist_min, hist_max))
  else Ok (rssr, None).

(** The observed series: [data] itself in AUC mode (AUC does not get
    z-scored), [np.nan_to_num(zscore(data, ddof=1))] otherwise. *)
Definition standardize (surrprefix : string) (data : matrix) : matrix :=
  if has_AUC surrprefix then data else nan_to_num (zscore data 1).

Definition event_detection (w : world) (surrprefix : string) (segments : bool)
  : result detection :=
  let data := fit_transform_data w in
  (* load and zscore time series *)
  let z_ts := standardize surrprefix data in
  (* Get number of time points/nodes *)
  let t := length z_ts in
  let n := ncols z_ts in
  (* calculate ets *)
  '(ets, u, v) <- calculate_ets z_ts n ;;
  (* calculate rss *)
  let rss := root_sum_squares ets in
  (* repeat with randomized time series *)
  results <- mapM (rss_surr w z_ts u v surrprefix) (seq 0 numrand) ;;
  '(rssr, hist_range) <- null_distribution (has_AUC surrprefix) t results ;;
  let p := pvalues rss rssr in
  (* find frames that pass statistical test *)
  let idx := candidates p in
  idxpeak <- (if segments then segment_peaks rss idx else Ok idx) ;;
  (* get activity at peak *)
  tspeaks <- take z_ts idxpeak ;;
  (* get co-fluctuation at peak *)
  etspeaks <- edge_product tspeaks u v ;;
  (* calculate mean co-fluctuation (edge time series) across all peaks *)
  let mu := nanmean_axis0 (length u) etspeaks in
  ets_thr <- match hist_range with
             | Some hist_range =>
                 thr <- surrogates_to_array w hist_range numrand 500 (of_Z 95) ;;
                 m <- threshold_ets_matrix ets idxpeak thr ;;
                 Ok (Some m)
             | None => Ok None
             end ;;
  Ok {| ets := ets; rss := rss; rssr := rssr; idxpeak := idxpeak;
        etspeaks := etspeaks; mu := mu; ets_thr := ets_thr; u := u; v := v |}.

(** * Vocabulary of the statements *)

(** ** The order of binary64

    Comparisons on values other than NaN are those of a lexicographic key:
    the class of the number, then its exponent, then its mantissa, the last
    two negated for negative numbers. *)

Module OrderKey.

Definition key (x : float64) : Z * Z * Z :=
    match x with
    | S754_nan => (0, 0, 0)
    | S754_infinity true => (-2, 0, 0)
    | S754_finite true m e => (-1, - e, - Zpos m)
    | S754_zero _ => (0, 0, 0)
    | S754_finite false m e => (1, e, Zpos m)
    | S754_infinity false => (2, 0, 0)
    end%Z.

Definition le3 (a b : Z * Z * Z) : Prop :=
    let '(a1, a2, a3) := a in
    let '(b1, b2, b3) := b in
    (a1 < b1 \/ (a1 = b1 /\ (a2 < b2 \/ (a2 = b2 /\ a3 <= b3))))%Z.

Definition lt3 (a b : Z * Z * Z) : Prop :=
    let '(a1, a2, a3) := a in
    let '(b1, b2, b3) := b in
    (a1 < b1 \/ (a1 = b1 /\ (a2 < b2 \/ (a2 = b2 /\ a3 < b3))))%Z.

End OrderKey.

(** ** Pooled null distribution *)

(** The pooled null distribution described index by index: the entry of
    trial [j] at time [i], for all times and all trials. *)
Definition null_entry (rssr : matrix) (i j : nat) : float64 :=
  nth j (nth i rssr []) nan.

Definition ind (b : bool) : nat := if b then 1 else 0.

(** Number of (time, trial) pairs whose surrogate RSS is at least [x]. *)
Definition pooled_count (rssr : matrix) (ntrials : nat) (x : float64) : nat :=
  list_sum
    (map (fun i =>
            list_sum (map (fun j => ind (null_entry rssr i j >=? x)%f64)
                          (seq 0 ntrials)))
         (seq 0 (length rssr))).

(** [c / n]; undefined for [n = 0]. *)
Definition fraction (c n : nat) : option Q :=
  match n with
  | O => None
  | S k => Some (Qmake (Z.of_nat c) (Pos.of_succ_nat k))
  end.

(** ** Entries and rows *)

(** [m[r, c]], when the position exists. *)
Definition entry (m : matrix) (r c : nat) : option float64 :=
  match nth_error m r with
  | Some row => nth_error row c
  | None => None
  end.

(** An array with [n] columns. *)
Definition rect (n : nat) (m : matrix) : Prop :=
  Forall (fun row => length row = n) m.

(** [r in idxs] *)
Definition mem (r : nat) (idxs : list nat) : bool := existsb (Nat.eqb r) idxs.

(** ** Segmentation by an explicit scan

    The second formulation of the segmentation step: runs are found by
    comparing each candidate index with its successor in the list. *)

(** A list of indices that increases strictly and starts at [lo] or later;
    [np.argwhere] produces such lists. *)
Fixpoint increasing_from (lo : nat) (idx : list nat) : Prop :=
  match idx with
  | [] => True
  | i :: rest => lo <= i /\ increasing_from (S i) rest
  end.

Definition increasing (idx : list nat) : Prop := increasing_from 0 idx.

(** The index [i] joins the run that follows it when that run starts at
    [i + 1], and is a run of its own otherwise. *)
Fixpoint runs_by_scan (idx : list nat) : list (list nat) :=
  match idx with
  | [] => []
  | i :: rest =>
      match runs_by_scan rest with
      | (j :: run) :: runs =>
          if (j =? S i)%nat then (i :: j :: run) :: runs
          else [i] :: (j :: run) :: runs
      | _ => [[i]]
      end
  end.

(** The member of a run with the largest observed RSS, as [np.argmax]
    finds it. *)
Definition run_peak (rss : vec) (run : list nat) : result nat :=
  rssevent <- take rss run ;;
  idxmax <- argmax rssevent ;;
  index run idxmax.

Definition scan_peaks (rss : vec) (idx : list nat) : result (list nat) :=
  mapM (run_peak rss) (runs_by_scan idx).

(** A run of consecutive integers. *)
Definition consecutive (run : list nat) : Prop :=
  run <> [] /\ run = seq (hd 0 run) (length run).

(** No run can be extended by the run that follows it. *)
Fixpoint separated (runs : list (list nat)) : Prop :=
  match runs with
  | r1 :: (r2 :: _) as rest => S (last r1 0) <> hd 0 r2 /\ separated rest
  | _ => True
  end.

(** [runs] cuts [idx] into its maximal runs of consecutive indices. *)
Definition maximal_runs (idx : list nat) (runs : list (list nat)) : Prop :=
  concat runs = idx /\ Forall consecutive runs /\ separated runs.

(** [p] is a member of [run] and no member has a larger observed RSS; when
    the RSS at [p] is NaN, it is what [np.argmax] takes for the largest. *)
Definition is_peak (rss : vec) (run : list nat) (p : nat) : Prop :=
  In p run /\
  forall i, In i run ->
    (nth i rss nan <=? nth p rss nan)%f64 = true \/ is_nan (nth p rss nan) = true.

(** The offsets [idx[k] - (k0 + k)] of a list that starts at position [k0];
    [index_offsets] is the case [k0 = 0]. *)
Definition offsets_from (k0 : nat) (idx : list nat) : list Z :=
  map2 (fun i k => (Z.of_nat i - Z.of_nat k)%Z) idx (seq k0 (length idx)).

(** ** Histogram threshold *)

(** Position of the first entry that satisfies [f]. *)
Fixpoint first_index {A} (f : A -> bool) (l : list A) : option nat :=
  match l with
  | [] => None
  | x :: r => if f x then Some 0 else option_map S (first_index f r)
  end.

(** Every entry is at most its successor. *)
Fixpoint nondecreasing (l : vec) : bool :=
  match l with
  | x :: (y :: _) as r => (x <=? y)%f64 && nondecreasing r
  | _ => true
  end.

(** A world in which every surrogate has [c] edge values in each bin of
    the histogram over the range it is asked for. *)
Definition uniform_world (c : nat) : world :=
  {| fit_transform_data := [[of_Z 1; of_Z 2]];
     fit_transform_surr := fun _ => [[of_Z 1; of_Z 2]];
     randint := fun _ _ => 0;
     histogram := fun _ nbins hist_range =>
       Ok (repeat (of_nat c) nbins,
           linspace (fst hist_range) (snd hist_range) (S nbins)) |}.

(** [|thr - 50| <= 100 / nbins]: within one bin width of the midpoint. *)
Definition near_midpoint (nbins : nat) (thr : float64) : bool :=
  (SFabs (thr - of_Z 50) <=? of_Z 100 / of_nat nbins)%f64.

(** The row of products [row[u] * row[v]] when [u] and [v] are inside the
    row. *)
Definition edge_row (u v : list nat) (row : vec) : vec :=
  map2 mul (map (fun j => nth j row nan) u) (map (fun j => nth j row nan) v).

(** ** Columns *)


(** ** Sample runs *)

(** A series with one time point and two nodes, no surrogate volumes. *)
Definition single_time_point : world :=
  {| fit_transform_data := [[of_Z 1; of_Z 2]];
     fit_transform_surr := fun _ => [];
     randint := fun _ _ => 0;
     histogram := fun _ _ _ => Raise ValueError |}.


(** AUC surrogates of two time points and two nodes, the same for every
    trial, with edge value 2 at time 0 and 12 at time 1. *)
Definition plain_AUC : world :=
  {| fit_transform_data := [[of_Z 1; of_Z 2]; [of_Z 3; of_Z 4]];
     fit_transform_surr := fun _ => [[of_Z 1; of_Z 2]; [of_Z 3; of_Z 4]];
     randint := fun _ _ => 0;
     histogram := fun _ nbins hist_range =>
       Ok (repeat (of_Z 1) nbins,
           linspace (fst hist_range) (snd hist_range) (S nbins)) |}.

(** A series with two time points and a single node. *)
Definition single_node : world :=
  {| fit_transform_data := [[of_Z 1]; [of_Z 2]];
     fit_transform_surr := fun _ => [];
     randint := fun _ _ => 0;
     histogram := fun _ _ _ => Raise ValueError |}.

(** An observed RSS of three time points and a null matrix of two trials. *)
Definition sample_rss : vec := [of_Z 1; of_Z 3; of_Z 2].
Definition sample_rssr : matrix :=
  [[of_Z 1; of_Z 2]; [of_Z 3; of_Z 0]; [of_Z 2; of_Z 2]].

(** An observed RSS of eight time points and candidate indices in two runs. *)
Definition sample_rss8 : vec :=
  [of_Z 0; of_Z 4; of_Z 9; of_Z 5; of_Z 0; of_Z 0; of_Z 7; of_Z 7].
Definition sample_idx : list nat := [1; 2; 3; 6; 7].

(** An edge matrix of three time points and two edges. *)
Definition sample_ets : matrix :=
  [[of_Z 1; of_Z 5]; [of_Z 6; of_Z 2]; [of_Z 7; of_Z 8]].


(** Trial results [(rssr, min, max)] for two time points, the same for all
    [numrand] trials. *)
Definition sample_results : list (vec * float64 * float64) :=
  repeat ([of_Z 2; of_Z 12], of_Z 2, of_Z 12) numrand.

(** ** The value of a binary64 number and the rounding of a rational

    The statements about sums, quotients and products of counts go through
    the rational value of a finite binary64 number and through a relation
    between a non-negative rational and the binary64 number it rounds to
    (to nearest, ties to even). *)

Definition pow2 (e : Z) : Q := (2 ^ e)%Q.

(** The value [m * 2^e]. *)
Definition F2Q (m e : Z) : Q := (inject_Z m * pow2 e)%Q.

(** The value of a finite number that is not negative; 0 for the others. *)
Definition val (f : float64) : Q :=
  match f with
  | S754_finite false m e => F2Q (Z.pos m) e
  | _ => 0%Q
  end.

(** [x] lies in [[m * 2^e, (m + 1) * 2^e)] at the place [l]: on the lower
    end, in the lower half, on the middle or in the upper half. *)
Definition inbetween (m e : Z) (l : location) (x : Q) : Prop :=
  match l with
  | loc_Exact => (x == F2Q m e)%Q
  | loc_Inexact Lt => (F2Q m e < x /\ x < F2Q m e + (1 # 2) * pow2 e)%Q
  | loc_Inexact Eq => (x == F2Q m e + (1 # 2) * pow2 e)%Q
  | loc_Inexact Gt => (F2Q m e + (1 # 2) * pow2 e < x /\ x < F2Q m e + pow2 e)%Q
  end.

(** [e] is the exponent of the binary64 numbers around [x >= 0]: the
    smallest exponent for a number below [2^(emin + prec)], and otherwise
    the one for which [x] has [prec] digits. *)
Definition cexp_of (x : Q) (e : Z) : Prop :=
  (emin prec emax <= e)%Z /\ (x < pow2 (e + prec))%Q /\
  (e = emin prec emax \/ (pow2 (e + prec - 1) <= x)%Q).

(** The number of mantissa [m <= 2^prec] and exponent [e]: zero, a finite
    number (after a carry when [m = 2^prec]) or an infinity. *)
Definition pack (s : bool) (m e : Z) : float64 :=
  let '(mrs, e') := shr_fexp prec emax m e loc_Exact in
  match shr_m mrs with
  | Z0 => S754_zero s
  | Z.pos p => if (e' <=? emax - prec)%Z then S754_finite s p e' else S754_infinity s
  | Z.neg _ => S754_nan
  end.

(** [r] is [x >= 0] rounded to binary64, to nearest with ties to even. *)
Definition rounds (x : Q) (r : float64) : Prop :=
  exists e m l,
    cexp_of x e /\ (0 <= m)%Z /\ inbetween m e l x /\
    r = pack false (round_nearest_even m l) e.

(** A finite binary64 number that is not negative, in its one
    representation. *)
Definition canonical (f : float64) : Prop :=
  match f with
  | S754_zero s => s = false
  | S754_finite false m e => bounded prec emax m e = true
  | _ => False
  end.

(** The cumulative percentage of [k] counts out of [n], as the code
    computes it: [k / n * 100] in binary64. *)
Definition percentage (n k : nat) : float64 :=
  (of_nat k / of_nat n * of_Z 100)%f64.

(** The sums of the columns of integer counts: the pooled histogram. *)
Definition column_sums (ks : list (list nat)) : list nat :=
  match ks with
  | [] => []
  | r :: rs => fold_left (map2 Nat.add) rs r
  end.

(** The running totals [k0, k0 + k1, ...] after [acc]. *)
Fixpoint running_from (acc : nat) (l : list nat) : list nat :=
  match l with
  | [] => []
  | k :: r => (acc + k) :: running_from (acc + k) r
  end.

Definition running (l : list nat) : list nat := running_from 0 l.

(** Half a unit in the last place of a number in [[1, 2)]. *)
Definition ulp_half : Q := pow2 (- prec).

(** ** A histogram by comparison with the edges *)

(** Is [x] in the bin [b] of [nbins] bins with these edges?  The bins are
    closed on the left and open on the right, except the last one, which
    is closed. *)
Definition in_bin (edges : vec) (nbins b : nat) (x : float64) : bool :=
  (nth b edges nan <=? x)%f64 &&
  (if (S b =? nbins)%nat then (x <=? nth (S b) edges nan)%f64
   else (x <? nth (S b) edges nan)%f64).

(** The counts of the values of [a] in [nbins] equal bins over
    [hist_range], and the [nbins + 1] edges. *)
Definition count_between_edges (a : vec) (nbins : nat)
    (hist_range : float64 * float64) : result (vec * vec) :=
  let edges := linspace (fst hist_range) (snd hist_range) (S nbins) in
  Ok (map (fun b => of_nat (length (filter (in_bin edges nbins b) a)))
          (seq 0 nbins),
      edges).

(** Surrogates of two time points and two nodes: the edge values of trial 0
    are 2 and 12, those of the later trials 64 and 90. *)
Definition two_sided_surrogates : world :=
  {| fit_transform_data := [[of_Z 1; of_Z 2]; [of_Z 3; of_Z 4]];
     fit_transform_surr := fun irand =>
       match irand with
       | O => [[of_Z 1; of_Z 2]; [of_Z 3; of_Z 4]]
       | S _ => [[of_Z 8; of_Z 8]; [of_Z 9; of_Z 10]]
       end;
     randint := fun _ _ => 0;
     histogram := count_between_edges |}.

(** ** [debiasing]

    The mask of significant edge-time connections is built in the file;
    the HRF matrix, the regression and the files written are the work of
    collaborators and are taken as the function [debiasing_spike]. *)

(** [x != 0]; true for NaN. *)
Definition nonzero (x : float64) : bool := negb (x ==? zero)%f64.

(** [np.where(mtx != 0)]: the positions [(time, edge)] in row-major order. *)
Definition where_nonzero (mtx : matrix) : list (nat * nat) :=
  argwhere2 (map (map nonzero) mtx).

(** [m[r, c] = x] *)
Definition set_entry (m : matrix) (r c : nat) (x : float64) : result matrix :=
  row <- index m r ;;
  if (c <? length row)%nat then Ok (upd r (upd c x row) m)
  else Raise IndexError.

(** The loop over [enumerate(time_idxs)]. *)
Fixpoint mark_edges (ets_mask : matrix) (idx_u idx_v : list nat)
    (idxs : list (nat * nat)) : result matrix :=
  match idxs with
  | [] => Ok ets_mask
  | (time_idx, edge_idx) :: idxs' =>
      nu <- index idx_u edge_idx ;;
      ets_mask <- set_entry ets_mask time_idx nu (of_Z 1) ;;
      nv <- index idx_v edge_idx ;;
      ets_mask <- set_entry ets_mask time_idx nv (of_Z 1) ;;
      mark_edges ets_mask idx_u idx_v idxs'
  end.

(** Generate mask of significant edge-time connections. *)
Definition significant_mask (data mtx : matrix) (idx_u idx_v : list nat)
  : result matrix :=
  let ets_mask := map (map (fun _ => zero)) data in
  mark_edges ets_mask idx_u idx_v (where_nonzero mtx).

Definition debiasing (debiasing_spike : matrix -> matrix -> matrix * matrix)
    (data mtx : matrix) (idx_u idx_v : list nat) : result (matrix * matrix) :=
  ets_mask <- significant_mask data mtx idx_u idx_v ;;
  (* Perform debiasing *)
  Ok (debiasing_spike data ets_mask).

(** ** Vocabulary of the further statements *)

(** The pairs [(a, b)] with [a < b < n], ordered by [a], then by [b]. *)
Definition edge_pairs (n : nat) : list (nat * nat) :=
  flat_map (fun a => map (pair a) (seq (S a) (n - S a))) (seq 0 n).

(** NaN, or a value whose sign bit is clear. *)
Definition sign_clear (x : float64) : bool :=
  match x with
  | S754_nan => true
  | S754_zero s | S754_infinity s | S754_finite s _ _ => negb s
  end.

(** [m[:, i]] when every row has a column [i]. *)
Definition column (i : nat) (m : matrix) : vec := map (fun row => nth i row nan) m.

(** Number of pooled surrogate values at least [x]. *)
Definition count_at_least (rssr : matrix) (x : float64) : nat :=
  count_occ bool_dec (map (fun y => (y >=? x)%f64) (concat rssr)) true.

(** Node [n] is an end of an edge whose entry of [mtx] at time [t] is not
    zero. *)
Definition active (mtx : matrix) (idx_u idx_v : list nat) (t n : nat) : Prop :=
  exists e x,
    entry mtx t e = Some x /\ nonzero x = true /\
    (nth_error idx_u e = Some n \/ nth_error idx_v e = Some n).

(** A series of four time points and three nodes. *)
Definition sample_series : matrix :=
  [[of_Z 1; of_Z 2; of_Z 3]; [of_Z 4; of_Z 5; of_Z 6];
   [of_Z 7; of_Z 8; of_Z 9]; [of_Z 2; of_Z 0; of_Z 1]].

(** [x] stretched to [t] entries as an assignment [row[:] = x] does it. *)
Definition spread (t : nat) (x : vec) : vec :=
  if (length x =? t)%nat then x else repeat (hd nan x) t.

(** AUC surrogates of six time points and two nodes, the same for every
    trial, and an observed series with large co-fluctuations at times 2, 3
    and 5. *)
Definition peaks_world : world :=
  {| fit_transform_data :=
       [[of_Z 1; of_Z 2]; [of_Z 1; of_Z 2]; [of_Z 10; of_Z 10];
        [of_Z 11; of_Z 11]; [of_Z 1; of_Z 2]; [of_Z 20; of_Z 30]];
     fit_transform_surr := fun _ =>
       [[of_Z 1; of_Z 1]; [of_Z 1; of_Z 2]; [of_Z 1; of_Z 2];
        [of_Z 2; of_Z 2]; [of_Z 2; of_Z 2]; [of_Z 3; of_Z 3]];
     randint := fun _ _ => 0;
     histogram := fun _ nbins hist_range =>
       Ok (repeat (of_Z 1) nbins,
           linspace (fst hist_range) (snd hist_range) (S nbins)) |}.

(** What [event_detection] returns for [w], when it returns. *)
Definition returned (w : world) (surrprefix : string) (segments : bool)
  : detection :=
  match event_detection w surrprefix segments with
  | Ok out => out
  | Raise _ =>
      {| ets := []; rss := []; rssr := []; idxpeak := []; etspeaks := [];
         mu := []; ets_thr := None; u := []; v := [] |}
  end.

Definition peaks_segmented : detection := Eval vm_compute in returned peaks_world "AUC_" true.

(** Some position of [idxs] is at time [t] and on an edge with end [n]. *)
Definition marked (idx_u idx_v : list nat) (idxs : list (nat * nat)) (t n : nat)
  : bool :=
  existsb (fun p =>
             (fst p =? t)%nat &&
             (match nth_error idx_u (snd p) with
              | Some a => (a =? n)%nat
              | None => false
              end ||
              match nth_error idx_v (snd p) with
              | Some b => (b =? n)%nat
              | None => false
              end))
          idxs.

(** A thresholded edge matrix of three time points and three edges, with
    peaks at times 0 and 2. *)
Definition sample_mtx : matrix :=
  [[of_Z 0; of_Z 5; of_Z 0]; [of_Z 0; of_Z 0; of_Z 0]; [of_Z 7; of_Z 0; of_Z 0]].

(** A series of three time points and three nodes. *)
Definition sample_nodes : matrix :=
  [[of_Z 1; of_Z 2; of_Z 3]; [of_Z 4; of_Z 5; of_Z 6]; [of_Z 7; of_Z 8; of_Z 9]].


(** A number, possibly infinite, whose sign bit is clear. *)
Definition unsigned_number (x : float64) : bool :=
  match x with
  | S754_nan => false
  | S754_zero s | S754_infinity s | S754_finite s _ _ => negb s
  end.

(** A stand-in for [debiasing_spike] that returns the mask and the data it
    is given. *)
Definition mask_and_data (data ets_mask : matrix) : matrix * matrix :=
  (ets_mask, data).

(** A series of one time point and three nodes. *)
Definition sample_short : matrix := [[of_Z 1; of_Z 2; of_Z 3]].

(** The thresholded edge matrix of the segmented run of [peaks_world]. *)
Definition peaks_thresholded : matrix := Eval vm_compute in
    match ets_thr peaks_segmented with
    | Some m => m
    | None => []
    end.

(** A series of eight time points and three nodes in which all the nodes
    are large together at times 2, 3 and 6. *)
Definition sample_spikes : matrix :=
  [[of_Z 0; of_Z 1; of_Z 0]; [of_Z 0; of_Z 0; of_Z 1];
   [of_Z 9; of_Z 9; of_Z 9]; [of_Z 10; of_Z 10; of_Z 10];
   [of_Z 0; of_Z 0; of_Z 1]; [of_Z 0; of_Z 1; of_Z 0];
   [of_Z 10; of_Z 10; of_Z 10]; [of_Z 0; of_Z 0; of_Z 0]].

(** A run without surrogate volumes on [sample_spikes]; the column [i] of
    trial [irand] is rolled by [irand + i]. *)
Definition shuffle_world : world :=
  {| fit_transform_data := sample_spikes;
     fit_transform_surr := fun _ => [];
     randint := fun irand i => irand + i;
     histogram := fun _ _ _ => Raise ValueError |}.

Definition shuffled : detection := Eval vm_compute in returned shuffle_world "" true.
Definition shuffled_unsegmented : detection := Eval vm_compute in returned shuffle_world "" false.

(** The run on the single time point of [uniform_world 1]: no candidate. *)
Definition quiet : detection := Eval vm_compute in returned (uniform_world 1) "" true.

(** Two trial results [(rssr, min, max)] for one time point. *)
Definition sample_trials : list (vec * float64 * float64) :=
  [([of_Z 2], of_Z 1, of_Z 5); ([of_Z 3], of_Z (-1), of_Z 4)].

Definition sample_null : matrix := Eval vm_compute in
    match null_distribution true 1 sample_trials with
    | Ok (m, _) => m
    | Raise _ => []
    end.

(** ** [calculate_ets] on an array of any dtype

    The masker may return a [float32] or a [float64] array; the product
    [y[:, u] * y[:, v]] is the product of the dtype of [y]. *)

Section AnyDtype.

Variable T : Type.
  (** The product of the dtype of the array. *)
Variable times : T -> T -> T.

  (** [y[:, u] * y[:, v]] *)
Definition edge_product_of (y : list (list T)) (u v : list nat)
    : result (list (list T)) :=
    mapM (fun row => yu <- take row u ;; yv <- take row v ;;
                     Ok (map2 times yu yv)) y.

Definition calculate_ets_of (y : list (list T)) (n : nat)
    : result (list (list T) * list nat * list nat) :=
    (* upper triangle indices (node pairs = edges) *)
    let uv := argwhere2 (triu_ones n 1) in
    let u := map fst uv in
    let v := map snd uv in
    (* edge time series *)
    ets <- edge_product_of y u v ;;
    Ok (ets, u, v).

  (** [m[r, c]], when the position exists. *)
Definition entry_of (m : list (list T)) (r c : nat) : option T :=
    match nth_error m r with
    | Some row => nth_error row c
    | None => None
    end.

End AnyDtype.

(** The product of [float32]. *)
Definition mul32 : spec_float -> spec_float -> spec_float := SFmul 24 128.

(** A [float32] series of two time points and three nodes. *)
Definition sample_series32 : list (list spec_float) :=
  [[binary_normalize 24 128 1 0 false; binary_normalize 24 128 2 0 false;
    binary_normalize 24 128 3 0 false];
   [binary_normalize 24 128 4 0 false; binary_normalize 24 128 5 0 false;
    binary_normalize 24 128 6 0 false]].

(** * Properties *)

(** ** The order of binary64 *)

Module Order.

Import OrderKey.

Ltac by_cases x y :=
    destruct x as [[|]|[|]| |[|] ? ?], y as [[|]|[|]| |[|] ? ?];
    unfold leb, ltb, eqb, SFleb, SFltb, SFeqb, SFcompare, le3, lt3, key, is_nan;
    repeat match goal with
      | |- context [Pos.compare_cont Eq ?a ?b] =>
          change (Pos.compare_cont Eq a b) with (Pos.compare a b);
          destruct (Pos.compare_spec a b)
      | |- context [Z.compare ?a ?b] => destruct (Z.compare_spec a b)
      end;
    simpl; split; intros; try discriminate; try lia; intuition (try lia; try discriminate).

Lemma leb_iff (x y : float64) :
    leb x y = true <->
    is_nan x = false /\ is_nan y = false /\ le3 (key x) (key y).
  Proof. by_cases x y. Qed.

Lemma ltb_iff (x y : float64) :
    ltb x y = true <->
    is_nan x = false /\ is_nan y = false /\ lt3 (key x) (key y).
  Proof. by_cases x y. Qed.


Lemma le3_trans a b c : le3 a b -> le3 b c -> le3 a c.
  Proof.
    destruct a as [[a1 a2] a3], b as [[b1 b2] b3], c as [[c1 c2] c3].
    unfold le3. lia.
  Qed.

Lemma le3_total a b : le3 a b \/ lt3 b a.
  Proof.
    destruct a as [[a1 a2] a3], b as [[b1 b2] b3]. unfold le3, lt3. lia.
  Qed.

Lemma lt3_not_le3 a b : lt3 a b -> ~ le3 b a.
  Proof.
    destruct a as [[a1 a2] a3], b as [[b1 b2] b3]. unfold le3, lt3. lia.
  Qed.

Lemma leb_trans (x y z : float64) :
    leb x y = true -> leb y z = true -> leb x z = true.
  Proof.
    rewrite !leb_iff. intros (nx & _ & xy) (_ & nz & yz).
    repeat split; trivial. exact (le3_trans _ _ _ xy yz).
  Qed.

Lemma geb_trans (x y z : float64) :
    geb x y = true -> geb y z = true -> geb x z = true.
  Proof. unfold geb. intros xy yz. exact (leb_trans _ _ _ yz xy). Qed.

Lemma leb_nan_l (x : float64) : leb nan x = false.
  Proof. reflexivity. Qed.

Lemma leb_nan_r (x : float64) : leb x nan = false.
  Proof. destruct x as [[|]|[|]| |[|] ? ?]; reflexivity. Qed.

  (** Among numbers, whatever is not below is strictly above. *)
Lemma not_leb_ltb (x y : float64) :
    is_nan x = false -> is_nan y = false -> leb x y = false -> ltb y x = true.
  Proof.
    intros nx ny h. apply ltb_iff. repeat split; trivial.
    destruct (le3_total (key x) (key y)) as [le | lt]; trivial.
    assert (leb x y = true) by (apply leb_iff; auto). congruence.
  Qed.

Lemma ltb_not_leb (x y : float64) : ltb x y = true -> leb y x = false.
  Proof.
    rewrite ltb_iff. intros (nx & ny & lt).
    destruct (leb y x) eqn:h; trivial.
    apply leb_iff in h. destruct h as (_ & _ & le).
    destruct (lt3_not_le3 _ _ lt le).
  Qed.

Lemma leb_not_ltb (x y : float64) : leb x y = true -> ltb y x = false.
  Proof.
    intros le. destruct (ltb y x) eqn:h; trivial.
    apply ltb_not_leb in h. congruence.
  Qed.

End Order.

(** ** Empirical p-values *)

Section PValues.

Lemma count_true_app (l l' : list bool) :
    count_occ bool_dec (l ++ l') true =
    count_occ bool_dec l true + count_occ bool_dec l' true.
  Proof. apply count_occ_app. Qed.

Lemma count_row (f : float64 -> bool) (row : vec) :
    count_occ bool_dec (map f row) true =
    list_sum (map (fun j => ind (f (nth j row nan))) (seq 0 (length row))).
  Proof.
    induction row as [|y row IH]; [reflexivity|].
    cbn [length seq map list_sum nth count_occ].
    rewrite <- seq_shift, map_map.
    change (list_sum (map (fun j => ind (f (nth (S j) (y :: row) nan)))
                          (seq 0 (length row))))
      with (list_sum (map (fun j => ind (f (nth j row nan))) (seq 0 (length row)))).
    rewrite IH.
    destruct (f y); destruct (bool_dec _ _); first [reflexivity | congruence].
  Qed.

Lemma seq_rows_from {A} (g : list A -> nat) (rows : list (list A)) :
    map (fun i => g (nth i rows [])) (seq 0 (length rows)) = map g rows.
  Proof.
    induction rows as [|r rows IH]; [reflexivity|].
    cbn [length seq map nth]. rewrite <- seq_shift, map_map. cbn [nth].
    now rewrite IH.
  Qed.

Lemma count_pooled (rssr : matrix) (ntrials : nat) (x : float64) :
    Forall (fun row => length row = ntrials) rssr ->
    count_occ bool_dec (map (fun y => (y >=? x)%f64) (concat rssr)) true =
    pooled_count rssr ntrials x.
  Proof.
    intros rect. unfold pooled_count, null_entry.
    rewrite (seq_rows_from
               (fun row => list_sum (map (fun j => ind (nth j row nan >=? x)%f64)
                                         (seq 0 ntrials)))).
    induction rect as [|row rows len _ IH]; [reflexivity|].
    cbn [concat map list_sum]. rewrite map_app, count_true_app, IH.
    f_equal. rewrite count_row. now rewrite len.
  Qed.

Lemma length_pooled (rssr : matrix) (ntrials : nat) :
    Forall (fun row => length row = ntrials) rssr ->
    length (concat rssr) = length rssr * ntrials.
  Proof.
    induction 1 as [|row rows len _ IH]; [reflexivity|].
    cbn [concat length]. rewrite length_app, IH, len. reflexivity.
  Qed.

Lemma mean_mask_fraction (mask : list bool) :
    mean_mask mask = fraction (count_occ bool_dec mask true) (length mask).
  Proof. reflexivity. Qed.

Lemma pvalues_nth (rss : vec) (rssr : matrix) (t : nat) (x : float64) :
    nth_error rss t = Some x ->
    nth_error (pvalues rss rssr) t =
    Some (mean_mask (map (fun y => (y >=? x)%f64) (concat rssr))).
  Proof.
    intros h. unfold pvalues. rewrite nth_error_map, h. reflexivity.
  Qed.

  (** C1. The p-value of time [t] is the number of entries of the whole
      [T x numTrials] null matrix, over all times and all trials, that are
      at least [rss[t]], divided by [T * numTrials]: one reference
      distribution for every time point. *)
Theorem pvalue_is_pooled_fraction
      (rss : vec) (rssr : matrix) (ntrials t : nat) (x : float64) :
    Forall (fun row => length row = ntrials) rssr ->
    nth_error rss t = Some x ->
    nth_error (pvalues rss rssr) t =
    Some (fraction (pooled_count rssr ntrials x) (length rssr * ntrials)).
  Proof.
    intros rect h. rewrite (pvalues_nth _ rssr _ h), mean_mask_fraction.
    rewrite length_map, (length_pooled rect), (count_pooled x rect).
    reflexivity.
  Qed.

Lemma count_mono {A} (f g : A -> bool) (l : list A) :
    (forall y, f y = true -> g y = true) ->
    count_occ bool_dec (map f l) true <= count_occ bool_dec (map g l) true.
  Proof.
    intros imp. induction l as [|y l IH]; [apply le_n|].
    cbn [map count_occ]. specialize (imp y).
    destruct (f y), (g y); repeat destruct (bool_dec _ _);
      try congruence; try lia.
  Qed.

  (** C4. With a pooled null distribution that is not empty, a larger
      observed RSS never has a larger p-value. *)
Theorem pvalue_antitone
      (rss : vec) (rssr : matrix) (t1 t2 : nat) (x1 x2 : float64) :
    concat rssr <> [] ->
    nth_error rss t1 = Some x1 ->
    nth_error rss t2 = Some x2 ->
    (x1 >=? x2)%f64 = true ->
    exists p1 p2 : Q,
      nth_error (pvalues rss rssr) t1 = Some (Some p1) /\
      nth_error (pvalues rss rssr) t2 = Some (Some p2) /\
      Qle p1 p2.
  Proof.
    intros nonempty h1 h2 ge.
    rewrite (pvalues_nth _ rssr _ h1), (pvalues_nth _ rssr _ h2).
    unfold mean_mask. rewrite !length_map.
    destruct (concat rssr) as [|y flat] eqn:e; [congruence|].
    cbn [length]. eexists. eexists. split; [reflexivity|].
    split; [reflexivity|].
    unfold Qle. cbn [Qnum Qden]. apply Z.mul_le_mono_nonneg_r; [lia|].
    apply Nat2Z.inj_le, count_mono.
    intros z hz. exact (Order.geb_trans _ _ _ hz ge).
  Qed.

End PValues.

(** ** Indexing *)

Section Indexing.

Context {A : Type}.

Lemma index_ok (a : list A) (i : nat) (d : A) :
    i < length a -> index a i = Ok (nth i a d).
  Proof.
    intros lt. unfold index. now rewrite (nth_error_nth' a d lt).
  Qed.

Lemma index_raise (a : list A) (i : nat) :
    length a <= i -> index a i = Raise IndexError.
  Proof.
    intros le. unfold index. apply nth_error_None in le. now rewrite le.
  Qed.

Lemma take_ok (a : list A) (js : list nat) (d : A) :
    Forall (fun j => j < length a) js ->
    take a js = Ok (map (fun j => nth j a d) js).
  Proof.
    unfold take. induction 1 as [|j js lt _ IH]; [reflexivity|].
    cbn [mapM map]. rewrite (@index_ok a j d lt). cbn [bind]. now rewrite IH.
  Qed.

Lemma take_raise (a : list A) (js : list nat) :
    Exists (fun j => length a <= j) js -> take a js = Raise IndexError.
  Proof.
    unfold take. induction js as [|j js IH]; intros ex.
    - inversion ex.
    - cbn [mapM]. unfold index at 1.
      destruct (nth_error a j) eqn:e.
      + cbn [bind]. rewrite IH; [reflexivity|].
        inversion ex as [? ? le|]; subst; trivial.
        apply nth_error_None in le. congruence.
      + reflexivity.
  Qed.

Lemma length_upd (i : nat) (x : A) (a : list A) :
    length (upd i x a) = length a.
  Proof.
    revert i. induction a as [|y a IH]; intros [|i]; cbn; auto.
  Qed.

Lemma nth_error_upd (i r : nat) (x : A) (a : list A) :
    nth_error (upd i x a) r =
    if (r =? i)%nat then (if (i <? length a)%nat then Some x else None)
    else nth_error a r.
  Proof.
    revert i r. induction a as [|y a IH]; intros [|i] [|r]; cbn [upd nth_error length]; trivial.
    - destruct (S r =? S i)%nat; reflexivity.
    - rewrite IH. reflexivity.
  Qed.

End Indexing.

(** ** [threshold_ets_matrix] *)

Section Threshold.

Lemma assign_rows_nth (src : matrix) (idxs : list nat) :
    Forall (fun i => i < length src) idxs ->
    forall (m : matrix) (r : nat),
      length m = length src ->
      nth_error (assign_rows m idxs (map (fun i => nth i src []) idxs)) r =
      if mem r idxs then nth_error src r else nth_error m r.
  Proof.
    induction 1 as [|i idxs lt _ IH]; intros m r len; [reflexivity|].
    cbn [map assign_rows mem existsb].
    fold (mem r idxs).
    rewrite IH by (now rewrite length_upd).
    rewrite nth_error_upd, len.
    destruct (Nat.ltb_spec i (length src)); [|lia].
    destruct (Nat.eqb_spec r i) as [->|ne]; cbn [orb].
    - rewrite (nth_error_nth' src [] lt). now destruct (mem i idxs).
    - reflexivity.
  Qed.

  (** C3. When every selected index is a row of the edge matrix, the
      thresholded matrix has the shape of the input; a row that is not
      selected is zero everywhere; in a selected row an entry below [thr]
      is zero and any other entry is the entry of the input. *)
Theorem threshold_ets_matrix_entries
      (ets_matrix : matrix) (selected_idxs : list nat) (thr : float64) :
    Forall (fun i => i < length ets_matrix) selected_idxs ->
    exists m,
      threshold_ets_matrix ets_matrix selected_idxs thr = Ok m /\
      forall r c,
        entry m r c =
        option_map
          (fun x => if mem r selected_idxs
                    then (if (x <? thr)%f64 then zero else x)
                    else zero)
          (entry ets_matrix r c).
  Proof.
    intros inside. unfold threshold_ets_matrix.
    rewrite (@take_ok _ ets_matrix selected_idxs [] inside). cbn [bind].
    eexists. split; [reflexivity|].
    intros r c. unfold entry.
    rewrite nth_error_map, assign_rows_nth; trivial.
    2: now rewrite length_map.
    rewrite nth_error_map.
    unfold matrix, vec in *.
    destruct (nth_error ets_matrix r) as [row|], (mem r selected_idxs);
      cbv beta iota delta [option_map]; trivial.
    - now rewrite nth_error_map.
    - rewrite !nth_error_map.
      destruct (nth_error row c); cbn [option_map]; trivial.
      now destruct (zero <? thr)%f64.
  Qed.

  (** A selected index outside the edge matrix is an [IndexError]. *)
Lemma threshold_ets_matrix_raises
      (ets_matrix : matrix) (selected_idxs : list nat) (thr : float64) :
    Exists (fun i => length ets_matrix <= i) selected_idxs ->
    threshold_ets_matrix ets_matrix selected_idxs thr = Raise IndexError.
  Proof.
    intros outside. unfold threshold_ets_matrix.
    now rewrite (@take_raise _ ets_matrix selected_idxs outside).
  Qed.

End Threshold.

(** ** [np.unique] *)

Section Unique.

Lemma insert_unique_Forall (P : Z -> Prop) (z : Z) (l : list Z) :
    P z -> Forall P l -> Forall P (insert_unique z l).
  Proof.
    intros pz. induction 1 as [|y l py pl IH]; cbn [insert_unique].
    - auto.
    - destruct (z ?= y)%Z; auto.
  Qed.

Lemma unique_Forall (P : Z -> Prop) (l : list Z) :
    Forall P l -> Forall P (unique l).
  Proof.
    induction 1 as [|y l py pl IH]; cbn [unique fold_right]; [constructor|].
    now apply insert_unique_Forall.
  Qed.

Lemma insert_unique_sorted (z : Z) (l : list Z) :
    StronglySorted Z.lt l -> StronglySorted Z.lt (insert_unique z l).
  Proof.
    induction 1 as [|y l sl IH above]; cbn [insert_unique].
    - repeat constructor.
    - destruct (Z.compare_spec z y) as [->|lt|gt].
      + now constructor.
      + constructor; [now constructor|].
        constructor; trivial.
        eapply Forall_impl; [|exact above]. cbn. intros; lia.
      + constructor; trivial. now apply insert_unique_Forall.
  Qed.

Lemma unique_sorted (l : list Z) : StronglySorted Z.lt (unique l).
  Proof.
    induction l as [|y l IH]; cbn [unique fold_right]; [constructor|].
    now apply insert_unique_sorted.
  Qed.

  (** The least value comes first. *)
Lemma unique_head (d : Z) (l : list Z) :
    Forall (fun x => (d <= x)%Z) l ->
    exists others, unique (d :: l) = d :: others /\
                   Forall (fun x => (d < x)%Z) others.
  Proof.
    intros above. apply unique_Forall in above.
    pose proof (unique_sorted (d :: l)) as sorted.
    cbn [unique fold_right] in *. fold (unique l) in *.
    destruct (unique l) as [|y r]; cbn [insert_unique] in *.
    - exists []. auto.
    - inversion above as [|? ? dy _]; subst.
      destruct (Z.compare_spec d y) as [->|lt|gt]; [| |lia].
      + exists r. split; trivial. now inversion sorted.
      + exists (y :: r). split; trivial. now inversion sorted.
  Qed.

End Unique.

(** ** Segmentation *)

Section Segmentation.

Lemma offsets_from_cons (k0 i : nat) (rest : list nat) :
    offsets_from k0 (i :: rest) =
    (Z.of_nat i - Z.of_nat k0)%Z :: offsets_from (S k0) rest.
  Proof. reflexivity. Qed.

Lemma offsets_lower (rest : list nat) :
    forall k0 lo,
      increasing_from lo rest ->
      Forall (fun d => (Z.of_nat lo - Z.of_nat k0 <= d)%Z) (offsets_from k0 rest).
  Proof.
    induction rest as [|j rest IH]; intros k0 lo inc; [constructor|].
    destruct inc as [le inc]. rewrite offsets_from_cons. constructor; [lia|].
    eapply Forall_impl; [|exact (IH (S k0) (S j) inc)].
    cbn beta. intros; lia.
  Qed.

Lemma event_members_cons (i : nat) (rest : list nat) (d0 : Z) (dff : list Z) (d : Z) :
    event_members (i :: rest) (d0 :: dff) d =
    if (d0 =? d)%Z then i :: event_members rest dff d
    else event_members rest dff d.
  Proof. reflexivity. Qed.

Lemma event_members_absent (dff : list Z) (d : Z) :
    Forall (fun x => x <> d) dff ->
    forall idx, event_members idx dff d = [].
  Proof.
    induction 1 as [|x dff ne _ IH]; intros [|i idx]; trivial.
    rewrite event_members_cons.
    destruct (Z.eqb_spec x d); [contradiction|apply IH].
  Qed.

Lemma event_members_skip (i : nat) (rest : list nat) (d0 : Z) (dff ds : list Z) :
    Forall (fun d => (d0 < d)%Z) ds ->
    map (event_members (i :: rest) (d0 :: dff)) ds =
    map (event_members rest dff) ds.
  Proof.
    intros above. apply map_ext_in. intros d ind.
    rewrite Forall_forall in above. specialize (above d ind).
    rewrite event_members_cons.
    destruct (Z.eqb_spec d0 d); [lia|reflexivity].
  Qed.

  (** Grouping by offset is the scan, whatever the position the offsets
      are counted from. *)
Lemma groups_are_runs (idx : list nat) :
    forall k0 lo,
      increasing_from lo idx ->
      map (event_members idx (offsets_from k0 idx)) (unique (offsets_from k0 idx)) =
      runs_by_scan idx.
  Proof.
    induction idx as [|i rest IH]; intros k0 lo inc; [reflexivity|].
    destruct inc as [_ inc]. specialize (IH (S k0) (S i) inc).
    pose proof (offsets_lower rest (S k0) (S i) inc) as lower.
    rewrite offsets_from_cons. cbn [runs_by_scan].
    set (d0 := (Z.of_nat i - Z.of_nat k0)%Z) in *.
    destruct rest as [|j rest']; [cbn; now rewrite Z.eqb_refl|].
    destruct inc as [le inc'].
    rewrite offsets_from_cons in IH, lower |- *.
    set (d1 := (Z.of_nat j - Z.of_nat (S k0))%Z) in *.
    set (dff := offsets_from (S (S k0)) rest') in *.
    destruct (unique_head (d := d1) (l := dff)) as (others & eq & above).
    { eapply Forall_impl; [|exact (offsets_lower rest' (S (S k0)) (S j) inc')].
      cbn beta. subst d1. intros; lia. }
    rewrite eq in IH. cbn [map] in IH.
    rewrite event_members_cons, Z.eqb_refl in IH. rewrite <- IH.
    change (unique (d0 :: d1 :: dff)) with (insert_unique d0 (unique (d1 :: dff))).
    rewrite eq. cbn [insert_unique].
    destruct (Nat.eqb_spec j (S i)) as [->|ne].
    - assert (d1 = d0) as -> by (subst d0 d1; lia).
      rewrite Z.compare_refl. cbn [map].
      rewrite event_members_cons, Z.eqb_refl.
      rewrite event_members_cons, Z.eqb_refl.
      f_equal. now apply event_members_skip.
    - assert (d0 < d1)%Z as lt by (subst d0 d1; lia).
      rewrite (proj2 (Z.compare_lt_iff d0 d1) lt). cbn [map].
      rewrite event_members_cons, Z.eqb_refl.
      rewrite (event_members_cons i (j :: rest') d0 (d1 :: dff) d1).
      destruct (Z.eqb_spec d0 d1); [lia|].
      rewrite (event_members_absent (dff := d1 :: dff) (d := d0)).
      2: { constructor; [lia|]. inversion lower as [|? ? _ low]; subst.
           eapply Forall_impl; [|exact (offsets_lower rest' (S (S k0)) (S j) inc')].
           cbn beta. subst d0. intros; lia. }
      rewrite event_members_cons, Z.eqb_refl.
      f_equal. f_equal.
      apply event_members_skip.
      eapply Forall_impl; [|exact above]. cbn beta. intros; lia.
  Qed.

End Segmentation.

Section Runs.

  (** The scan cuts any list into its maximal runs of consecutive indices,
      and the first run starts with the first index. *)
Lemma runs_by_scan_maximal (idx : list nat) :
    maximal_runs idx (runs_by_scan idx) /\
    match idx with
    | [] => runs_by_scan idx = []
    | i :: _ => exists run runs, runs_by_scan idx = (i :: run) :: runs
    end.
  Proof.
    unfold maximal_runs.
    induction idx as [|i rest IH]; [cbn; auto|].
    destruct IH as ((cat & cons & sep) & head).
    cbn [runs_by_scan].
    destruct (runs_by_scan rest) as [|[|j run] runs].
    - cbn in cat. subst rest. cbn.
      split; [|eauto]. split; [reflexivity|]. split; [|exact I].
      constructor; [|constructor]. split; [discriminate|reflexivity].
    - inversion cons as [|? ? [ne _] _]; subst. congruence.
    - assert (rest = j :: run ++ concat runs) as -> by (now rewrite <- cat).
      inversion cons as [|? ? [_ eq] cons']; subst.
      cbn [hd length seq] in eq.
      destruct (Nat.eqb_spec j (S i)) as [->|ne].
      + split; [|eauto]. split; [reflexivity|]. split.
        * constructor; trivial. split; [discriminate|].
          cbn [hd length seq]. now rewrite <- eq.
        * destruct runs as [|r2 runs']; [exact I|].
          destruct sep as [gap sep]. split; trivial.
      + split; [|eauto]. split; [reflexivity|]. split.
        * constructor; trivial. split; [discriminate|reflexivity].
        * cbn. auto.
  Qed.

Lemma runs_members_inside (idx : list nat) (n : nat) :
    Forall (fun i => i < n) idx ->
    Forall (fun run => run <> [] /\ Forall (fun i => i < n) run) (runs_by_scan idx).
  Proof.
    intros inside.
    destruct (runs_by_scan_maximal idx) as ((cat & cons & _) & _).
    rewrite <- cat in inside. clear cat.
    induction cons as [|run runs [ne _] _ IH]; [constructor|].
    cbn [concat] in inside. apply Forall_app in inside. destruct inside.
    constructor; auto.
  Qed.

End Runs.

(** ** [np.argmax] *)

Section Argmax.

Import Order.

Lemma leb_refl (x : float64) : is_nan x = false -> leb x x = true.
  Proof.
    intros nx. apply leb_iff. repeat split; trivial.
    destruct (OrderKey.key x) as [[a b] c]. unfold OrderKey.le3. lia.
  Qed.

Lemma ltb_leb (x y : float64) : ltb x y = true -> leb x y = true.
  Proof.
    rewrite ltb_iff, leb_iff. intros (nx & ny & lt). repeat split; trivial.
    destruct (OrderKey.key x) as [[a b] c], (OrderKey.key y) as [[a' b'] c'].
    unfold OrderKey.le3, OrderKey.lt3 in *. lia.
  Qed.

Lemma leb_is_number (x y : float64) :
    leb x y = true -> is_nan x = false /\ is_nan y = false.
  Proof. rewrite leb_iff. tauto. Qed.

  (** The scan either keeps the running maximum, which then bounds the
      rest of the array, or moves to a later position that holds a NaN or
      a number that bounds both the rest and the running maximum. *)
Lemma argmax_from_spec (l : vec) :
    forall mp best i,
      is_nan mp = false ->
      (argmax_from mp best i l = best /\
       Forall (fun x => leb x mp = true) l) \/
      (exists j, j < length l /\ argmax_from mp best i l = i + j /\
                 (is_nan (nth j l nan) = true \/
                  (leb mp (nth j l nan) = true /\
                   Forall (fun x => leb x (nth j l nan) = true) l))).
  Proof.
    induction l as [|x r IH]; intros mp best i nmp; [left; cbn; auto|].
    cbn [argmax_from].
    destruct (leb x mp) eqn:le; cbn [negb].
    - destruct (IH mp best (S i) nmp) as [(eq & all) | (j & lt & eq & o)].
      + left. auto.
      + right. exists (S j). cbn [length nth].
        split; [lia|]. split; [lia|].
        destruct o as [isn | (up & all)]; [now left|right].
        split; trivial. constructor; trivial.
        exact (leb_trans _ _ _ le up).
    - right. destruct (is_nan x) eqn:nx.
      + exists 0. cbn [length nth]. split; [lia|]. split; [lia|]. now left.
      + assert (leb mp x = true) as up
            by (apply ltb_leb, not_leb_ltb; trivial).
        destruct (IH x i (S i) nx) as [(eq & all) | (j & lt & eq & o)].
        * exists 0. cbn [length nth]. split; [lia|]. split; [lia|].
          right. split; trivial. constructor; trivial. now apply leb_refl.
        * exists (S j). cbn [length nth]. split; [lia|]. split; [lia|].
          destruct o as [isn | (up' & all)]; [now left|right].
          split; [exact (leb_trans _ _ _ up up')|].
          constructor; trivial.
  Qed.

Lemma argmax_spec (l : vec) :
    l <> [] ->
    exists k, argmax l = Ok k /\ k < length l /\
              (is_nan (nth k l nan) = true \/
               Forall (fun x => leb x (nth k l nan) = true) l).
  Proof.
    destruct l as [|x r]; [congruence|]. intros _. cbn [argmax].
    destruct (is_nan x) eqn:nx.
    - exists 0. cbn. split; trivial. split; [lia|]. now left.
    - destruct (@argmax_from_spec r x 0 1 nx) as [(eq & all) | (j & lt & eq & o)].
      + exists 0. rewrite eq. cbn [length nth]. split; trivial.
        split; [lia|]. right. constructor; trivial. now apply leb_refl.
      + exists (S j). rewrite eq. cbn [length nth]. split; trivial.
        split; [lia|]. destruct o as [isn | (up & all)]; [now left|right].
        constructor; trivial.
  Qed.

End Argmax.

(** ** Peaks of the runs *)

Section Peaks.

Lemma mapM_map {A B C} (f : B -> result C) (g : A -> B) (l : list A) :
    mapM f (map g l) = mapM (fun a => f (g a)) l.
  Proof.
    induction l as [|a l IH]; [reflexivity|].
    cbn [map mapM]. now rewrite IH.
  Qed.

Lemma mapM_Forall2 {A B} (f : A -> result B) (R : A -> B -> Prop) (l : list A) :
    Forall (fun a => exists b, f a = Ok b /\ R a b) l ->
    exists bs, mapM f l = Ok bs /\ Forall2 R l bs.
  Proof.
    induction 1 as [|a l (b & eq & rab) _ (bs & eqs & all)].
    - exists []. split; [reflexivity|constructor].
    - exists (b :: bs). cbn [mapM]. rewrite eq, eqs.
      split; [reflexivity|now constructor].
  Qed.

Lemma run_peak_spec (rss : vec) (run : list nat) :
    run <> [] ->
    Forall (fun i => i < length rss) run ->
    exists p, run_peak rss run = Ok p /\ is_peak rss run p.
  Proof.
    intros ne inside. unfold run_peak.
    rewrite (@take_ok _ rss run nan inside). cbn [bind].
    set (f := fun j => nth j rss nan).
    destruct (@argmax_spec (map f run)) as (k & eq & lt & best).
    { destruct run; [congruence|discriminate]. }
    rewrite eq. cbn [bind]. rewrite length_map in lt.
    rewrite (@index_ok _ run k 0 lt).
    assert (nth k (map f run) nan = f (nth k run 0)) as val.
    { rewrite (nth_indep _ nan (f 0)) by (now rewrite length_map).
      apply map_nth. }
    rewrite val in best.
    exists (nth k run 0). split; trivial. split; [now apply nth_In|].
    intros i ini. destruct best as [isn | all]; [now right|left].
    rewrite Forall_forall in all. apply all.
    change (nth i rss nan) with (f i). now apply in_map.
  Qed.

Lemma index_offsets_from (idx : list nat) :
    index_offsets idx = offsets_from 0 idx.
  Proof. reflexivity. Qed.

  (** C2. For candidate indices in increasing order, all of them time
      points of the observed RSS: the groups of equal offset [idx[k] - k],
      taken in the order of [np.unique], are the runs the explicit scan
      finds; these cut [idx] into its maximal runs of consecutive indices;
      both formulations report the same peaks; and the peak of a run is
      the member [np.argmax] selects by observed RSS. *)
Theorem segmentation_by_offsets_is_scan (rss : vec) (idx : list nat) :
    increasing idx ->
    Forall (fun i => i < length rss) idx ->
    map (event_members idx (index_offsets idx)) (unique (index_offsets idx)) =
      runs_by_scan idx /\
    maximal_runs idx (runs_by_scan idx) /\
    segment_peaks rss idx = scan_peaks rss idx /\
    exists peaks,
      segment_peaks rss idx = Ok peaks /\
      Forall2 (is_peak rss) (runs_by_scan idx) peaks.
  Proof.
    intros inc inside.
    pose proof (@groups_are_runs idx 0 0 inc) as groups.
    rewrite <- index_offsets_from in groups.
    assert (segment_peaks rss idx = scan_peaks rss idx) as same.
    { unfold scan_peaks. rewrite <- groups, mapM_map. reflexivity. }
    split; [exact groups|]. split; [apply runs_by_scan_maximal|].
    split; [exact same|]. rewrite same. unfold scan_peaks.
    apply mapM_Forall2.
    eapply Forall_impl; [|exact (runs_members_inside inside)].
    cbn beta. intros run [ne ins]. now apply run_peak_spec.
  Qed.

Lemma argwhere_from_increasing (mask : list bool) :
    forall i, increasing_from i (argwhere_from i mask) /\
              Forall (fun k => k < i + length mask) (argwhere_from i mask).
  Proof.
    assert (forall lo l, increasing_from (S lo) l -> increasing_from lo l) as weaken.
    { intros lo [|k l]; cbn; [trivial|]. intros [le inc]. split; [lia|trivial]. }
    induction mask as [|b mask IH]; intros i; [cbn; auto|].
    destruct (IH (S i)) as [inc inside].
    assert (Forall (fun k => k < i + length (b :: mask)) (argwhere_from (S i) mask))
      as inside'.
    { eapply Forall_impl; [|exact inside]. cbn [length]. intros; lia. }
    cbn [argwhere_from]. destruct b.
    - split; [cbn; auto|]. constructor; [cbn [length]; lia|trivial].
    - split; [auto|trivial].
  Qed.

  (** The candidate set of the pipeline meets the two conditions. *)
Lemma candidates_increasing (rss : vec) (rssr : matrix) :
    increasing (candidates (pvalues rss rssr)) /\
    Forall (fun i => i < length rss) (candidates (pvalues rss rssr)).
  Proof.
    unfold increasing, candidates, argwhere.
    destruct (argwhere_from_increasing
                (map (fun p_i => mean_ltb p_i pcrit) (pvalues rss rssr)) 0)
      as [inc inside].
    split; trivial. unfold pvalues in inside. now rewrite !length_map in inside.
  Qed.

End Peaks.

(** ** The histogram threshold *)

Section HistogramThreshold.

Import Order.

Lemma pooled_threshold_unfold
      (hist : list (vec * vec)) (nbins : nat) (percentile : float64)
      (counts edges : vec) (rest : list (vec * vec)) (ets_hist : matrix) :
    hist = (counts, edges) :: rest ->
    mapM (fun h => broadcast_to nbins (fst h)) hist = Ok ets_hist ->
    pooled_threshold hist nbins percentile =
    index edges
          (count_upto percentile
                      (cumsum_percentile (pooled_histogram ets_hist nbins))).
  Proof.
    intros -> gathered. unfold pooled_threshold. rewrite gathered. reflexivity.
  Qed.

  (** Once an entry of a non-decreasing array exceeds the percentile, no
      later entry is counted. *)
Lemma count_upto_exceeded (percentile x : float64) (r : vec) :
    nondecreasing (x :: r) = true ->
    (percentile <? x)%f64 = true ->
    count_upto percentile (x :: r) = 0.
  Proof.
    unfold count_upto. revert x.
    induction r as [|y r IH]; intros x sorted lt;
      cbn [filter]; rewrite (ltb_not_leb _ _ lt); [reflexivity|].
    cbn [nondecreasing] in sorted. apply andb_prop in sorted.
    destruct sorted as [xy sorted].
    apply (IH y sorted).
    destruct (leb_is_number _ _ xy) as [_ ny].
    pose proof lt as lt'. apply ltb_iff in lt'. destruct lt' as (np & _ & _).
    apply not_leb_ltb; trivial.
    destruct (y <=? percentile)%f64 eqn:yp; trivial.
    pose proof (leb_trans _ _ _ xy yp) as xp.
    rewrite (ltb_not_leb _ _ lt) in xp. discriminate.
  Qed.

Lemma count_upto_first_exceeding (percentile : float64) (cum : vec) :
    forall k,
      nondecreasing cum = true ->
      first_index (fun c => (percentile <? c)%f64) cum = Some k ->
      count_upto percentile cum = k.
  Proof.
    induction cum as [|x r IH]; intros k sorted first; [discriminate|].
    cbn [first_index] in first.
    destruct (percentile <? x)%f64 eqn:lt.
    - injection first as <-. now apply count_upto_exceeded.
    - destruct (first_index _ r) as [k'|] eqn:first'; [|discriminate].
      injection first as <-.
      destruct r as [|y r]; [discriminate|].
      pose proof sorted as sorted'.
      cbn [nondecreasing] in sorted'. apply andb_prop in sorted'.
      destruct sorted' as [xy sorted'].
      destruct (leb_is_number _ _ xy) as [nx _].
      assert (is_nan percentile = false) as np.
      { clear - first'. revert k' first'.
        induction (y :: r) as [|z l IHl]; intros k' first'; [discriminate|].
        cbn [first_index] in first'.
        destruct (percentile <? z)%f64 eqn:lt.
        - apply ltb_iff in lt. tauto.
        - destruct (first_index _ l) eqn:e; [|discriminate]. eauto. }
      assert ((x <=? percentile)%f64 = true) as le.
      { destruct (x <=? percentile)%f64 eqn:le; trivial.
        rewrite (not_leb_ltb _ _ nx np le) in lt. discriminate. }
      unfold count_upto in *. cbn [filter]. rewrite le. cbn [length].
      f_equal. now apply IH.
  Qed.

Lemma length_map2 {A B C} (f : A -> B -> C) (l : list A) (l' : list B) :
    length l = length l' -> length (map2 f l l') = length l.
  Proof.
    revert l'. induction l as [|a l IH]; intros [|b l'] len;
      cbn in *; try congruence. f_equal. apply IH. congruence.
  Qed.

Lemma length_fold_rows (rows : matrix) (n : nat) :
    Forall (fun row => length row = n) rows ->
    forall r, length r = n -> length (fold_left (map2 add) rows r) = n.
  Proof.
    induction 1 as [|r' rows len' _ IH]; intros r len; [exact len|].
    cbn [fold_left]. apply IH. rewrite length_map2; congruence.
  Qed.

Lemma length_sum_axis0 (rows : matrix) (n : nat) :
    rows <> [] ->
    Forall (fun row => length row = n) rows ->
    length (sum_axis0 rows) = n.
  Proof.
    destruct rows as [|r rows]; [congruence|]. intros _ rect.
    apply Forall_cons_iff in rect. destruct rect as [len rect].
    cbn [sum_axis0]. now apply length_fold_rows.
  Qed.

Lemma length_cumsum (l : vec) : length (cumsum l) = length l.
  Proof.
    destruct l as [|x r]; [reflexivity|]. cbn [cumsum length]. f_equal.
    generalize x. induction r as [|y r IH]; intros acc; [reflexivity|].
    cbn [cumsum_from length]. now rewrite IH.
  Qed.

Lemma gather_counts (hist : list (vec * vec)) (nbins : nat) :
    Forall (fun h => length (fst h) = nbins) hist ->
    mapM (fun h => broadcast_to nbins (fst h)) hist = Ok (map fst hist).
  Proof.
    induction 1 as [|[counts edges] hist len _ IH]; [reflexivity|].
    cbn [fst] in len. cbn [mapM map fst]. unfold broadcast_to at 1.
    rewrite len, Nat.eqb_refl. cbn [bind]. now rewrite IH.
  Qed.

Lemma count_upto_all (percentile : float64) (cum : vec) :
    Forall (fun c => (c <=? percentile)%f64 = true) cum ->
    count_upto percentile cum = length cum.
  Proof.
    unfold count_upto. induction 1 as [|c cum le _ IH]; [reflexivity|].
    cbn [filter]. rewrite le. cbn [length]. now rewrite IH.
  Qed.

Lemma index_last {A} (l : list A) (n : nat) (d : A) :
    length l = S n -> index l n = Ok (last l d).
  Proof.
    intros len. rewrite (@index_ok _ l n d) by lia. f_equal.
    replace n with (length l - 1) by lia.
    clear. induction l as [|a [|b l] IH]; trivial.
    cbn [length last nth] in *. rewrite <- IH. cbn. now rewrite Nat.sub_0_r.
  Qed.

Lemma surrogates_to_array_unfold
      (w : world) (hist_range : float64 * float64) (trials nbins : nat)
      (percentile : float64) (hist : list (vec * vec)) :
    mapM (fun irand => calculate_hist w irand hist_range nbins) (seq 0 trials)
      = Ok hist ->
    surrogates_to_array w hist_range trials nbins percentile =
    pooled_threshold hist nbins percentile.
  Proof. intros gathered. unfold surrogates_to_array. now rewrite gathered. Qed.

  (** C9, as the code has it.  When every cumulative percentage of the
      pooled histogram is at most the percentile, the threshold is the last
      bin edge, the upper end of the histogram range; no error is raised. *)
Theorem percentile_above_mass_gives_last_edge
      (w : world) (hist_range : float64 * float64) (trials nbins : nat)
      (percentile : float64) (counts edges : vec) (rest : list (vec * vec)) :
    mapM (fun irand => calculate_hist w irand hist_range nbins) (seq 0 trials)
      = Ok ((counts, edges) :: rest) ->
    Forall (fun h => length (fst h) = nbins) ((counts, edges) :: rest) ->
    length edges = S nbins ->
    Forall (fun c => (c <=? percentile)%f64 = true)
           (cumsum_percentile
              (pooled_histogram (map fst ((counts, edges) :: rest)) nbins)) ->
    surrogates_to_array w hist_range trials nbins percentile
      = Ok (last edges nan).
  Proof.
    intros gathered widths nedges below.
    rewrite (@surrogates_to_array_unfold _ _ _ _ percentile _ gathered).
    rewrite (@pooled_threshold_unfold _ _ percentile _ _ _ _ eq_refl (gather_counts widths)).
    rewrite (@count_upto_all percentile _ below).
    unfold cumsum_percentile. rewrite length_map, length_cumsum.
    unfold pooled_histogram. cbn [map]. rewrite (@length_sum_axis0 _ nbins).
    - now apply index_last.
    - discriminate.
    - change (Forall (fun row => length row = nbins)
                     (map fst ((counts, edges) :: rest))).
      rewrite Forall_map. exact widths.
  Qed.

End HistogramThreshold.

(** ** Binary64 numbers and their values *)

(** ** Rounding *)

Section Rounding.

Import Order.

Lemma pow2_pos (e : Z) : (0 < pow2 e)%Q.
  Proof. apply Qpower_0_lt. reflexivity. Qed.

Lemma pow2_add (a b : Z) : (pow2 (a + b) == pow2 a * pow2 b)%Q.
  Proof. apply Qpower_plus. discriminate. Qed.

Lemma pow2_succ (e : Z) : (pow2 (e + 1) == 2 * pow2 e)%Q.
  Proof. rewrite pow2_add. change (pow2 1) with 2%Q. ring. Qed.

Lemma pow2_le (a b : Z) : (a <= b)%Z -> (pow2 a <= pow2 b)%Q.
  Proof. intros h. apply Qpower_le_compat_l; [exact h|discriminate]. Qed.

Lemma pow2_lt (a b : Z) : (a < b)%Z -> (pow2 a < pow2 b)%Q.
  Proof. intros h. apply Qpower_lt_compat_l; [exact h|reflexivity]. Qed.

Lemma pow2_lt_inv (a b : Z) : (pow2 a < pow2 b)%Q -> (a < b)%Z.
  Proof. intros h. eapply Qpower_lt_compat_l_inv; [exact h|reflexivity]. Qed.

Lemma pow2_le_inv (a b : Z) : (pow2 a <= pow2 b)%Q -> (a <= b)%Z.
  Proof. intros h. eapply Qpower_le_compat_l_inv; [exact h|reflexivity]. Qed.

Lemma pow2_Z (e : Z) : (0 <= e)%Z -> (pow2 e == inject_Z (2 ^ e))%Q.
  Proof.
    intros h. unfold pow2. symmetry.
    rewrite <- (Z2Nat.id e h). generalize (Z.to_nat e). clear.
    induction n as [|n IH].
    - reflexivity.
    - rewrite Nat2Z.inj_succ, Z.pow_succ_r by lia.
      rewrite inject_Z_mult, IH. unfold Z.succ.
      rewrite Qpower_plus by discriminate. change ((2 ^ 1)%Q) with 2%Q.
      change (inject_Z 2) with 2%Q. ring.
  Qed.


Lemma digits2_size (p : positive) : digits2_pos p = Pos.size p.
  Proof. induction p as [p IH|p IH|]; cbn; congruence. Qed.

Lemma digits_bounds (p : positive) :
    (2 ^ (Z.pos (digits2_pos p) - 1) <= Z.pos p < 2 ^ Z.pos (digits2_pos p))%Z.
  Proof.
    rewrite digits2_size.
    pose proof (Pos.size_gt p) as gt. pose proof (Pos.size_le p) as le.
    apply Pos2Z.pos_lt_pos in gt. apply Pos2Z.pos_le_pos in le.
    rewrite Pos2Z.inj_pow in gt, le.
    replace (Z.pos (Pos.size p)) with (Z.succ (Z.pos (Pos.size p) - 1)) in le at 1
      by lia.
    rewrite Z.pow_succ_r in le by lia.
    change (Z.pos p~0) with (2 * Z.pos p)%Z in le. lia.
  Qed.

Lemma digits_Q (p : positive) :
    (pow2 (Z.pos (digits2_pos p) - 1) <= inject_Z (Z.pos p))%Q /\
    (inject_Z (Z.pos p) + 1 <= pow2 (Z.pos (digits2_pos p)))%Q.
  Proof.
    destruct (digits_bounds p) as [lo hi].
    rewrite !pow2_Z by lia. split.
    - rewrite Zle_Qle in lo. exact lo.
    - change 1%Q with (inject_Z 1). rewrite <- inject_Z_plus.
      rewrite <- Zle_Qle. lia.
  Qed.

Lemma F2Q_lt_inv (a b e : Z) : (F2Q a e < F2Q b e)%Q -> (a < b)%Z.
  Proof.
    unfold F2Q. intros h. destruct (Z.lt_ge_cases a b) as [|ge]; trivial.
    rewrite Zle_Qle in ge. pose proof (pow2_pos e). nra.
  Qed.

Lemma F2Q_le_inv (a b e : Z) : (F2Q a e <= F2Q b e)%Q -> (a <= b)%Z.
  Proof.
    unfold F2Q. intros h. destruct (Z.le_gt_cases a b) as [|gt]; trivial.
    rewrite Zlt_Qlt in gt. pose proof (pow2_pos e). nra.
  Qed.

Lemma F2Q_le (a b e : Z) : (a <= b)%Z -> (F2Q a e <= F2Q b e)%Q.
  Proof.
    unfold F2Q. intros h. rewrite Zle_Qle in h. pose proof (pow2_pos e). nra.
  Qed.

Lemma F2Q_succ (m e : Z) : (F2Q (m + 1) e == F2Q m e + pow2 e)%Q.
  Proof. unfold F2Q. rewrite inject_Z_plus. change (inject_Z 1) with 1%Q. ring. Qed.

Lemma F2Q_double (m e : Z) : (F2Q (2 * m) e == F2Q m (e + 1))%Q.
  Proof.
    unfold F2Q. rewrite inject_Z_mult, pow2_succ.
    change (inject_Z 2) with 2%Q. ring.
  Qed.

  (** Every place of an interval bounds [x] by the ends of the interval. *)
Lemma inbetween_bounds (m e : Z) (l : location) (x : Q) :
    inbetween m e l x -> (F2Q m e <= x /\ x < F2Q m e + pow2 e)%Q.
  Proof.
    pose proof (pow2_pos e). intros h.
    destruct l as [|[| |]]; cbn [inbetween] in h; lra.
  Qed.

  (** One step of the shift to the right keeps the place of [x]. *)
Lemma shr_1_inbetween (mrs : shr_record) (e : Z) (x : Q) :
    (0 <= shr_m mrs)%Z ->
    inbetween (shr_m mrs) e (loc_of_shr_record mrs) x ->
    (0 <= shr_m (shr_1 mrs))%Z /\
    inbetween (shr_m (shr_1 mrs)) (e + 1) (loc_of_shr_record (shr_1 mrs)) x.
  Proof.
    destruct mrs as [m r s]. cbn [shr_m]. intros pos h.
    pose proof (pow2_pos e) as pp. pose proof (pow2_succ e) as ps.
    assert (forall k, (F2Q (2 * k) e == F2Q k (e + 1))%Q) as dbl
        by (intros; apply F2Q_double).
    assert (forall k, (F2Q (2 * k + 1) e == F2Q k (e + 1) + pow2 e)%Q) as odd
        by (intros; rewrite F2Q_succ, F2Q_double; reflexivity).
    destruct m as [|[p|p|]|p]; [| | | |lia].
    - split; [cbn; lia|].
      assert (F2Q 0 e == 0)%Q as z0 by (unfold F2Q; ring).
      assert (F2Q 0 (e + 1) == 0)%Q as z1 by (unfold F2Q; ring).
      destruct r, s; cbn in h |- *; lra.
    - split; [cbn; lia|].
      pose proof (odd (Z.pos p)) as o.
      change (2 * Z.pos p + 1)%Z with (Z.pos p~1) in o.
      destruct r, s; cbn in h |- *; lra.
    - split; [cbn; lia|].
      pose proof (dbl (Z.pos p)) as d.
      change (2 * Z.pos p)%Z with (Z.pos p~0) in d.
      destruct r, s; cbn in h |- *; lra.
    - split; [cbn; lia|].
      assert (F2Q 1 e == pow2 e)%Q as z0 by (unfold F2Q; ring).
      assert (F2Q 0 (e + 1) == 0)%Q as z1 by (unfold F2Q; ring).
      destruct r, s; cbn in h |- *; lra.
  Qed.

Lemma iter_shr_1_inbetween (n : positive) (x : Q) :
    forall mrs e,
      (0 <= shr_m mrs)%Z ->
      inbetween (shr_m mrs) e (loc_of_shr_record mrs) x ->
      (0 <= shr_m (iter_pos shr_1 n mrs))%Z /\
      inbetween (shr_m (iter_pos shr_1 n mrs)) (e + Z.pos n)
                (loc_of_shr_record (iter_pos shr_1 n mrs)) x.
  Proof.
    induction n as [n IH|n IH|]; intros mrs e pos h; cbn [iter_pos].
    - destruct (@shr_1_inbetween mrs e x pos h) as [p1 h1].
      destruct (IH _ _ p1 h1) as [p2 h2].
      destruct (IH _ _ p2 h2) as [p3 h3].
      split; [exact p3|].
      replace (e + Z.pos n~1)%Z with (e + 1 + Z.pos n + Z.pos n)%Z by lia.
      exact h3.
    - destruct (IH _ _ pos h) as [p2 h2].
      destruct (IH _ _ p2 h2) as [p3 h3].
      split; [exact p3|].
      replace (e + Z.pos n~0)%Z with (e + Z.pos n + Z.pos n)%Z by lia.
      exact h3.
    - now apply shr_1_inbetween.
  Qed.

Lemma loc_of_record (m : Z) (l : location) :
    loc_of_shr_record (shr_record_of_loc m l) = l /\
    shr_m (shr_record_of_loc m l) = m.
  Proof. destruct l as [|[| |]]; split; reflexivity. Qed.

  (** The shift to the exponent of the format keeps the place of [x]. *)
Lemma shr_fexp_inbetween (m e : Z) (l : location) (x : Q) :
    (0 <= m)%Z -> inbetween m e l x ->
    (0 <= shr_m (fst (shr_fexp prec emax m e l)))%Z /\
    inbetween (shr_m (fst (shr_fexp prec emax m e l)))
              (snd (shr_fexp prec emax m e l))
              (loc_of_shr_record (fst (shr_fexp prec emax m e l))) x /\
    snd (shr_fexp prec emax m e l)
      = Z.max e (fexp prec emax (Zdigits2 m + e)).
  Proof.
    intros pos h. unfold shr_fexp, shr.
    destruct (loc_of_record m l) as [el em].
    destruct (fexp prec emax (Zdigits2 m + e) - e)%Z as [|n|n] eqn:en;
      cbn [fst snd].
    - rewrite el, em. split; [exact pos|]. split; [exact h|lia].
    - destruct (@iter_shr_1_inbetween n x (shr_record_of_loc m l) e) as [p1 h1].
      + now rewrite em.
      + now rewrite el, em.
      + split; [exact p1|]. split; [exact h1|lia].
    - rewrite el, em. split; [exact pos|]. split; [exact h|lia].
  Qed.


Lemma bra_pack (s : bool) (m e : Z) (l : location) :
    binary_round_aux prec emax s m e l
    = pack s (round_nearest_even (shr_m (fst (shr_fexp prec emax m e l)))
                                 (loc_of_shr_record (fst (shr_fexp prec emax m e l))))
           (snd (shr_fexp prec emax m e l)).
  Proof.
    unfold binary_round_aux, pack.
    destruct (shr_fexp prec emax m e l) as [mrs' e']. cbn [fst snd].
    destruct (shr_fexp prec emax _ e' loc_Exact) as [mrs'' e''].
    reflexivity.
  Qed.

Lemma digits_small (p : positive) :
    (Z.pos p < 2 ^ prec)%Z -> (Z.pos (digits2_pos p) <= prec)%Z.
  Proof.
    intros lt. destruct (digits_bounds p) as [lo _].
    destruct (Z.le_gt_cases (Z.pos (digits2_pos p)) prec) as [|gt]; trivial.
    assert (2 ^ prec <= 2 ^ (Z.pos (digits2_pos p) - 1))%Z
      by (apply Z.pow_le_mono_r; lia).
    lia.
  Qed.

Lemma pack_small (s : bool) (p : positive) (e : Z) :
    (Z.pos p < 2 ^ prec)%Z -> (emin prec emax <= e)%Z ->
    pack s (Z.pos p) e
    = if (e <=? emax - prec)%Z then S754_finite s p e else S754_infinity s.
  Proof.
    intros lt le. pose proof (digits_small lt) as d.
    unfold pack, shr_fexp, shr. cbn [Zdigits2 shr_record_of_loc].
    assert (fexp prec emax (Z.pos (digits2_pos p) + e) - e <= 0)%Z as n
        by (unfold fexp, emin, prec, emax in *; lia).
    destruct (fexp prec emax (Z.pos (digits2_pos p) + e) - e)%Z; [| lia |];
      reflexivity.
  Qed.

Lemma pack_carry (s : bool) (e : Z) :
    (emin prec emax <= e)%Z ->
    pack s (2 ^ prec) e
    = if (e + 1 <=? emax - prec)%Z
      then S754_finite s (Z.to_pos (2 ^ (prec - 1))) (e + 1)
      else S754_infinity s.
  Proof.
    intros le. unfold pack, shr_fexp, shr.
    change (Zdigits2 (2 ^ prec)) with 54%Z.
    replace (fexp prec emax (54 + e) - e)%Z with 1%Z
      by (unfold fexp, emin, prec, emax in *; lia).
    reflexivity.
  Qed.

Lemma pack_zero (s : bool) (e : Z) : pack s 0 e = S754_zero s.
  Proof.
    assert (inbetween 0 e loc_Exact 0) as h by (cbn; unfold F2Q; ring).
    destruct (@shr_fexp_inbetween 0 e loc_Exact 0%Q (Z.le_refl 0) h)
      as (pos & inb & _).
    unfold pack. destruct (shr_fexp prec emax 0 e loc_Exact) as [mrs e'].
    cbn [fst snd] in pos, inb. apply inbetween_bounds in inb.
    destruct inb as [lo _].
    assert (shr_m mrs <= 0)%Z as le.
    { apply (@F2Q_le_inv _ _ e'). unfold F2Q at 2.
      assert (inject_Z 0 * pow2 e' == 0)%Q as z by ring. rewrite z. exact lo. }
    replace (shr_m mrs) with 0%Z by lia. reflexivity.
  Qed.

  (** The exponent of the format for a number with mantissa [m >= 0] at
      exponent [e]. *)
Lemma cexp_of_digits (m e : Z) (l : location) (x : Q) :
    (0 <= m)%Z -> inbetween m e l x ->
    (e <= fexp prec emax (Zdigits2 m + e))%Z ->
    cexp_of x (fexp prec emax (Zdigits2 m + e)).
  Proof.
    intros pos inb valid. apply inbetween_bounds in inb. destruct inb as [lo hi].
    unfold cexp_of. split; [unfold fexp; lia|].
    destruct m as [|p|p]; [| |lia].
    - cbn [Zdigits2] in *. rewrite Z.add_0_l in *.
      assert (F2Q 0 e == 0)%Q as z by (unfold F2Q; ring).
      assert (e <= emin prec emax)%Z as small
          by (unfold fexp, emin, prec, emax in *; lia).
      split.
      + apply Qlt_le_trans with (pow2 e); [lra|].
        apply pow2_le. unfold fexp, emin, prec, emax in *. lia.
      + left. unfold fexp, emin, prec, emax in *. lia.
    - cbn [Zdigits2] in *. destruct (digits_Q p) as [dlo dhi].
      set (d := Z.pos (digits2_pos p)) in *.
      pose proof (pow2_pos e) as pp.
      assert (pow2 (d - 1 + e) <= x)%Q as xlo.
      { rewrite pow2_add. unfold F2Q in lo. nra. }
      assert (x < pow2 (d + e))%Q as xhi.
      { rewrite pow2_add. unfold F2Q in hi. nra. }
      split.
      + apply Qlt_le_trans with (pow2 (d + e)); [exact xhi|].
        apply pow2_le. unfold fexp. lia.
      + destruct (Z.max_spec (d + e - prec) (emin prec emax)) as [[_ eq]|[_ eq]].
        * left. unfold fexp. exact eq.
        * right. unfold fexp. rewrite eq.
          replace (d + e - prec + prec - 1)%Z with (d - 1 + e)%Z by lia.
          exact xlo.
  Qed.

  (** The rounding step of the operations computes [rounds]. *)
Lemma bra_rounds (m e : Z) (l : location) (x : Q) :
    (0 <= m)%Z -> inbetween m e l x ->
    (e <= fexp prec emax (Zdigits2 m + e))%Z ->
    rounds x (binary_round_aux prec emax false m e l).
  Proof.
    intros pos inb valid. rewrite bra_pack.
    destruct (@shr_fexp_inbetween m e l x pos inb) as (pos' & inb' & ee).
    rewrite ee in *. rewrite Z.max_r in * by exact valid.
    exists (fexp prec emax (Zdigits2 m + e)), (shr_m (fst (shr_fexp prec emax m e l))),
      (loc_of_shr_record (fst (shr_fexp prec emax m e l))).
    split; [now apply (@cexp_of_digits m e l x)|].
    split; [exact pos'|]. split; [exact inb'|reflexivity].
  Qed.


Lemma cexp_of_ext (x y : Q) (e : Z) : (x == y)%Q -> cexp_of x e -> cexp_of y e.
  Proof.
    intros eq (h1 & h2 & h3). split; [exact h1|]. split; [lra|].
    destruct h3 as [h3|h3]; [now left|right; lra].
  Qed.

Lemma inbetween_ext (m e : Z) (l : location) (x y : Q) :
    (x == y)%Q -> inbetween m e l x -> inbetween m e l y.
  Proof. intros eq h. destruct l as [|[| |]]; cbn [inbetween] in *; lra. Qed.

Lemma rounds_ext (x y : Q) (r : float64) : (x == y)%Q -> rounds x r -> rounds y r.
  Proof.
    intros eq (e & m & l & c & pos & inb & ->). exists e, m, l.
    split; [now apply (@cexp_of_ext x y)|]. split; [exact pos|].
    split; [now apply (@inbetween_ext m e l x y)|reflexivity].
  Qed.

Lemma cexp_of_le (x y : Q) (e e' : Z) :
    (x <= y)%Q -> cexp_of x e -> cexp_of y e' -> (e <= e')%Z.
  Proof.
    intros le (h1 & h2 & h3) (k1 & k2 & k3).
    destruct (Z.le_gt_cases e e') as [|gt]; trivial.
    destruct h3 as [h3|h3]; [lia|].
    assert (pow2 (e + prec - 1) < pow2 (e' + prec))%Q as lt by lra.
    apply pow2_lt_inv in lt. lia.
  Qed.

Lemma inbetween_unique (m m' e : Z) (l l' : location) (x : Q) :
    inbetween m e l x -> inbetween m' e l' x -> m = m' /\ l = l'.
  Proof.
    intros h h'.
    pose proof (inbetween_bounds _ _ _ _ h) as [lo hi].
    pose proof (inbetween_bounds _ _ _ _ h') as [lo' hi'].
    pose proof (pow2_pos e) as pp.
    assert (m = m') as ->.
    { assert (F2Q m e < F2Q (m' + 1) e)%Q as a by (rewrite F2Q_succ; lra).
      assert (F2Q m' e < F2Q (m + 1) e)%Q as b by (rewrite F2Q_succ; lra).
      apply F2Q_lt_inv in a, b. lia. }
    split; [reflexivity|].
    destruct l as [|[| |]], l' as [|[| |]]; cbn [inbetween] in h, h';
      try reflexivity; exfalso; lra.
  Qed.

Lemma rne_bounds (m : Z) (l : location) :
    (m <= round_nearest_even m l <= m + 1)%Z.
  Proof.
    destruct l as [|[| |]]; cbn [round_nearest_even]; try lia.
    destruct (Z.even m); lia.
  Qed.

  (** Rounding to the nearest integer does not decrease with the place. *)
Lemma rne_mono (m1 m2 e : Z) (l1 l2 : location) (x y : Q) :
    (x <= y)%Q -> inbetween m1 e l1 x -> inbetween m2 e l2 y ->
    (round_nearest_even m1 l1 <= round_nearest_even m2 l2)%Z.
  Proof.
    intros le h1 h2.
    pose proof (inbetween_bounds _ _ _ _ h1) as [lo1 hi1].
    pose proof (inbetween_bounds _ _ _ _ h2) as [lo2 hi2].
    pose proof (pow2_pos e) as pp.
    assert (m1 <= m2)%Z as lm.
    { assert (F2Q m1 e < F2Q (m2 + 1) e)%Q as a by (rewrite F2Q_succ; lra).
      apply F2Q_lt_inv in a. lia. }
    destruct (Z.eq_dec m1 m2) as [->|ne].
    - destruct l1 as [|[| |]], l2 as [|[| |]];
        cbn [inbetween round_nearest_even] in *;
        try destruct (Z.even m2); try lia; exfalso; lra.
    - pose proof (rne_bounds m1 l1). pose proof (rne_bounds m2 l2). lia.
  Qed.

Lemma F2Q_pow2 (k e : Z) : (0 <= k)%Z -> (F2Q (2 ^ k) e == pow2 (e + k))%Q.
  Proof.
    intros h. unfold F2Q. rewrite <- pow2_Z by exact h.
    rewrite pow2_add. ring.
  Qed.

  (** The integer part of [x] at the exponent of the format has at most
      [prec] digits, and exactly [prec] above the smallest exponent. *)
Lemma floor_bounds (m e : Z) (l : location) (x : Q) :
    cexp_of x e -> inbetween m e l x ->
    (m < 2 ^ prec)%Z /\ (e <> emin prec emax -> 2 ^ (prec - 1) <= m)%Z.
  Proof.
    intros (h1 & h2 & h3) inb. apply inbetween_bounds in inb.
    destruct inb as [lo hi]. split.
    - apply (@F2Q_lt_inv _ _ e). rewrite F2Q_pow2 by (unfold prec; lia). lra.
    - intros ne. destruct h3 as [h3|h3]; [contradiction|].
      assert (F2Q (2 ^ (prec - 1)) e < F2Q (m + 1) e)%Q as a.
      { rewrite F2Q_pow2 by (unfold prec; lia). rewrite F2Q_succ.
        replace (e + (prec - 1))%Z with (e + prec - 1)%Z by lia. lra. }
      apply F2Q_lt_inv in a. lia.
  Qed.

Lemma finite_leb (p q : positive) (e e' : Z) :
    (e < e')%Z \/ (e = e' /\ (p <= q)%positive) ->
    SFleb (S754_finite false p e) (S754_finite false q e') = true.
  Proof.
    unfold SFleb, SFcompare. intros [lt|[-> le]].
    - now rewrite (proj2 (Z.compare_lt_iff _ _) lt).
    - rewrite Z.compare_refl. fold (Pos.compare p q).
      destruct (Pos.compare_spec p q); trivial. lia.
  Qed.

  (** Packing keeps the order of exponent and mantissa. *)
Lemma pack_le (a b e1 e2 : Z) :
    (0 <= a <= 2 ^ prec)%Z -> (0 <= b <= 2 ^ prec)%Z ->
    (emin prec emax <= e1)%Z ->
    (e1 = e2 /\ a <= b)%Z \/ (e1 < e2 /\ 2 ^ (prec - 1) <= b)%Z ->
    SFleb (pack false a e1) (pack false b e2) = true.
  Proof.
    intros ha hb le1 ord.
    assert (emin prec emax <= e2)%Z as le2 by lia.
    assert (forall m e, (0 <= m <= 2 ^ prec)%Z -> (emin prec emax <= e)%Z ->
              pack false m e = S754_zero false \/
              pack false m e = S754_infinity false \/
              exists p e', pack false m e = S754_finite false p e' /\
                ((e' = e /\ Z.pos p = m /\ m < 2 ^ prec) \/
                 (e' = e + 1 /\ Z.pos p = 2 ^ (prec - 1) /\ m = 2 ^ prec))%Z)
      as shape.
    { intros m e hm he. destruct m as [|p|p]; [| |lia].
      - left. apply pack_zero.
      - destruct (Z.eq_dec (Z.pos p) (2 ^ prec)) as [eq|ne].
        + rewrite eq, pack_carry by exact he.
          destruct (e + 1 <=? emax - prec)%Z; [|auto].
          right. right. eexists _, _. split; [reflexivity|]. right.
          split; [reflexivity|]. split; reflexivity.
        + rewrite pack_small by lia.
          destruct (e <=? emax - prec)%Z eqn:b0; [|auto].
          right. right. exists p, e. split; [reflexivity|]. left. lia. }
    assert (forall m e, (0 <= m <= 2 ^ prec)%Z -> (emin prec emax <= e)%Z ->
              pack false m e = S754_infinity false ->
              (m <> 0 /\ (emax - prec < e \/
                          (m = 2 ^ prec /\ emax - prec < e + 1)))%Z) as inf.
    { intros m e hm he. destruct m as [|p|p]; [| |lia].
      - rewrite pack_zero. discriminate.
      - destruct (Z.eq_dec (Z.pos p) (2 ^ prec)) as [eq|ne].
        + rewrite eq, pack_carry by exact he.
          destruct (Z.leb_spec (e + 1) (emax - prec)); [discriminate|].
          intros _. rewrite <- eq. split; [lia|]. right. lia.
        + rewrite pack_small by lia.
          destruct (Z.leb_spec e (emax - prec)); [discriminate|].
          intros _. split; [lia|]. left. lia. }
    assert (forall m e, (0 <= m <= 2 ^ prec)%Z -> (emin prec emax <= e)%Z ->
              pack false m e = S754_zero false -> m = 0%Z) as zero.
    { intros m e hm he. destruct m as [|p|p]; [reflexivity| |lia].
      destruct (Z.eq_dec (Z.pos p) (2 ^ prec)) as [eq|ne].
      - rewrite eq, pack_carry by exact he.
        destruct (e + 1 <=? emax - prec)%Z; discriminate.
      - rewrite pack_small by lia.
        destruct (e <=? emax - prec)%Z; discriminate. }
    assert (forall m e p e', (0 <= m <= 2 ^ prec)%Z -> (emin prec emax <= e)%Z ->
              pack false m e = S754_finite false p e' ->
              (e' <= emax - prec)%Z) as fin.
    { intros m e p e' hm he. destruct m as [|q|q]; [| |lia].
      - rewrite pack_zero. discriminate.
      - destruct (Z.eq_dec (Z.pos q) (2 ^ prec)) as [eq|ne].
        + rewrite eq, pack_carry by exact he.
          destruct (Z.leb_spec (e + 1) (emax - prec)); [|discriminate].
          intros [= _ <-]. lia.
        + rewrite pack_small by lia.
          destruct (Z.leb_spec e (emax - prec)); [|discriminate].
          intros [= _ <-]. lia. }
    pose proof (eq_refl : (2 ^ prec)%Z = 9007199254740992%Z) as p53.
    pose proof (eq_refl : (2 ^ (prec - 1))%Z = 4503599627370496%Z) as p52.
    destruct (shape a e1 ha le1) as [za|[ia|(p & e' & ea & ca)]];
      destruct (shape b e2 hb le2) as [zb|[ib|(q & e'' & eb & cb)]];
      rewrite ?za, ?ia, ?ea, ?zb, ?ib, ?eb; try reflexivity.
    - exfalso. pose proof (zero b e2 hb le2 zb).
      destruct (inf a e1 ha le1 ia) as [na _]. lia.
    - exfalso. destruct (inf a e1 ha le1 ia) as [na over].
      pose proof (fin b e2 q e'' hb le2 eb) as fb. lia.
    - exfalso. pose proof (zero b e2 hb le2 zb). lia.
    - apply finite_leb. lia.
  Qed.


  (** Rounding does not decrease. *)
Lemma rounds_mono (x y : Q) (r r' : float64) :
    (x <= y)%Q -> rounds x r -> rounds y r' -> SFleb r r' = true.
  Proof.
    intros le (e1 & m1 & l1 & c1 & p1 & i1 & ->) (e2 & m2 & l2 & c2 & p2 & i2 & ->).
    pose proof (@cexp_of_le x y e1 e2 le c1 c2) as lee.
    destruct (@floor_bounds m1 e1 l1 x c1 i1) as [b1 _].
    destruct (@floor_bounds m2 e2 l2 y c2 i2) as [b2 n2].
    pose proof (rne_bounds m1 l1). pose proof (rne_bounds m2 l2).
    apply pack_le; [lia|lia|apply c1|].
    destruct (Z.eq_dec e1 e2) as [->|ne].
    - left. split; [reflexivity|]. now apply (@rne_mono m1 m2 e2 l1 l2 x y).
    - right. split; [lia|].
      assert (e2 <> emin prec emax) as ne2 by (destruct c1; lia).
      specialize (n2 ne2). lia.
  Qed.

  (** Rounding is a function of the rational. *)
Lemma rounds_unique (x y : Q) (r r' : float64) :
    (x == y)%Q -> rounds x r -> rounds y r' -> r = r'.
  Proof.
    intros eq h h'. apply (@rounds_ext x y r eq) in h.
    destruct h as (e1 & m1 & l1 & c1 & p1 & i1 & ->).
    destruct h' as (e2 & m2 & l2 & c2 & p2 & i2 & ->).
    assert (e1 = e2) as ->.
    { apply Z.le_antisymm;
        [apply (@cexp_of_le y y e1 e2)|apply (@cexp_of_le y y e2 e1)];
        trivial; lra. }
    destruct (@inbetween_unique m1 m2 e2 l1 l2 y i1 i2) as [-> ->]. reflexivity.
  Qed.

Lemma rounds_representable (x : Q) (r : float64) (m e : Z) :
    rounds x r -> cexp_of x e -> (0 <= m)%Z -> (x == F2Q m e)%Q ->
    r = pack false m e.
  Proof.
    intros (e1 & m1 & l1 & c1 & p1 & i1 & ->) c pos eq.
    assert (e1 = e) as ->.
    { apply Z.le_antisymm;
        [apply (@cexp_of_le x x e1 e)|apply (@cexp_of_le x x e e1)];
        trivial; lra. }
    assert (inbetween m e loc_Exact x) as i by exact eq.
    destruct (@inbetween_unique m1 m e l1 loc_Exact x i1 i) as [-> ->]. reflexivity.
  Qed.

Lemma digits_exact (p : positive) (k : Z) :
    (2 ^ (k - 1) <= Z.pos p < 2 ^ k)%Z -> (0 < k)%Z -> Z.pos (digits2_pos p) = k.
  Proof.
    intros [lo hi] pos. destruct (digits_bounds p) as [dlo dhi].
    set (d := Z.pos (digits2_pos p)) in *.
    destruct (Z.lt_trichotomy d k) as [lt|[eq|gt]]; trivial.
    - assert (2 ^ d <= 2 ^ (k - 1))%Z by (apply Z.pow_le_mono_r; lia). lia.
    - assert (2 ^ k <= 2 ^ (d - 1))%Z by (apply Z.pow_le_mono_r; lia). lia.
  Qed.

Lemma canonical_finite (p : positive) (e : Z) :
    canonical (S754_finite false p e) <->
    (Z.pos p < 2 ^ prec /\ emin prec emax <= e <= emax - prec /\
     (e = emin prec emax \/ 2 ^ (prec - 1) <= Z.pos p))%Z.
  Proof.
    cbn [canonical]. unfold bounded, canonical_mantissa.
    rewrite andb_true_iff, Z.eqb_eq, Z.leb_le.
    destruct (digits_bounds p) as [dlo dhi].
    set (d := Z.pos (digits2_pos p)) in *.
    pose proof (eq_refl : (2 ^ prec)%Z = 9007199254740992%Z) as p53.
    pose proof (eq_refl : (2 ^ (prec - 1))%Z = 4503599627370496%Z) as p52.
    split.
    - intros [cm be].
      assert (d <= prec)%Z as dp by (unfold fexp in cm; lia).
      assert (2 ^ d <= 2 ^ prec)%Z by (apply Z.pow_le_mono_r; lia).
      split; [lia|]. split; [unfold fexp in cm; lia|].
      destruct (Z.eq_dec e (emin prec emax)) as [|ne]; [now left|right].
      assert (d = prec) as eq by (unfold fexp in cm; lia).
      rewrite eq in dlo. lia.
    - intros (lt & [lo hi] & norm). split; [|exact hi].
      pose proof (digits_small lt) as dp. fold d in dp.
      destruct norm as [->|norm]; [unfold fexp; lia|].
      assert (d = prec) as -> by (apply digits_exact; unfold prec in *; lia).
      unfold fexp. lia.
  Qed.

  (** What rounding gives is a number in its one representation, or an
      infinity. *)
Lemma rounds_canonical (x : Q) (r : float64) :
    rounds x r -> canonical r \/ r = S754_infinity false.
  Proof.
    intros (e & m & l & c & pos & inb & ->).
    destruct (@floor_bounds m e l x c inb) as [b1 n1].
    pose proof (rne_bounds m l) as rb.
    pose proof (eq_refl : (2 ^ prec)%Z = 9007199254740992%Z) as p53.
    pose proof (eq_refl : (2 ^ (prec - 1))%Z = 4503599627370496%Z) as p52.
    destruct c as (c1 & _ & _).
    destruct (round_nearest_even m l) as [|p|p] eqn:er; [| |lia].
    - left. rewrite pack_zero. reflexivity.
    - destruct (Z.eq_dec (Z.pos p) (2 ^ prec)) as [eq|ne].
      + rewrite eq, pack_carry by exact c1.
        destruct (Z.leb_spec (e + 1) (emax - prec)); [left|now right].
        apply canonical_finite. unfold prec, emax, emin in *. lia.
      + rewrite pack_small by lia.
        destruct (Z.leb_spec e (emax - prec)); [left|now right].
        apply canonical_finite. split; [lia|]. split; [lia|].
        destruct (Z.eq_dec e (emin prec emax)) as [|ne']; [now left|right].
        specialize (n1 ne'). lia.
  Qed.

  (** A binary64 number is the rounding of its value. *)
Lemma rounds_val (f : float64) : canonical f -> rounds (val f) f.
  Proof.
    destruct f as [s|s| |[|] p e]; cbn [canonical val]; try contradiction.
    - intros ->. exists (emin prec emax), 0%Z, loc_Exact.
      split; [|split; [lia|split; [cbn; unfold F2Q; ring|]]].
      + split; [lia|]. split; [apply pow2_pos|now left].
      + cbn [round_nearest_even]. now rewrite pack_zero.
    - intros can. apply canonical_finite in can.
      destruct can as (lt & [lo hi] & norm).
      exists e, (Z.pos p), loc_Exact.
      split; [|split; [lia|split; [cbn; reflexivity|]]].
      + split; [exact lo|]. split.
        * rewrite <- F2Q_pow2 by (unfold prec; lia).
          pose proof (pow2_pos e). unfold F2Q. rewrite Zlt_Qlt in lt. nra.
        * destruct norm as [->|norm]; [now left|right].
          replace (e + prec - 1)%Z with (e + (prec - 1))%Z by lia.
          rewrite <- F2Q_pow2 by (unfold prec; lia). now apply F2Q_le.
      + cbn [round_nearest_even]. rewrite pack_small by lia.
        now rewrite (proj2 (Z.leb_le _ _) hi).
  Qed.

  (** The order of binary64 is the order of the values. *)
Lemma leb_val (f g : float64) :
    canonical f -> canonical g -> SFleb f g = true -> (val f <= val g)%Q.
  Proof.
    intros cf cg le.
    assert (forall p e, canonical (S754_finite false p e) ->
                        (0 < val (S754_finite false p e))%Q) as posv.
    { intros p e _. cbn [val]. unfold F2Q. pose proof (pow2_pos e).
      assert (0 < inject_Z (Z.pos p))%Q by (rewrite <- (Zlt_Qlt 0); lia). nra. }
    destruct f as [s|s| |[|] p e], g as [s'|s'| |[|] q e'];
      cbn [canonical] in cf, cg; try contradiction; try discriminate;
      try (cbn [val]; lra);
      try (pose proof (posv q e' cg); cbn [val] in *; lra).
    - pose proof (proj1 (canonical_finite p e) cf) as (ltp & [lop hip] & normp).
      pose proof (proj1 (canonical_finite q e') cg) as (ltq & [loq hiq] & normq).
      cbn [val]. unfold SFleb, SFcompare in le.
      destruct (Z.compare_spec e e') as [->|lt|gt]; [| |discriminate].
      + fold (Pos.compare p q) in le. apply F2Q_le.
        destruct (Pos.compare_spec p q); try discriminate; lia.
      + destruct normq as [->|normq]; [lia|].
        apply Qle_trans with (F2Q (2 ^ prec) e); [apply F2Q_le; lia|].
        apply Qle_trans with (F2Q (2 ^ (prec - 1)) e'); [|now apply F2Q_le].
        rewrite !F2Q_pow2 by (unfold prec; lia). apply pow2_le. lia.
  Qed.


Lemma val_pos (p : positive) (e : Z) : (0 < F2Q (Z.pos p) e)%Q.
  Proof.
    unfold F2Q. pose proof (pow2_pos e).
    assert (0 < inject_Z (Z.pos p))%Q by (rewrite <- (Zlt_Qlt 0); lia). nra.
  Qed.

Lemma F2Q_mult (m m' e e' : Z) :
    (F2Q (m * m') (e + e') == F2Q m e * F2Q m' e')%Q.
  Proof. unfold F2Q. rewrite inject_Z_mult, pow2_add. ring. Qed.

Lemma digits_lower (p : positive) (k : Z) :
    (2 ^ k <= Z.pos p)%Z -> (0 <= k)%Z -> (k + 1 <= Z.pos (digits2_pos p))%Z.
  Proof.
    intros lo pos. destruct (digits_bounds p) as [_ hi].
    destruct (Z.le_gt_cases (k + 1) (Z.pos (digits2_pos p))) as [|gt]; trivial.
    assert (2 ^ Z.pos (digits2_pos p) <= 2 ^ k)%Z
      by (apply Z.pow_le_mono_r; lia).
    lia.
  Qed.

  (** The product by a number with a full mantissa is the rounding of the
      product of the values. *)
Lemma mul_rounds (p q : positive) (e e' : Z) :
    (2 ^ (prec - 1) <= Z.pos q)%Z ->
    rounds (F2Q (Z.pos p) e * F2Q (Z.pos q) e')
           (S754_finite false p e * S754_finite false q e')%f64.
  Proof.
    intros full. unfold mul, SFmul. cbn [xorb].
    apply bra_rounds.
    - lia.
    - cbn [inbetween]. rewrite Pos2Z.inj_mul. symmetry. apply F2Q_mult.
    - cbn [Zdigits2].
      assert (prec <= Z.pos (digits2_pos (p * q)))%Z as d.
      { replace prec with (prec - 1 + 1)%Z by lia. apply digits_lower.
        - rewrite Pos2Z.inj_mul. nia.
        - unfold prec. lia. }
      unfold fexp. lia.
  Qed.

Lemma new_location_spec (n r : Z) :
    (0 <= r < n)%Z ->
    match new_location n r with
    | loc_Exact => r = 0%Z
    | loc_Inexact Lt => (0 < r /\ 2 * r < n)%Z
    | loc_Inexact Eq => (2 * r = n)%Z
    | loc_Inexact Gt => (n < 2 * r)%Z
    end.
  Proof.
    intros range. unfold new_location, new_location_even, new_location_odd.
    destruct (Z.even n) eqn:par.
    - destruct (Z.eqb_spec r 0); [trivial|].
      destruct (Z.compare_spec (2 * r) n); lia.
    - destruct (Z.eqb_spec r 0); [trivial|].
      assert (Z.odd n = true) as odd by (rewrite <- Z.negb_even, par; reflexivity).
      apply Z.odd_spec in odd. destruct odd as [k ek].
      destruct (Z.compare_spec (2 * r + 1) n); lia.
  Qed.

Lemma Qdiv_eq (x y z : Q) : (~ y == 0 -> x == z * y -> x / y == z)%Q.
  Proof. intros ny e. rewrite e. field. exact ny. Qed.

  (** The quotient of two positive numbers is the rounding of the quotient
      of the values. *)
Lemma div_rounds (p q : positive) (e e' : Z) :
    rounds (F2Q (Z.pos p) e / F2Q (Z.pos q) e')
           (S754_finite false p e / S754_finite false q e')%f64.
  Proof.
    unfold div, SFdiv. cbn [xorb]. unfold SFdiv_core_binary.
    cbn [Zdigits2].
    set (d1 := Z.pos (digits2_pos p)). set (d2 := Z.pos (digits2_pos q)).
    set (ez := Z.min (fexp prec emax (d1 + e - (d2 + e'))) (e - e')).
    set (s := (e - e' - ez)%Z).
    assert (0 <= s)%Z as spos by (unfold s, ez; lia).
    set (m' := match s with
               | 0%Z => Z.pos p
               | Z.pos _ => Z.shiftl (Z.pos p) s
               | Z.neg _ => 0%Z
               end).
    assert (m' = Z.pos p * 2 ^ s)%Z as em.
    { unfold m'. destruct s as [|k|k] eqn:es; [lia| |lia].
      now rewrite Z.shiftl_mul_pow2 by lia. }
    pose proof (Z.div_eucl_eq m' (Z.pos q) ltac:(lia)) as deq.
    pose proof (Z.mod_pos_bound m' (Z.pos q) ltac:(lia)) as rb.
    unfold Z.modulo in rb.
    destruct (Z.div_eucl m' (Z.pos q)) as [qz rz] eqn:edq.
    assert (0 <= qz)%Z as qpos.
    { assert (0 <= m')%Z by (rewrite em; apply Z.mul_nonneg_nonneg; [lia|];
                             apply Z.pow_nonneg; lia).
      replace qz with (m' / Z.pos q)%Z by (unfold Z.div; now rewrite edq).
      apply Z.div_pos; lia. }
    pose proof (new_location_spec rb) as loc.
    pose proof (pow2_pos ez) as pz. pose proof (pow2_pos e') as pe'.
    pose proof (val_pos q e') as vq.
    (* the quotient, as [(qz + rz / q) * 2^ez] *)
    assert (F2Q (Z.pos p) e / F2Q (Z.pos q) e'
            == (inject_Z qz + inject_Z rz / inject_Z (Z.pos q)) * pow2 ez)%Q as quo.
    { assert (inject_Z (Z.pos p) * pow2 s
              == inject_Z (Z.pos q) * inject_Z qz + inject_Z rz)%Q as e1.
      { rewrite pow2_Z by exact spos.
        rewrite <- !inject_Z_mult, <- inject_Z_plus, <- em, deq. reflexivity. }
      assert (pow2 e == pow2 s * pow2 e' * pow2 ez)%Q as e2.
      { rewrite <- !pow2_add. replace (s + e' + ez)%Z with e by (unfold s; lia).
        reflexivity. }
      assert (0 < inject_Z (Z.pos q))%Q as iq by (rewrite <- (Zlt_Qlt 0); lia).
      set (f := (inject_Z rz / inject_Z (Z.pos q))%Q).
      assert (f * inject_Z (Z.pos q) == inject_Z rz)%Q as ef
          by (unfold f; field; lra).
      apply Qdiv_eq; [lra|].
      unfold F2Q. rewrite e2.
      transitivity ((inject_Z (Z.pos p) * pow2 s) * (pow2 e' * pow2 ez))%Q;
        [ring|]. rewrite e1, <- ef. ring. }
    apply bra_rounds; [exact qpos| |].
    - eapply inbetween_ext; [symmetry; exact quo|].
      assert (0 < inject_Z (Z.pos q))%Q as iq by (rewrite <- (Zlt_Qlt 0); lia).
      set (f := (inject_Z rz / inject_Z (Z.pos q))%Q).
      assert (f * inject_Z (Z.pos q) == inject_Z rz)%Q as ef
          by (unfold f; field; lra).
      revert loc.
      destruct (new_location (Z.pos q) rz) as [|[| |]]; intros loc;
        cbn [inbetween]; unfold F2Q.
      + subst rz. assert (f == 0)%Q as -> by (unfold f; field; lra). ring.
      + assert (2 * inject_Z rz == inject_Z (Z.pos q))%Q as l1.
        { rewrite <- loc, inject_Z_mult. reflexivity. }
        unfold F2Q. assert (f == 1 # 2)%Q as -> by (unfold f; field_simplify_eq; lra).
        ring.
      + destruct loc as [l1 l2]. rewrite Zlt_Qlt in l1, l2.
        rewrite inject_Z_mult in l2. change (inject_Z 2) with 2%Q in l2.
        change (inject_Z 0) with 0%Q in l1. unfold F2Q. split; nra.
      + rewrite Zlt_Qlt in loc. rewrite inject_Z_mult in loc.
        change (inject_Z 2) with 2%Q in loc.
        destruct rb as [_ rb]. rewrite Zlt_Qlt in rb. unfold F2Q. split; nra.
    - (* enough digits *)
      assert (d1 + e - (d2 + e') <= Zdigits2 qz + ez)%Z as dig.
      { destruct (digits_Q p) as [plo _]. destruct (digits_Q q) as [_ qhi].
        fold d1 in plo. fold d2 in qhi.
        assert (pow2 (d1 + e - (d2 + e') - 1)
                <= F2Q (Z.pos p) e / F2Q (Z.pos q) e')%Q as lo.
        { replace (d1 + e - (d2 + e') - 1)%Z with ((d1 - 1) + e + - d2 + - e')%Z
            by lia.
          rewrite !pow2_add. pose proof (pow2_pos e) as pe.
          pose proof (pow2_pos (d1 - 1)) as pd1. pose proof (pow2_pos d2) as pd2.
          assert (pow2 (- d2) * pow2 d2 == 1)%Q as i2
              by (rewrite <- pow2_add; replace (- d2 + d2)%Z with 0%Z by lia;
                  reflexivity).
          assert (pow2 (- e') * pow2 e' == 1)%Q as ie
              by (rewrite <- pow2_add; replace (- e' + e')%Z with 0%Z by lia;
                  reflexivity).
          pose proof (pow2_pos (- d2)) as pnd. pose proof (pow2_pos (- e')) as pne.
          apply Qle_shift_div_l; [exact vq|]. unfold F2Q.
          assert (0 < inject_Z (Z.pos q))%Q
            by (rewrite <- (Zlt_Qlt 0); lia).
          (* pow2 (d1-1) pow2 e (pow2 -d2 q) (pow2 -e' pow2 e') <= p pow2 e *)
          assert (pow2 (- d2) * inject_Z (Z.pos q) <= 1)%Q as a1 by nra.
          match goal with
          | |- (?l <= _)%Q =>
              assert (l == pow2 (d1 - 1) * pow2 e
                           * (pow2 (- d2) * inject_Z (Z.pos q))
                           * (pow2 (- e') * pow2 e'))%Q as el by ring;
              rewrite el
          end.
          rewrite ie.
          assert (0 < pow2 (d1 - 1) * pow2 e)%Q by nra. nra. }
        assert (F2Q (Z.pos p) e / F2Q (Z.pos q) e' < pow2 (Zdigits2 qz + ez))%Q
          as hi.
        { rewrite quo. rewrite pow2_add.
          assert (inject_Z qz + 1 <= pow2 (Zdigits2 qz))%Q as qd.
          { destruct qz as [|k|k]; [|apply digits_Q|lia].
            cbn [Zdigits2]. change (pow2 0) with 1%Q. change (inject_Z 0) with 0%Q.
            lra. }
          assert (0 < inject_Z (Z.pos q))%Q as iq
              by (rewrite <- (Zlt_Qlt 0); lia).
          assert (inject_Z rz / inject_Z (Z.pos q) < 1)%Q as fr.
          { apply Qlt_shift_div_r; [exact iq|]. destruct rb as [_ rb].
            rewrite Zlt_Qlt in rb. lra. }
          nra. }
        assert (pow2 (d1 + e - (d2 + e') - 1) < pow2 (Zdigits2 qz + ez))%Q as lt
            by lra.
        apply pow2_lt_inv in lt. lia. }
      unfold fexp in *. unfold ez in *. lia.
  Qed.


Lemma iter_xO (p d : positive) :
    Z.pos (Pos.iter xO p d) = (Z.pos p * 2 ^ Z.pos d)%Z /\
    Z.pos (digits2_pos (Pos.iter xO p d)) = (Z.pos (digits2_pos p) + Z.pos d)%Z.
  Proof.
    induction d as [|d IH] using Pos.peano_ind.
    - cbn [Pos.iter digits2_pos]. split; [change (2 ^ 1)%Z with 2%Z; lia|lia].
    - rewrite Pos.iter_succ. destruct IH as [v dg].
      cbn [digits2_pos]. rewrite Pos2Z.inj_succ.
      change (Z.pos (Pos.iter xO p d)~0) with (2 * Z.pos (Pos.iter xO p d))%Z.
      rewrite v, Z.pow_succ_r by lia. split; lia.
  Qed.

Lemma shl_align_spec (p : positive) (e e' : Z) :
    (F2Q (Z.pos (fst (shl_align p e e'))) (snd (shl_align p e e'))
     == F2Q (Z.pos p) e)%Q /\
    (Z.pos (digits2_pos (fst (shl_align p e e'))) + snd (shl_align p e e')
     = Z.pos (digits2_pos p) + e)%Z /\
    snd (shl_align p e e') = Z.min e e'.
  Proof.
    unfold shl_align. destruct (e' - e)%Z as [|d|d] eqn:ed; cbn [fst snd].
    - split; [reflexivity|]. split; lia.
    - split; [reflexivity|]. split; lia.
    - destruct (iter_xO p d) as [v dg]. rewrite v, dg.
      split; [|split; lia].
      assert (pow2 e == pow2 (Z.pos d) * pow2 e')%Q as pe
          by (rewrite <- pow2_add; replace (Z.pos d + e')%Z with e by lia;
              reflexivity).
      unfold F2Q. rewrite inject_Z_mult, <- pow2_Z by lia. rewrite pe. ring.
  Qed.

  (** A positive integer mantissa at an exponent is normalized to the
      rounding of its value. *)
Lemma binary_round_rounds (p : positive) (e : Z) :
    rounds (F2Q (Z.pos p) e) (binary_round prec emax false p e).
  Proof.
    unfold binary_round.
    destruct (shl_align_spec p e (fexp prec emax (Z.pos (digits2_pos p) + e)))
      as (v & dg & ex).
    destruct (shl_align p e _) as [mz ez]. cbn [fst snd] in v, dg, ex.
    apply (@rounds_ext (F2Q (Z.pos mz) ez)); [exact v|].
    apply bra_rounds; [lia|cbn; reflexivity|].
    cbn [Zdigits2]. rewrite dg. lia.
  Qed.

Lemma of_Z_rounds (z : Z) : (0 <= z)%Z -> rounds (inject_Z z) (of_Z z).
  Proof.
    intros pos. unfold of_Z, binary_normalize. destruct z as [|p|p]; [| |lia].
    - exact (rounds_val (S754_zero false) eq_refl).
    - apply (@rounds_ext (F2Q (Z.pos p) 0)); [unfold F2Q, pow2; cbn; ring|].
      apply binary_round_rounds.
  Qed.

  (** The sum of two positive numbers is the rounding of the sum of the
      values. *)
Lemma add_rounds (p q : positive) (e e' : Z) :
    rounds (F2Q (Z.pos p) e + F2Q (Z.pos q) e')
           (S754_finite false p e + S754_finite false q e')%f64.
  Proof.
    unfold add, SFadd. cbn [cond_Zopp].
    destruct (shl_align_spec p e (Z.min e e')) as (v1 & _ & x1).
    destruct (shl_align_spec q e' (Z.min e e')) as (v2 & _ & x2).
    destruct (shl_align p e (Z.min e e')) as [m1 e1].
    destruct (shl_align q e' (Z.min e e')) as [m2 e2].
    cbn [fst snd] in *.
    change (Z.pos m1 + Z.pos m2)%Z with (Z.pos (m1 + m2)).
    cbn [binary_normalize].
    apply (@rounds_ext (F2Q (Z.pos (m1 + m2)) (Z.min e e'))).
    - rewrite <- v1, <- v2. rewrite x1, x2.
      replace (Z.min e (Z.min e e')) with (Z.min e e') by lia.
      replace (Z.min e' (Z.min e e')) with (Z.min e e') by lia.
      unfold F2Q. rewrite Pos2Z.inj_add, inject_Z_plus. ring.
    - apply binary_round_rounds.
  Qed.

  (** A natural number below [2^prec] is a binary64 number. *)
Lemma of_nat_exact (n : nat) :
    (Z.of_nat n < 2 ^ prec)%Z ->
    canonical (of_nat n) /\ (val (of_nat n) == inject_Z (Z.of_nat n))%Q.
  Proof.
    intros small. unfold of_nat.
    pose proof (@of_Z_rounds (Z.of_nat n) ltac:(lia)) as r.
    set (z := Z.of_nat n) in *. assert (0 <= z)%Z as zpos by (unfold z; lia).
    pose proof r as (e & m & l & c & pos & inb & eq).
    assert (e <= 0)%Z as neg.
    { destruct c as (_ & _ & [->|lo]); [unfold emin, prec, emax; lia|].
      assert (pow2 (e + prec - 1) < pow2 prec)%Q as lt.
      { apply Qle_lt_trans with (inject_Z z); [exact lo|].
        rewrite pow2_Z by (unfold prec; lia). now rewrite <- Zlt_Qlt. }
      apply pow2_lt_inv in lt. lia. }
    assert (inject_Z z == F2Q (z * 2 ^ (- e)) e)%Q as rep.
    { unfold F2Q. rewrite inject_Z_mult, <- pow2_Z by lia.
      assert (pow2 (- e) * pow2 e == 1)%Q as one
          by (rewrite <- pow2_add; replace (- e + e)%Z with 0%Z by lia;
              reflexivity).
      transitivity (inject_Z z * (pow2 (- e) * pow2 e))%Q; [rewrite one|]; ring. }
    assert (0 <= z * 2 ^ (- e))%Z as mpos
        by (apply Z.mul_nonneg_nonneg; [lia|apply Z.pow_nonneg; lia]).
    pose proof (@rounds_representable (inject_Z z) (of_Z z) (z * 2 ^ (- e)) e
                  r c mpos rep) as shape.
    assert (inbetween (z * 2 ^ (- e)) e loc_Exact (inject_Z z)) as inb'
        by exact rep.
    destruct (@floor_bounds (z * 2 ^ (- e)) e loc_Exact (inject_Z z) c inb')
      as [mlt mnorm].
    destruct (rounds_canonical r) as [can|inf].
    - split; [exact can|]. rewrite shape in *.
      destruct (z * 2 ^ (- e))%Z as [|k|k] eqn:ek; [| |lia].
      + rewrite pack_zero. cbn [val]. rewrite rep. unfold F2Q. ring.
      + rewrite pack_small in * by (trivial; apply c).
        destruct (e <=? emax - prec)%Z; [|contradiction].
        cbn [val]. rewrite rep. reflexivity.
    - exfalso. rewrite shape in inf.
      destruct (z * 2 ^ (- e))%Z as [|k|k] eqn:ek; [| |lia].
      + rewrite pack_zero in inf. discriminate.
      + rewrite pack_small in inf by (trivial; apply c).
        destruct (Z.leb_spec e (emax - prec)); [discriminate|].
        unfold emax, prec in *. lia.
  Qed.


Lemma canonical_cases (f : float64) :
    canonical f ->
    f = S754_zero false \/ exists p e, f = S754_finite false p e.
  Proof.
    destruct f as [[|]|s| |[|] p e]; cbn [canonical]; try contradiction;
      try discriminate; eauto.
  Qed.

Lemma rounds_zero : rounds 0 (S754_zero false).
  Proof. exact (rounds_val (S754_zero false) eq_refl). Qed.

  (** Sums, quotients and products of numbers that are not negative round
      the sums, quotients and products of the values. *)
Lemma add_rounds_val (f g : float64) :
    canonical f -> canonical g -> rounds (val f + val g) (f + g)%f64.
  Proof.
    intros cf cg.
    destruct (canonical_cases _ cf) as [->|(p & e & ->)];
      destruct (canonical_cases _ cg) as [->|(q & e' & ->)].
    - apply (@rounds_ext 0%Q); [cbn [val]; ring|exact rounds_zero].
    - apply (@rounds_ext (val (S754_finite false q e')));
        [cbn [val]; ring|now apply rounds_val].
    - apply (@rounds_ext (val (S754_finite false p e)));
        [cbn [val]; ring|now apply rounds_val].
    - apply add_rounds.
  Qed.

Lemma div_rounds_val (f : float64) (q : positive) (e' : Z) :
    canonical f ->
    rounds (val f / F2Q (Z.pos q) e') (f / S754_finite false q e')%f64.
  Proof.
    intros cf. destruct (canonical_cases _ cf) as [->|(p & e & ->)].
    - apply (@rounds_ext 0%Q); [|exact rounds_zero].
      cbn [val]. pose proof (val_pos q e'). field. lra.
    - apply div_rounds.
  Qed.

Lemma mul_rounds_val (f : float64) (q : positive) (e' : Z) :
    canonical f -> (2 ^ (prec - 1) <= Z.pos q)%Z ->
    rounds (val f * F2Q (Z.pos q) e') (f * S754_finite false q e')%f64.
  Proof.
    intros cf full. destruct (canonical_cases _ cf) as [->|(p & e & ->)].
    - apply (@rounds_ext 0%Q); [cbn [val]; ring|exact rounds_zero].
    - now apply mul_rounds.
  Qed.

  (** A rounding below a binary64 number is a binary64 number. *)
Lemma rounds_below (x : Q) (r g : float64) :
    rounds x r -> canonical g -> (x <= val g)%Q -> canonical r.
  Proof.
    intros h cg le. destruct (rounds_canonical h) as [c| ->]; trivial.
    pose proof (@rounds_mono x (val g) _ g le h (rounds_val g cg)) as o.
    destruct (canonical_cases _ cg) as [->|(p & e & ->)]; discriminate.
  Qed.

  (** Sums of natural numbers are exact below [2^prec]. *)
Lemma add_of_nat (a b : nat) :
    (Z.of_nat (a + b) < 2 ^ prec)%Z ->
    (of_nat a + of_nat b)%f64 = of_nat (a + b).
  Proof.
    intros small.
    destruct (@of_nat_exact a ltac:(lia)) as [ca va].
    destruct (@of_nat_exact b ltac:(lia)) as [cb vb].
    apply (@rounds_unique (val (of_nat a) + val (of_nat b))
                          (inject_Z (Z.of_nat (a + b)))).
    - rewrite va, vb, Nat2Z.inj_add, inject_Z_plus. reflexivity.
    - now apply add_rounds_val.
    - apply of_Z_rounds. lia.
  Qed.


Lemma of_nat_finite (n : nat) :
    0 < n -> (Z.of_nat n < 2 ^ prec)%Z ->
    exists p e, of_nat n = S754_finite false p e /\
                (F2Q (Z.pos p) e == inject_Z (Z.of_nat n))%Q /\
                canonical (S754_finite false p e).
  Proof.
    intros pos small. destruct (of_nat_exact n small) as [c v].
    destruct (canonical_cases _ c) as [z|(p & e & eq)].
    - exfalso. rewrite z in v. cbn [val] in v.
      assert (0 < inject_Z (Z.of_nat n))%Q by (rewrite <- (Zlt_Qlt 0); lia). lra.
    - exists p, e. rewrite eq in *. auto.
  Qed.

Lemma hundred : of_Z 100 = S754_finite false 7036874417766400 (-46).
  Proof. reflexivity. Qed.

Lemma hundred_val : (F2Q 7036874417766400 (-46) == 100)%Q.
  Proof. reflexivity. Qed.

  (** The percentage is the rounding of 100 times the rounded quotient. *)
Lemma percentage_rounds (n k : nat) :
    0 < n -> k <= n -> (Z.of_nat n < 2 ^ prec)%Z ->
    exists q,
      canonical q /\
      rounds (inject_Z (Z.of_nat k) / inject_Z (Z.of_nat n)) q /\
      (val q <= 1)%Q /\
      rounds (val q * 100) (percentage n k).
  Proof.
    intros pos le small.
    destruct (of_nat_finite pos small) as (p & e & en & vn & cn).
    destruct (@of_nat_exact k ltac:(lia)) as [ck vk].
    assert (0 < inject_Z (Z.of_nat n))%Q as npos
        by (rewrite <- (Zlt_Qlt 0); lia).
    assert (rounds (inject_Z (Z.of_nat k) / inject_Z (Z.of_nat n))
                   (of_nat k / of_nat n)%f64) as rq.
    { rewrite en. apply (@rounds_ext (val (of_nat k) / F2Q (Z.pos p) e)).
      - rewrite vk, vn. reflexivity.
      - now apply div_rounds_val. }
    assert (inject_Z (Z.of_nat k) / inject_Z (Z.of_nat n) <= 1)%Q as le1.
    { apply Qle_shift_div_r; [exact npos|]. rewrite Qmult_1_l.
      rewrite <- Zle_Qle. lia. }
    assert (canonical (S754_finite false 4503599627370496 (-52))) as c1
        by reflexivity.
    assert (val (S754_finite false 4503599627370496 (-52)) == 1)%Q as v1
        by reflexivity.
    pose proof (@rounds_below _ _ _ rq c1 ltac:(rewrite v1; exact le1)) as cq.
    exists (of_nat k / of_nat n)%f64.
    split; [exact cq|]. split; [exact rq|]. split.
    - rewrite <- v1. apply leb_val; trivial.
      apply (@rounds_mono _ (val (S754_finite false 4503599627370496 (-52)))
               _ _ ltac:(rewrite v1; exact le1) rq (rounds_val _ c1)).
    - unfold percentage. rewrite hundred.
      apply (@rounds_ext (val (of_nat k / of_nat n)%f64
                          * F2Q 7036874417766400 (-46))).
      + rewrite hundred_val. reflexivity.
      + apply mul_rounds_val; [exact cq|].
        change (2 ^ (prec - 1))%Z with 4503599627370496%Z. lia.
  Qed.

Lemma Qdiv_le (a b c : Q) : (0 < c -> a <= b -> a / c <= b / c)%Q.
  Proof.
    intros pos le. unfold Qdiv. pose proof (Qinv_lt_0_compat c pos). nra.
  Qed.

  (** The percentage does not decrease with the count. *)
Lemma percentage_mono (n k k' : nat) :
    0 < n -> k <= k' -> k' <= n -> (Z.of_nat n < 2 ^ prec)%Z ->
    (percentage n k <=? percentage n k')%f64 = true.
  Proof.
    intros pos le le' small.
    destruct (@percentage_rounds n k pos ltac:(lia) small)
      as (q & cq & rq & _ & rp).
    destruct (@percentage_rounds n k' pos le' small)
      as (q' & cq' & rq' & _ & rp').
    assert (0 < inject_Z (Z.of_nat n))%Q as npos
        by (rewrite <- (Zlt_Qlt 0); lia).
    assert (val q <= val q')%Q as vle.
    { apply leb_val; trivial. eapply rounds_mono; [|exact rq|exact rq'].
      apply Qdiv_le; [exact npos|]. rewrite <- Zle_Qle. lia. }
    unfold leb. eapply rounds_mono; [|exact rp|exact rp']. lra.
  Qed.

  (** The percentage is at most 50 exactly for the counts up to half of
      the total. *)
Lemma percentage_half (n k : nat) :
    0 < n -> k <= n -> (Z.of_nat n < 2 ^ (prec - 1))%Z ->
    (percentage n k <=? of_Z 50)%f64 = true <-> 2 * k <= n.
  Proof.
    intros pos le small.
    pose proof (eq_refl : (2 ^ prec)%Z = 9007199254740992%Z) as p53.
    pose proof (eq_refl : (2 ^ (prec - 1))%Z = 4503599627370496%Z) as p52.
    destruct (@percentage_rounds n k pos le ltac:(lia))
      as (q & cq & rq & _ & rp).
    assert (0 < inject_Z (Z.of_nat n))%Q as npos
        by (rewrite <- (Zlt_Qlt 0); lia).
    set (x := (inject_Z (Z.of_nat k) / inject_Z (Z.of_nat n))%Q) in *.
    assert (x * inject_Z (Z.of_nat n) == inject_Z (Z.of_nat k))%Q as ex
        by (unfold x; field; lra).
    (* the numbers 1/2, 1/2 + 2^-53, 50 and 50 + 2^-47 *)
    set (half := S754_finite false 4503599627370496 (-53)).
    set (half' := S754_finite false 4503599627370497 (-53)).
    set (fifty := S754_finite false 7036874417766400 (-47)).
    set (fifty' := S754_finite false 7036874417766401 (-47)).
    assert (canonical half /\ canonical half' /\ canonical fifty /\
            canonical fifty') as (ch & ch' & cf & cf') by (repeat split).
    assert (val half == 1 # 2)%Q as vh by reflexivity.
    assert (val half' == (1 # 2) + (1 # 9007199254740992))%Q as vh'
        by reflexivity.
    assert (val fifty == 50)%Q as vf by reflexivity.
    assert (val fifty' == 50 + (1 # 140737488355328))%Q as vf' by reflexivity.
    assert (of_Z 50 = fifty) as e50 by reflexivity.
    rewrite e50. split.
    - intros below.
      destruct (Nat.le_gt_cases (2 * k) n) as [|gt]; trivial. exfalso.
      assert (val half' <= x)%Q as lo.
      { rewrite vh'.
        assert (2 * inject_Z (Z.of_nat k) >= inject_Z (Z.of_nat n) + 1)%Q as a.
        { change 2%Q with (inject_Z 2). change 1%Q with (inject_Z 1).
          rewrite <- inject_Z_mult, <- inject_Z_plus, <- Zle_Qle. lia. }
        assert (inject_Z (Z.of_nat n) <= 4503599627370496)%Q as b.
        { change 4503599627370496%Q with (inject_Z 4503599627370496).
          rewrite <- Zle_Qle. lia. }
        apply Qle_shift_div_l; [exact npos|]. nra. }
      pose proof (@rounds_mono _ _ _ _ lo (rounds_val _ ch') rq) as o1.
      apply (@leb_val _ _ ch' cq) in o1.
      assert (val fifty' <= val q * 100)%Q as lo2 by (rewrite vf'; lra).
      pose proof (@rounds_mono _ _ _ _ lo2 (rounds_val _ cf') rp) as o2.
      pose proof (Order.leb_trans _ _ _ o2 below) as bad.
      discriminate.
    - intros hk.
      assert (x <= val half)%Q as hi.
      { rewrite vh. apply Qle_shift_div_r; [exact npos|].
        assert (2 * inject_Z (Z.of_nat k) <= inject_Z (Z.of_nat n))%Q as a.
        { change 2%Q with (inject_Z 2).
          rewrite <- inject_Z_mult, <- Zle_Qle. lia. }
        lra. }
      pose proof (@rounds_mono _ _ _ _ hi rq (rounds_val _ ch)) as o1.
      apply (@leb_val _ _ cq ch) in o1.
      assert (val q * 100 <= val fifty)%Q as hi2 by (rewrite vf; lra).
      exact (@rounds_mono _ _ _ _ hi2 rp (rounds_val _ cf)).
  Qed.

End Rounding.

(** ** The pooled histogram of integer counts *)

Section PooledCounts.

Lemma list_sum_cons (x : nat) (l : list nat) :
    list_sum (x :: l) = x + list_sum l.
  Proof. reflexivity. Qed.

Lemma map2_add_of_nat (a b : list nat) :
    (Z.of_nat (list_sum a + list_sum b) < 2 ^ prec)%Z ->
    map2 add (map of_nat a) (map of_nat b) = map of_nat (map2 Nat.add a b).
  Proof.
    revert b. induction a as [|x a IH]; intros [|y b] small; trivial.
    rewrite !list_sum_cons in small. cbn [map map2]. f_equal.
    - apply add_of_nat. lia.
    - apply IH. lia.
  Qed.

Lemma list_sum_map2 (a b : list nat) :
    list_sum (map2 Nat.add a b) <= list_sum a + list_sum b.
  Proof.
    revert b. induction a as [|x a IH]; intros [|y b]; cbn [map2];
      rewrite ?list_sum_cons; change (list_sum (@nil nat)) with 0; try lia.
    specialize (IH b). lia.
  Qed.

Lemma fold_add_of_nat (rs : list (list nat)) :
    forall a,
      (Z.of_nat (list_sum a + list_sum (concat rs)) < 2 ^ prec)%Z ->
      fold_left (map2 add) (map (map of_nat) rs) (map of_nat a)
        = map of_nat (fold_left (map2 Nat.add) rs a) /\
      list_sum (fold_left (map2 Nat.add) rs a)
        <= list_sum a + list_sum (concat rs).
  Proof.
    induction rs as [|r rs IH]; intros a small; cbn [fold_left map concat].
    - split; [reflexivity|lia].
    - cbn [concat] in small. rewrite list_sum_app in small.
      pose proof (list_sum_map2 a r) as le.
      rewrite map2_add_of_nat by lia.
      destruct (IH (map2 Nat.add a r)) as [eq bound]; [lia|].
      split; [exact eq|]. rewrite list_sum_app. lia.
  Qed.

Lemma sum_axis0_of_nat (ks : list (list nat)) :
    (Z.of_nat (list_sum (concat ks)) < 2 ^ prec)%Z ->
    sum_axis0 (map (map of_nat) ks) = map of_nat (column_sums ks) /\
    list_sum (column_sums ks) <= list_sum (concat ks).
  Proof.
    destruct ks as [|r rs]; intros small.
    - split; [reflexivity|cbn; lia].
    - cbn [map sum_axis0 column_sums]. cbn [concat] in *.
      rewrite list_sum_app in *. now apply fold_add_of_nat.
  Qed.

Lemma cumsum_from_of_nat (l : list nat) :
    forall acc,
      (Z.of_nat (acc + list_sum l) < 2 ^ prec)%Z ->
      cumsum_from (of_nat acc) (map of_nat l) = map of_nat (running_from acc l).
  Proof.
    induction l as [|k l IH]; intros acc small; [reflexivity|].
    rewrite list_sum_cons in small. cbn [map cumsum_from running_from].
    rewrite add_of_nat by lia. f_equal. apply IH. lia.
  Qed.

Lemma cumsum_of_nat (l : list nat) :
    (Z.of_nat (list_sum l) < 2 ^ prec)%Z ->
    cumsum (map of_nat l) = map of_nat (running l).
  Proof.
    destruct l as [|k l]; intros small; [reflexivity|].
    rewrite list_sum_cons in small.
    cbn [map cumsum running running_from Nat.add].
    f_equal. now apply cumsum_from_of_nat.
  Qed.

Lemma fold_sum_of_nat (l : list nat) :
    forall k,
      (Z.of_nat (k + list_sum l) < 2 ^ prec)%Z ->
      fold_left add (map of_nat l) (of_nat k) = of_nat (k + list_sum l).
  Proof.
    induction l as [|j l IH]; intros k small; cbn [map fold_left].
    - cbn [list_sum fold_right]. now rewrite Nat.add_0_r.
    - rewrite list_sum_cons in *. rewrite add_of_nat by lia.
      rewrite IH by lia. f_equal. lia.
  Qed.

Lemma sum_of_nat (l : list nat) :
    (Z.of_nat (list_sum l) < 2 ^ prec)%Z ->
    Np.sum (map of_nat l) = of_nat (list_sum l).
  Proof.
    destruct l as [|k l]; intros small; [reflexivity|].
    rewrite list_sum_cons in *. cbn [map Np.sum].
    now apply fold_sum_of_nat.
  Qed.

  (** The cumulative percentages of the code are the percentages of the
      running totals of the pooled integer counts. *)
Lemma cumsum_percentile_of_nat (ks : list (list nat)) (nbins : nat) :
    ks <> [] ->
    (Z.of_nat (list_sum (concat ks)) < 2 ^ prec)%Z ->
    cumsum_percentile (pooled_histogram (map (map of_nat) ks) nbins)
    = map (percentage (list_sum (column_sums ks))) (running (column_sums ks)).
  Proof.
    intros ne small. destruct (sum_axis0_of_nat ks small) as [eq bound].
    assert (pooled_histogram (map (map of_nat) ks) nbins
            = sum_axis0 (map (map of_nat) ks)) as ->
      by (destruct ks; [congruence|reflexivity]).
    rewrite eq. unfold cumsum_percentile.
    rewrite cumsum_of_nat, sum_of_nat, map_map by lia. reflexivity.
  Qed.

Lemma running_from_nondecreasing (n : nat) (l : list nat) :
    0 < n -> (Z.of_nat n < 2 ^ prec)%Z ->
    forall acc,
      acc + list_sum l <= n ->
      nondecreasing (map (percentage n) (running_from acc l)) = true.
  Proof.
    intros pos small. induction l as [|k l IH]; intros acc le; [reflexivity|].
    destruct l as [|k' l]; [reflexivity|].
    rewrite !list_sum_cons in le.
    cbn [running_from map nondecreasing].
    apply andb_true_intro. split.
    - apply percentage_mono; trivial; lia.
    - apply (IH (acc + k)). rewrite list_sum_cons. lia.
  Qed.

Lemma running_from_bound (l : list nat) :
    forall acc, Forall (fun k => k <= acc + list_sum l) (running_from acc l).
  Proof.
    induction l as [|k l IH]; intros acc; cbn [running_from];
      rewrite ?list_sum_cons; constructor; [lia|].
    eapply Forall_impl; [|apply IH]. cbn beta. intros; lia.
  Qed.

Lemma running_from_repeat (c n : nat) :
    forall acc,
      running_from acc (repeat c n) = map (fun j => acc + j * c) (seq 1 n).
  Proof.
    induction n as [|n IH]; intros acc; [reflexivity|].
    cbn [repeat running_from seq map]. f_equal; [lia|].
    rewrite IH, <- (seq_shift n 1), map_map. apply map_ext. intros j. lia.
  Qed.

Lemma list_sum_repeat (c n : nat) : list_sum (repeat c n) = n * c.
  Proof.
    induction n as [|n IH]; [reflexivity|].
    cbn [repeat]. rewrite list_sum_cons. lia.
  Qed.

Lemma filter_none (A : Type) (f : A -> bool) (l : list A) :
    (forall x, In x l -> f x = false) -> filter f l = [].
  Proof.
    induction l as [|x l IH]; intros none; [reflexivity|].
    cbn [filter]. rewrite (none x (or_introl eq_refl)).
    apply IH. intros y iy. apply none. now right.
  Qed.

Lemma length_filter_below (n : nat) :
    forall a k,
      length (filter (fun j => (j <? a + k)%nat) (seq a n)) = Nat.min k n.
  Proof.
    induction n as [|n IH]; intros a k; cbn [seq filter].
    - now rewrite Nat.min_0_r.
    - destruct (Nat.ltb_spec a (a + k)).
      + cbn [length]. destruct k as [|k]; [lia|].
        replace (a + S k) with (S a + k) by lia. rewrite IH. reflexivity.
      + assert (k = 0) as -> by lia.
        rewrite filter_none; [reflexivity|].
        intros j ij. apply in_seq in ij. apply Nat.ltb_ge. lia.
  Qed.

Lemma count_half (n : nat) :
    length (filter (fun j => (2 * j <=? n)%nat) (seq 1 n)) = n / 2.
  Proof.
    rewrite (@filter_ext _ _ (fun j => (j <? 1 + n / 2)%nat)).
    - rewrite length_filter_below. apply Nat.min_l.
      apply Nat.Div0.div_le_upper_bound. lia.
    - intros j. pose proof (Nat.div_mod_eq n 2) as dm.
      pose proof (Nat.mod_upper_bound n 2 ltac:(lia)) as mb.
      destruct (Nat.leb_spec (2 * j) n), (Nat.ltb_spec j (1 + n / 2));
        trivial; lia.
  Qed.

End PooledCounts.

Section PooledThreshold.

Import Order.

Lemma length_filter_map (A B : Type) (f : B -> bool) (g : A -> B) (l : list A) :
    length (filter f (map g l)) = length (filter (fun x => f (g x)) l).
  Proof.
    induction l as [|x l IH]; [reflexivity|].
    cbn [map filter]. destruct (f (g x)); cbn [length]; now rewrite IH.
  Qed.

  (** With [c > 0] values in each of the [n] pooled bins, the cumulative
      percentages that are at most 50 are those of the first [n / 2]
      bins. *)
Lemma count_upto_uniform (c n : nat) :
    0 < c -> (Z.of_nat (n * c) < 2 ^ (prec - 1))%Z ->
    count_upto (of_Z 50)
               (map (percentage (n * c)) (running (repeat c n))) = n / 2.
  Proof.
    intros pos small. unfold count_upto, running.
    rewrite running_from_repeat, map_map, length_filter_map.
    rewrite <- count_half. f_equal. apply filter_ext_in.
    intros j ij. apply in_seq in ij. cbn [Nat.add].
    assert (0 < n * c) as pn by nia.
    assert (j * c <= n * c) as le by nia.
    pose proof (@percentage_half (n * c) (j * c) pn le small) as half.
    destruct (Nat.leb_spec (2 * j) n) as [h|h].
    - apply half. nia.
    - destruct (percentage (n * c) (j * c) <=? of_Z 50)%f64; trivial.
      assert (2 * (j * c) <= n * c) by now apply half. nia.
  Qed.

End PooledThreshold.

(** ** Rounding errors and the edge at the middle of [linspace] *)

Section Midpoint.

Import Order.

Lemma pack_val (m e : Z) :
    (0 <= m <= 2 ^ prec)%Z -> (emin prec emax <= e)%Z ->
    canonical (pack false m e) -> (val (pack false m e) == F2Q m e)%Q.
  Proof.
    intros [lo hi] le.
    pose proof (eq_refl : (2 ^ prec)%Z = 9007199254740992%Z) as p53.
    destruct m as [|p|p]; [| |lia].
    - rewrite pack_zero. intros _. cbn [val]. unfold F2Q. ring.
    - destruct (Z.eq_dec (Z.pos p) (2 ^ prec)) as [eq|ne].
      + rewrite eq, pack_carry by exact le.
        destruct (Z.leb_spec (e + 1) (emax - prec)); [|contradiction].
        intros _. cbn [val].
        change (Z.pos (Z.to_pos (2 ^ (prec - 1)))) with (2 ^ (prec - 1))%Z.
        rewrite <- F2Q_double. reflexivity.
      + rewrite pack_small by lia.
        destruct (Z.leb_spec e (emax - prec)); [|contradiction].
        intros _. reflexivity.
  Qed.

Lemma rne_nearest (m e : Z) (l : location) (x : Q) :
    inbetween m e l x ->
    (x - (1 # 2) * pow2 e <= F2Q (round_nearest_even m l) e
     <= x + (1 # 2) * pow2 e)%Q.
  Proof.
    pose proof (pow2_pos e) as pe. pose proof (F2Q_succ m e) as su.
    destruct l as [|[| |]]; cbn [inbetween round_nearest_even]; intros h.
    - lra.
    - destruct (Z.even m); lra.
    - lra.
    - lra.
  Qed.

  (** The rounding of [x] is within half a unit in the last place. *)
Lemma rounds_error (x : Q) (r : float64) :
    rounds x r -> canonical r ->
    exists e,
      cexp_of x e /\
      (x - (1 # 2) * pow2 e <= val r <= x + (1 # 2) * pow2 e)%Q.
  Proof.
    intros (e & m & l & c & pos & inb & ->) can. exists e. split; [exact c|].
    destruct (@floor_bounds m e l x c inb) as [b1 _].
    pose proof (rne_bounds m l) as rb.
    rewrite pack_val; trivial; [now apply rne_nearest|lia|apply c].
  Qed.

Lemma rounds_rel (x : Q) (r : float64) :
    rounds x r -> canonical r ->
    (pow2 (emin prec emax + prec - 1) <= x)%Q ->
    (x * (1 - ulp_half) <= val r <= x * (1 + ulp_half))%Q.
  Proof.
    intros h can normal. destruct (rounds_error h can) as (e & c & err).
    assert (pow2 (e + prec - 1) <= x)%Q as lo
        by (destruct c as (_ & _ & [->|lo]); trivial).
    assert ((1 # 2) * pow2 e == pow2 (e + prec - 1) * ulp_half)%Q as eq.
    { unfold ulp_half. rewrite <- pow2_add.
      replace (e + prec - 1 + - prec)%Z with (e + -1)%Z by lia.
      rewrite pow2_add. change (pow2 (-1)) with (1 # 2)%Q. ring. }
    assert (0 < ulp_half)%Q as up by apply pow2_pos.
    rewrite eq in err. nra.
  Qed.

Lemma abs_pack (s : bool) (m e : Z) : SFabs (pack s m e) = pack false m e.
  Proof.
    unfold pack. destruct (shr_fexp prec emax m e loc_Exact) as [mrs e'].
    destruct (shr_m mrs); trivial. now destruct (e' <=? emax - prec)%Z.
  Qed.

Lemma abs_binary_round (s : bool) (p : positive) (e : Z) :
    SFabs (binary_round prec emax s p e) = binary_round prec emax false p e.
  Proof.
    unfold binary_round. destruct (shl_align p e _) as [mz ez].
    now rewrite !bra_pack, abs_pack.
  Qed.

Lemma abs_rounds (x : Q) (r : float64) : rounds x r -> SFabs r = r.
  Proof.
    intros h. destruct (rounds_canonical h) as [c| ->]; [|reflexivity].
    destruct (canonical_cases _ c) as [->|(p & e & ->)]; reflexivity.
  Qed.

  (** The absolute value of a difference is the rounding of the distance. *)
Lemma sub_abs_rounds (f g : float64) :
    canonical f -> canonical g ->
    exists d,
      ((d == val f - val g)%Q \/ (d == val g - val f)%Q) /\ (0 <= d)%Q /\
      rounds d (SFabs (f - g)%f64).
  Proof.
    intros cf cg.
    destruct (canonical_cases _ cf) as [->|(p & e & ->)],
             (canonical_cases _ cg) as [->|(q & e' & ->)].
    - exists 0%Q. cbn [val]. split; [left; ring|]. split; [lra|].
      exact rounds_zero.
    - exists (val (S754_finite false q e')). cbn [val].
      pose proof (val_pos q e'). split; [right; ring|]. split; [lra|].
      exact (rounds_val _ cg).
    - exists (val (S754_finite false p e)). cbn [val].
      pose proof (val_pos p e). split; [left; ring|]. split; [lra|].
      exact (rounds_val _ cf).
    - unfold sub, SFsub. cbn [cond_Zopp val].
      destruct (shl_align_spec p e (Z.min e e')) as (v1 & _ & x1).
      destruct (shl_align_spec q e' (Z.min e e')) as (v2 & _ & x2).
      destruct (shl_align p e (Z.min e e')) as [m1 e1].
      destruct (shl_align q e' (Z.min e e')) as [m2 e2].
      cbn [fst snd] in *.
      replace (Z.min e (Z.min e e')) with (Z.min e e') in x1 by lia.
      replace (Z.min e' (Z.min e e')) with (Z.min e e') in x2 by lia.
      subst e1 e2. set (ez := Z.min e e') in *.
      assert (F2Q (Z.pos m1 - Z.pos m2) ez
              == F2Q (Z.pos p) e - F2Q (Z.pos q) e')%Q as diff.
      { rewrite <- v1, <- v2. unfold F2Q.
        unfold Z.sub. rewrite inject_Z_plus, inject_Z_opp. ring. }
      destruct (Z.pos m1 - Z.pos m2)%Z as [|k|k] eqn:ek;
        cbn [binary_normalize].
      + exists 0%Q. split; [left|split; [lra|exact rounds_zero]].
        assert (F2Q 0 ez == 0)%Q as z by (unfold F2Q; ring). lra.
      + exists (F2Q (Z.pos k) ez). split; [now left|].
        pose proof (val_pos k ez). split; [lra|].
        pose proof (binary_round_rounds k ez) as r.
        now rewrite (abs_rounds r).
      + exists (F2Q (Z.pos k) ez). split.
        * right.
          assert (F2Q (Z.neg k) ez == - F2Q (Z.pos k) ez)%Q as z.
          { unfold F2Q. change (Z.neg k) with (- Z.pos k)%Z.
            rewrite inject_Z_opp. ring. }
          lra.
        * pose proof (val_pos k ez). split; [lra|].
          rewrite abs_binary_round. apply binary_round_rounds.
  Qed.

Lemma add_zero (f : float64) : canonical f -> (f + zero)%f64 = f.
  Proof.
    intros c. destruct (canonical_cases _ c) as [->|(p & e & ->)]; reflexivity.
  Qed.

Lemma index_linspace (start stop : float64) (n i : nat) :
    i < n ->
    index (linspace start stop (S n)) i
    = Ok (of_nat i * ((stop - start) / of_nat n) + start)%f64.
  Proof.
    intros lt. unfold linspace, index. cbn [Nat.sub]. rewrite Nat.sub_0_r.
    rewrite nth_error_app1 by now rewrite length_map, length_seq.
    rewrite nth_error_map, nth_error_seq.
    rewrite (proj2 (Nat.ltb_lt _ _) lt). reflexivity.
  Qed.

  (** The step of [linspace] over [0, 100] with [n] bins. *)
Lemma step_rounds (n : nat) :
    0 < n -> (Z.of_nat n <= 2 ^ 50)%Z ->
    exists q e,
      (of_Z 100 / of_nat n)%f64 = S754_finite false q e /\
      canonical (S754_finite false q e) /\
      (2 ^ (prec - 1) <= Z.pos q)%Z /\
      (inject_Z (Z.of_nat n) * F2Q (Z.pos q) e
         <= 100 * (1 + (1 # 9007199254740992)))%Q /\
      (100 * (1 - (1 # 9007199254740992))
         <= inject_Z (Z.of_nat n) * F2Q (Z.pos q) e)%Q.
  Proof.
    intros pos small.
    pose proof (eq_refl : (2 ^ 50)%Z = 1125899906842624%Z) as p50.
    pose proof (eq_refl : (2 ^ prec)%Z = 9007199254740992%Z) as p53.
    destruct (@of_nat_finite n pos ltac:(lia)) as (p & e & en & vn & cn).
    set (N := inject_Z (Z.of_nat n)) in *.
    assert (1 <= N)%Q as n1 by (unfold N; rewrite <- (Zle_Qle 1); lia).
    assert (N <= 1125899906842624)%Q as n50
        by (unfold N; rewrite <- (Zle_Qle _ 1125899906842624); lia).
    assert (rounds (100 / N) (of_Z 100 / of_nat n)%f64) as rs.
    { rewrite en, hundred.
      apply (@rounds_ext (F2Q 7036874417766400 (-46) / F2Q (Z.pos p) e)).
      - rewrite hundred_val, vn. reflexivity.
      - apply div_rounds. }
    assert (100 / N * N == 100)%Q as xn by (field; lra).
    set (X := (100 / N)%Q) in *.
    assert (0 < X)%Q as xpos by nra.
    assert (X <= 100)%Q as x100 by nra.
    assert (canonical (of_Z 100)) as c100 by reflexivity.
    assert (val (of_Z 100) == 100)%Q as v100 by reflexivity.
    pose proof (@rounds_below _ _ _ rs c100 ltac:(rewrite v100; exact x100))
      as cs.
    assert (pow2 (-50) <= X)%Q as xlow.
    { change (pow2 (-50)) with (1 # 1125899906842624)%Q. nra. }
    assert (pow2 (emin prec emax + prec - 1) <= X)%Q as normal.
    { apply Qle_trans with (pow2 (-50)); [|exact xlow].
      apply pow2_le. unfold emin, prec, emax. lia. }
    pose proof (@rounds_rel _ _ rs cs normal) as rel.
    unfold ulp_half in rel.
    change (pow2 (- prec)) with (1 # 9007199254740992)%Q in rel.
    destruct (canonical_cases _ cs) as [ez|(q & e' & ef)].
    - rewrite ez in rel. cbn [val] in rel. lra.
    - exists q, e'. rewrite ef in *. cbn [val] in rel.
      split; [reflexivity|]. split; [exact cs|].
      set (S := F2Q (Z.pos q) e') in *.
      split; [|split; nra].
      apply canonical_finite in cs. destruct cs as (lt & _ & [->|norm]);
        trivial.
      exfalso.
      assert (S < pow2 (emin prec emax + prec))%Q as tiny.
      { rewrite <- F2Q_pow2 by (unfold prec; lia). unfold S, F2Q.
        pose proof (pow2_pos (emin prec emax)). rewrite Zlt_Qlt in lt. nra. }
      assert (pow2 (emin prec emax + prec) <= pow2 (-51))%Q as lt51
          by (apply pow2_le; unfold emin, prec, emax; lia).
      change (pow2 (-51)) with (1 # 2251799813685248)%Q in lt51.
      change (pow2 (-50)) with (1 # 1125899906842624)%Q in xlow.
      lra.
  Qed.

  (** With [n] bins over [0, 100], the edge of index [n / 2] is within one
      bin width of 50. *)
Lemma midpoint_edge_near (n : nat) :
    0 < n -> (Z.of_nat n < 2 ^ 50)%Z ->
    exists t,
      index (linspace zero (of_Z 100) (S n)) (n / 2) = Ok t /\
      near_midpoint n t = true.
  Proof.
    intros pos small.
    pose proof (eq_refl : (2 ^ 50)%Z = 1125899906842624%Z) as p50.
    pose proof (eq_refl : (2 ^ prec)%Z = 9007199254740992%Z) as p53.
    assert (n / 2 < n) as lt by (apply Nat.div_lt; lia).
    rewrite (@index_linspace _ _ n (n / 2) lt).
    eexists. split; [reflexivity|].
    change (of_Z 100 - zero)%f64 with (of_Z 100).
    destruct (@step_rounds n pos ltac:(lia)) as (q & e & es & cs & norm & hi & lo).
    unfold near_midpoint. rewrite es.
    set (i := n / 2) in *.
    assert (2 * i <= n <= 2 * i + 1) as half.
    { unfold i. pose proof (Nat.div_mod_eq n 2).
      pose proof (Nat.mod_upper_bound n 2 ltac:(lia)). lia. }
    destruct (@of_nat_exact i ltac:(lia)) as [ci vi].
    set (N := inject_Z (Z.of_nat n)) in *.
    set (I := inject_Z (Z.of_nat i)) in *.
    set (S := F2Q (Z.pos q) e) in *.
    assert (0 < S)%Q as spos by apply val_pos.
    assert (0 <= I)%Q as i0 by (unfold I; rewrite <- (Zle_Qle 0); lia).
    assert (2 * I <= N)%Q as i1.
    { unfold I, N. change 2%Q with (inject_Z 2).
      rewrite <- inject_Z_mult, <- Zle_Qle. lia. }
    assert (N <= 2 * I + 1)%Q as i2.
    { unfold I, N. change 2%Q with (inject_Z 2). change 1%Q with (inject_Z 1).
      rewrite <- inject_Z_mult, <- inject_Z_plus, <- Zle_Qle. lia. }
    assert (N <= 1125899906842624)%Q as n50
        by (unfold N; rewrite <- (Zle_Qle _ 1125899906842624); lia).
    assert (2 * (I * S) <= N * S)%Q as p1 by nra.
    assert (N * S - S <= 2 * (I * S))%Q as p2 by nra.
    assert (N * S <= 1125899906842624 * S)%Q as p3 by nra.
    assert (0 <= I * S)%Q as p4 by nra.
    assert (rounds (I * S) (of_nat i * S754_finite false q e)%f64) as rt.
    { apply (@rounds_ext (val (of_nat i) * F2Q (Z.pos q) e)).
      - rewrite vi. reflexivity.
      - now apply mul_rounds_val. }
    assert (canonical (of_Z 100)) as c100 by reflexivity.
    assert (val (of_Z 100) == 100)%Q as v100 by reflexivity.
    assert (canonical (of_nat i * S754_finite false q e)%f64) as ct.
    { apply (@rounds_below _ _ _ rt c100). rewrite v100. lra. }
    rewrite (@add_zero _ ct).
    set (t := (of_nat i * S754_finite false q e)%f64) in *.
    assert (I * S * (1 - (1 # 9007199254740992)) <= val t
            <= I * S * (1 + (1 # 9007199254740992)))%Q as rel.
    { destruct (Nat.eq_dec i 0) as [z|nz].
      - assert (I * S == 0)%Q as zero
            by (unfold I; rewrite z; cbn [Z.of_nat]; ring).
        assert (t = S754_zero false) as ->
            by exact (@rounds_unique _ _ _ _ zero rt rounds_zero).
        cbn [val]. lra.
      - assert (1 <= I)%Q as i3 by (unfold I; rewrite <- (Zle_Qle 1); lia).
        assert (pow2 (emin prec emax + prec - 1) <= I * S)%Q as normal.
        { apply canonical_finite in cs. destruct cs as (_ & [lo' _] & _).
          apply Qle_trans with S; [|nra].
          apply Qle_trans with (F2Q (2 ^ (prec - 1)) e).
          - rewrite F2Q_pow2 by (unfold prec; lia). apply pow2_le. lia.
          - now apply F2Q_le. }
        pose proof (@rounds_rel _ _ rt ct normal) as rel.
        unfold ulp_half in rel.
        change (pow2 (- prec)) with (1 # 9007199254740992)%Q in rel.
        exact rel. }
    assert (canonical (of_Z 50)) as c50 by reflexivity.
    assert (val (of_Z 50) == 50)%Q as v50 by reflexivity.
    destruct (@sub_abs_rounds t (of_Z 50) ct c50) as (d & dv & dpos & rd).
    rewrite v50 in dv.
    apply (@rounds_mono d S _ _); [|exact rd|exact (rounds_val _ cs)].
    destruct dv as [dv|dv]; rewrite dv; lra.
  Qed.

End Midpoint.

Section PooledHistogram.

Import Order.

Lemma widths_of_counts (hist : list (vec * vec)) (ks : list (list nat))
      (nbins : nat) :
    map fst hist = map (map of_nat) ks ->
    Forall (fun k => length k = nbins) ks ->
    Forall (fun h => length (fst h) = nbins) hist.
  Proof.
    revert ks. induction hist as [|[c e] hist IH]; intros [|k ks] eq widths;
      try discriminate; constructor; cbn [map fst] in eq;
      injection eq as -> eq; inversion widths; subst.
    - cbn [fst]. now rewrite length_map.
    - now apply (IH ks).
  Qed.

  (** C5. Let the histograms of the trials hold the integer counts [ks],
      fewer than [2^50] values in all and at least one.  The cumulative
      percentages computed by the code are those of the running totals of
      the pooled counts, the sums of the trials' counts bin by bin, and
      they do not decrease.  The threshold is the bin edge whose index is
      the number of cumulative percentages that are at most the
      percentile, which is the index of the first bin whose cumulative
      percentage exceeds the percentile.  When the pooled counts are the
      same in every bin and the percentile is 50, the threshold is the
      edge of index [nbins / 2]; with the edges of [nbins] equal bins over
      [0, 100] it is within one bin width of 50. *)
Theorem histogram_threshold_is_bin_edge
      (w : world) (hist_range : float64 * float64) (trials nbins : nat)
      (percentile : float64) (hist : list (vec * vec))
      (ks : list (list nat)) :
    mapM (fun irand => calculate_hist w irand hist_range nbins) (seq 0 trials)
      = Ok hist ->
    map fst hist = map (map of_nat) ks ->
    Forall (fun k => length k = nbins) ks ->
    (Z.of_nat (list_sum (concat ks)) < 2 ^ 50)%Z ->
    0 < list_sum (column_sums ks) ->
    let pooled := column_sums ks in
    let cum := map (percentage (list_sum pooled)) (running pooled) in
    let edges := snd (hd ([], []) hist) in
    cumsum_percentile (pooled_histogram (map fst hist) nbins) = cum /\
    nondecreasing cum = true /\
    surrogates_to_array w hist_range trials nbins percentile
      = index edges (count_upto percentile cum) /\
    (forall k,
        first_index (fun c => (percentile <? c)%f64) cum = Some k ->
        surrogates_to_array w hist_range trials nbins percentile
          = index edges k) /\
    (forall c,
        pooled = repeat c nbins ->
        surrogates_to_array w hist_range trials nbins (of_Z 50)
          = index edges (nbins / 2) /\
        (edges = linspace zero (of_Z 100) (S nbins) ->
         exists thr,
           surrogates_to_array w hist_range trials nbins (of_Z 50) = Ok thr /\
           near_midpoint nbins thr = true)).
  Proof.
    intros gathered counts widths small some pooled cum edges.
    pose proof (eq_refl : (2 ^ 50)%Z = 1125899906842624%Z) as p50.
    pose proof (eq_refl : (2 ^ prec)%Z = 9007199254740992%Z) as p53.
    pose proof (eq_refl : (2 ^ (prec - 1))%Z = 4503599627370496%Z) as p52.
    assert (ks <> []) as ne by (intros ->; cbn in some; lia).
    destruct (@sum_axis0_of_nat ks ltac:(lia)) as [_ bound].
    fold pooled in bound, some.
    assert (cumsum_percentile (pooled_histogram (map fst hist) nbins) = cum)
      as summed.
    { rewrite counts. apply cumsum_percentile_of_nat; trivial. lia. }
    assert (nondecreasing cum = true) as sorted.
    { apply running_from_nondecreasing; trivial; lia. }
    assert (forall p,
               surrogates_to_array w hist_range trials nbins p
               = index edges (count_upto p cum)) as counted.
    { intros p.
      pose proof (@widths_of_counts _ _ _ counts widths) as lens.
      destruct hist as [|[counts0 edges0] rest];
        [destruct ks; [congruence|discriminate]|].
      rewrite (@surrogates_to_array_unfold _ _ _ _ p _ gathered).
      rewrite (@pooled_threshold_unfold _ _ p _ _ _ _ eq_refl
                 (gather_counts lens)).
      now rewrite summed. }
    split; [exact summed|]. split; [exact sorted|].
    split; [apply counted|]. split.
    - intros k first. rewrite counted.
      now rewrite (@count_upto_first_exceeding percentile cum k sorted first).
    - intros c uniform.
      assert (surrogates_to_array w hist_range trials nbins (of_Z 50)
              = index edges (nbins / 2)) as mid.
      { rewrite counted. f_equal. unfold cum. rewrite uniform in *.
        rewrite list_sum_repeat in *.
        apply count_upto_uniform; [nia|lia]. }
      split; [exact mid|]. intros linear.
      rewrite mid, linear. rewrite uniform, list_sum_repeat in some, bound.
      assert (0 < nbins) as some'
          by (destruct nbins; [cbn in some|]; lia).
      assert (0 < c) as cpos
          by (destruct c; [rewrite Nat.mul_0_r in some|]; lia).
      assert (nbins <= nbins * c) as le by nia.
      apply midpoint_edge_near; [exact some'|lia].
  Qed.

End PooledHistogram.

(** ** The null matrix *)

Section NullMatrix.

Lemma nth_error_map2 {A B C} (f : A -> B -> C) (l : list A) (l' : list B) (i : nat) :
    nth_error (map2 f l l') i =
    match nth_error l i, nth_error l' i with
    | Some a, Some b => Some (f a b)
    | _, _ => None
    end.
  Proof.
    revert l' i. induction l as [|a l IH]; intros [|b l'] [|i]; cbn; trivial;
      try apply IH; now destruct (nth_error l i).
  Qed.

Lemma set_col_shape (n k : nat) (c : vec) (m : matrix) :
    rect n m -> length c = length m ->
    rect n (set_col k c m) /\ length (set_col k c m) = length m.
  Proof.
    unfold rect, set_col. intros shape. revert c.
    induction shape as [|row m len _ IH]; intros [|x c] eq;
      cbn in *; try discriminate; [split; auto|].
    destruct (IH c) as [shape' len']; [congruence|].
    split; [|congruence]. constructor; trivial. now rewrite length_upd.
  Qed.

Lemma set_col_entry (n k : nat) (c : vec) (m : matrix) (i j : nat) :
    rect n m -> length c = length m -> k < n ->
    entry (set_col k c m) i j =
    if (j =? k)%nat then nth_error c i else entry m i j.
  Proof.
    intros shape eq lt. unfold entry, set_col. rewrite nth_error_map2.
    unfold matrix, vec in *.
    destruct (nth_error m i) as [row|] eqn:erow.
    - assert (length row = n) as len.
      { unfold rect in shape. rewrite Forall_forall in shape.
        eapply shape, nth_error_In, erow. }
      destruct (nth_error c i) as [x|] eqn:ec.
      + cbv beta iota. rewrite nth_error_upd, len.
        destruct (Nat.ltb_spec k n); [|lia]. reflexivity.
      + apply nth_error_None in ec.
        assert (i < length m) by (apply nth_error_Some; congruence). lia.
    - apply nth_error_None in erow.
      destruct (j =? k)%nat; trivial.
      symmetry. apply nth_error_None. lia.
  Qed.

  (** After the loop, column [j] of the matrix is the RSS vector of trial
      [j - k] for the trials gathered, and is untouched otherwise. *)
Lemma fill_columns_entry (n : nat) (results : list (vec * float64 * float64)) :
    forall (m : matrix) (k : nat),
      rect n m ->
      Forall (fun r => length (fst (fst r)) = length m) results ->
      k + length results <= n ->
      exists m',
        fill_columns m k results = Ok m' /\
        length m' = length m /\
        forall i j,
          entry m' i j =
          if ((k <=? j) && (j <? k + length results))%nat
          then match nth_error results (j - k) with
               | Some r => nth_error (fst (fst r)) i
               | None => None
               end
          else entry m i j.
  Proof.
    induction results as [|[[rs mn] mx] results IH]; intros m k shape lens bound.
    - exists m. split; [reflexivity|]. split; trivial. intros i j.
      cbn [length]. rewrite Nat.add_0_r.
      destruct (Nat.leb_spec k j), (Nat.ltb_spec j k); trivial; lia.
    - apply Forall_cons_iff in lens. destruct lens as [len lens].
      cbn [fill_columns length fst] in *. unfold broadcast_to.
      rewrite len, Nat.eqb_refl. cbn [bind].
      destruct (@set_col_shape n k rs m shape len) as [shape' len'].
      destruct (IH (set_col k rs m) (S k) shape') as (m' & eq & lm & ent).
      { now rewrite len'. }
      { lia. }
      exists m'. split; trivial. split; [congruence|]. intros i j.
      rewrite ent, (@set_col_entry n k rs m i j shape len) by lia.
      destruct (Nat.leb_spec (S k) j), (Nat.ltb_spec j (S k + length results)),
               (Nat.leb_spec k j), (Nat.ltb_spec j (k + S (length results))),
               (Nat.eqb_spec j k);
        cbn [andb]; try lia; trivial.
      + replace (j - k) with (S (j - S k)) by lia. reflexivity.
      + subst j. now rewrite Nat.sub_diag.
  Qed.

Lemma entry_zeros (t n i j : nat) :
    entry (repeat (repeat zero n) t) i j =
    if ((i <? t) && (j <? n))%nat then Some zero else None.
  Proof.
    unfold entry.
    destruct (Nat.ltb_spec i t) as [lt|ge].
    - rewrite (nth_error_nth' (repeat (repeat zero n) t) [])
        by (now rewrite repeat_length).
      rewrite nth_repeat_lt by trivial.
      destruct (Nat.ltb_spec j n) as [lt'|ge'].
      + rewrite (nth_error_nth' (repeat zero n) nan)
          by (now rewrite repeat_length).
        now rewrite nth_repeat_lt.
      + apply nth_error_None. now rewrite repeat_length.
    - cbn [andb].
      rewrite (proj2 (nth_error_None _ _)); [reflexivity|].
      now rewrite repeat_length.
  Qed.

Lemma rect_zeros (t n : nat) : rect n (repeat (repeat zero n) t).
  Proof.
    unfold rect. apply Forall_forall. intros row inr.
    apply repeat_spec in inr. subst row. apply repeat_length.
  Qed.

  (** C6, as the code has it.  For at least one time point and [numrand]
      trials that each return [t] RSS values, the null matrix holds at
      [(i, j)] the value trial [j] returned for time [i], except that in AUC
      mode the whole row of time 0 is zero, for every trial. *)
Theorem null_distribution_entries
      (auc : bool) (t : nat) (results : list (vec * float64 * float64)) :
    0 < t ->
    length results = numrand ->
    Forall (fun r => length (fst (fst r)) = t) results ->
    exists rssr hist_range,
      null_distribution auc t results = Ok (rssr, hist_range) /\
      forall i j r x,
        nth_error results j = Some r ->
        nth_error (fst (fst r)) i = Some x ->
        entry rssr i j = Some (if auc && (i =? 0)%nat then zero else x).
  Proof.
    intros pos ntrials lens. unfold null_distribution.
    destruct (@fill_columns_entry numrand results
                (repeat (repeat zero numrand) t) 0 (rect_zeros t numrand))
      as (m & filled & len & ent).
    { now rewrite repeat_length. }
    { rewrite ntrials. apply le_n. }
    rewrite filled. cbn [bind]. rewrite repeat_length in len.
    assert (forall i j r x,
               nth_error results j = Some r ->
               nth_error (fst (fst r)) i = Some x ->
               entry m i j = Some x) as kept.
    { intros i j r x hr hx. rewrite ent.
      assert (j < length results) by (apply nth_error_Some; congruence).
      destruct (Nat.leb_spec 0 j); [|lia].
      destruct (Nat.ltb_spec j (0 + length results)); [|lia].
      cbn [andb]. now rewrite Nat.sub_0_r, hr. }
    destruct auc.
    - destruct m as [|row0 rows]; [cbn in len; lia|].
      destruct results as [|r0 results']; [discriminate ntrials|].
      cbn [zero_first_row bind map Np.min Np.max].
      eexists. eexists. split; [reflexivity|].
      intros i j r x hr hx. specialize (kept i j r x hr hx).
      destruct i as [|i]; cbn [andb Nat.eqb]; [|exact kept].
      unfold entry in *. cbn [nth_error] in *.
      rewrite nth_error_map, kept. reflexivity.
    - eexists. eexists. split; [reflexivity|]. exact kept.
  Qed.

End NullMatrix.

(** ** Shapes and entries of the z-scored series *)

Section ZScore.

Import Order.

Lemma rect_nth (n : nat) (m : matrix) (i : nat) (row : vec) :
    rect n m -> nth_error m i = Some row -> length row = n.
  Proof.
    unfold rect. rewrite Forall_forall. intros shape e.
    eapply shape, nth_error_In, e.
  Qed.

Lemma rect_map (n : nat) (f : vec -> vec) (m : matrix) :
    (forall row, length row = n -> length (f row) = n) ->
    rect n m -> rect n (map f m).
  Proof.
    unfold rect. intros keep shape. rewrite Forall_map.
    eapply Forall_impl; [|exact shape]. exact keep.
  Qed.

Lemma length_mean_axis0 (n : nat) (a : matrix) :
    a <> [] -> rect n a -> length (mean_axis0 a) = n.
  Proof.
    intros ne shape. unfold mean_axis0. rewrite length_map.
    now apply length_sum_axis0.
  Qed.

Lemma length_std_axis0 (n ddof : nat) (a : matrix) :
    a <> [] -> rect n a -> length (std_axis0 a ddof) = n.
  Proof.
    intros ne shape. unfold std_axis0. rewrite length_map.
    apply length_sum_axis0.
    - destruct a; [congruence|discriminate].
    - apply rect_map; [intros; now rewrite length_map|].
      apply rect_map; trivial. intros row len.
      rewrite length_map2; trivial.
      now rewrite (length_mean_axis0 ne shape).
  Qed.

Lemma isconst_fold_length (n : nat) (first : vec) (rows : matrix) :
    length first = n ->
    rect n rows ->
    forall acc,
      length acc = n ->
      length (fold_left (fun acc row => map2 andb acc (map2 eqb first row)) rows acc) = n.
  Proof.
    intros lf shape.
    induction shape as [|row rows len _ IH]; intros acc la; cbn [fold_left];
      trivial.
    apply IH. rewrite length_map2; trivial.
    rewrite length_map2; congruence.
  Qed.


Lemma length_isconst_axis0 (n : nat) (a : matrix) :
    a <> [] -> rect n a -> length (isconst_axis0 a) = n.
  Proof.
    destruct a as [|first rows]; [congruence|]. intros _ shape.
    pose proof (@rect_nth n (first :: rows) 0 first shape eq_refl) as lf.
    unfold isconst_axis0.
    apply (@isconst_fold_length n first (first :: rows) lf shape).
    now rewrite length_map.
  Qed.



Lemma length_zrow (n : nat) (row mn std : vec) (isconst : list bool) :
    length row = n -> length mn = n -> length std = n -> length isconst = n ->
    length (zrow row mn std isconst) = n.
  Proof.
    revert row mn std isconst.
    induction n as [|n IH]; intros [|x row] [|m mn] [|s std] [|c isc];
      cbn [length zrow]; try discriminate; trivial.
    intros. f_equal. apply IH; congruence.
  Qed.

Lemma zscore_shape (n ddof : nat) (a : matrix) :
    rect n a -> rect n (zscore a ddof) /\ length (zscore a ddof) = length a.
  Proof.
    intros shape. unfold zscore. rewrite length_map. split; trivial.
    destruct a as [|first rows] eqn:ea; [constructor|]. rewrite <- ea in *.
    assert (a <> []) as ne by (rewrite ea; discriminate).
    pose proof (length_isconst_axis0 ne shape) as li.
    apply rect_map; trivial. intros row len.
    apply length_zrow; trivial.
    - now apply length_mean_axis0.
    - rewrite length_map2; [exact li|].
      rewrite li. symmetry. now apply length_std_axis0.
  Qed.

  (** The rule for constant columns is what makes the z-score NaN: the
      rounded mean of three entries 0.1 is not 0.1, so without the rule the
      quotient [(x - mean) / std] would be a finite number. *)
Lemma mean_of_equal_entries_is_rounded :
    let tenth := (of_Z 1 / of_Z 10)%f64 in
    mean_axis0 [[tenth]; [tenth]; [tenth]] <> [tenth] /\
    zscore [[tenth]; [tenth]; [tenth]] 1 = [[nan]; [nan]; [nan]].
  Proof. vm_compute. split; [discriminate|reflexivity]. Qed.

End ZScore.

(** ** Edge series *)

Section EdgeSeries.

Lemma mapM_pure {A B} (f : A -> result B) (g : A -> B) (l : list A) :
    Forall (fun a => f a = Ok (g a)) l -> mapM f l = Ok (map g l).
  Proof.
    induction 1 as [|a l eq _ IH]; [reflexivity|].
    cbn [mapM map]. now rewrite eq, IH.
  Qed.

Lemma edge_product_ok (n : nat) (y : matrix) (u v : list nat) :
    rect n y ->
    Forall (fun j => j < n) u ->
    Forall (fun j => j < n) v ->
    edge_product y u v = Ok (map (edge_row u v) y).
  Proof.
    intros shape hu hv. unfold edge_product. apply mapM_pure.
    eapply Forall_impl; [|exact shape]. cbn beta. intros row len.
    rewrite <- len in hu, hv.
    rewrite (@take_ok _ row u nan hu), (@take_ok _ row v nan hv).
    reflexivity.
  Qed.


Lemma argwhere_from_in (mask : list bool) :
    forall k j, In j (argwhere_from k mask) ->
                k <= j /\ nth_error mask (j - k) = Some true.
  Proof.
    induction mask as [|b mask IH]; intros k j inj; [destruct inj|].
    cbn [argwhere_from] in inj.
    assert (In j (argwhere_from (S k) mask) ->
            k <= j /\ nth_error (b :: mask) (j - k) = Some true) as later.
    { intros h. destruct (IH _ _ h) as [le e]. split; [lia|].
      replace (j - k) with (S (j - S k)) by lia. exact e. }
    destruct b; [|auto].
    destruct inj as [<-|inj]; [|auto].
    split; [lia|]. now rewrite Nat.sub_diag.
  Qed.

Lemma in_map2 {A B C} (f : A -> B -> C) (l : list A) (l' : list B) (c : C) :
    In c (map2 f l l') ->
    exists k a b, nth_error l k = Some a /\ nth_error l' k = Some b /\ c = f a b.
  Proof.
    intros inc. apply In_nth_error in inc. destruct inc as [k e].
    rewrite nth_error_map2 in e.
    destruct (nth_error l k) as [a|] eqn:ea; [|discriminate].
    destruct (nth_error l' k) as [b|] eqn:eb; [|discriminate].
    injection e as <-. eauto 6.
  Qed.

  (** The edges are the pairs [u < v] of nodes. *)
Lemma triu_pairs_inside (n : nat) :
    Forall (fun p => fst p < snd p /\ snd p < n) (argwhere2 (triu_ones n 1)).
  Proof.
    apply Forall_forall. intros [a b] inp. unfold argwhere2 in inp.
    apply in_concat in inp. destruct inp as (l & inl & inp).
    apply in_map2 in inl. destruct inl as (k & i & row & ei & erow & ->).
    apply in_map_iff in inp. destruct inp as (j & [= <- <-] & inj).
    apply argwhere_from_in in inj. destruct inj as [_ ej].
    rewrite Nat.sub_0_r in ej.
    unfold triu_ones in erow, ei.
    rewrite length_map, length_seq in ei.
    assert (k < n /\ i = k) as [ltk ->].
    { assert (k < length (seq 0 n)) as h by (apply nth_error_Some; congruence).
      rewrite length_seq in h. split; trivial.
      rewrite nth_error_seq in ei.
      destruct (Nat.ltb_spec k n); [|lia]. now injection ei as <-. }
    rewrite nth_error_map, nth_error_seq in erow.
    destruct (Nat.ltb_spec k n); [|lia]. cbn [option_map] in erow.
    injection erow as <-.
    rewrite nth_error_map, nth_error_seq in ej.
    destruct (Nat.ltb_spec j n); [|discriminate]. cbn [option_map] in ej.
    injection ej as ej. apply Nat.leb_le in ej.
    cbn [fst snd]. lia.
  Qed.

Lemma calculate_ets_ok (n : nat) (y : matrix) :
    rect n y ->
    exists u v,
      calculate_ets y n = Ok (map (edge_row u v) y, u, v) /\
      Forall (fun j => j < n) u /\ Forall (fun j => j < n) v.
  Proof.
    intros shape. unfold calculate_ets.
    pose proof (triu_pairs_inside n) as inside.
    set (uv := argwhere2 (triu_ones n 1)) in *.
    assert (Forall (fun j => j < n) (map fst uv)) as hu.
    { rewrite Forall_map. eapply Forall_impl; [|exact inside].
      cbn beta. intros; lia. }
    assert (Forall (fun j => j < n) (map snd uv)) as hv.
    { rewrite Forall_map. eapply Forall_impl; [|exact inside].
      cbn beta. intros; lia. }
    exists (map fst uv), (map snd uv).
    rewrite (edge_product_ok shape hu hv). cbn [bind]. auto.
  Qed.

End EdgeSeries.

(** ** Non-finite values *)

Section NonFinite.

Import Order.

Lemma nan_to_num1_finite (x : float64) : is_finite (nan_to_num1 x) = true.
  Proof. destruct x as [s|[|]| |s m e]; reflexivity. Qed.



Lemma rect_nan_to_num (n : nat) (m : matrix) : rect n m -> rect n (nan_to_num m).
  Proof.
    intros shape. unfold nan_to_num. apply rect_map; trivial.
    intros row len. now rewrite length_map.
  Qed.




Lemma entry_nth (m : matrix) (i j : nat) (row : vec) (x : float64) :
    nth_error m i = Some row -> entry m i j = Some x -> nth j row nan = x.
  Proof.
    unfold entry. intros -> e. now apply nth_error_nth.
  Qed.

Lemma entry_inside (n : nat) (m : matrix) (i j : nat) (row : vec) :
    rect n m -> nth_error m i = Some row -> j < n ->
    entry m i j = Some (nth j row nan).
  Proof.
    intros shape e lt. unfold entry. rewrite e.
    apply nth_error_nth'. now rewrite (rect_nth i shape e).
  Qed.


End NonFinite.

(** ** Constant columns *)

Section ConstantColumn.

Lemma ncols_rect (n : nat) (m : matrix) : m <> [] -> rect n m -> ncols m = n.
  Proof.
    destruct m as [|row m]; [congruence|]. intros _ shape.
    exact (rect_nth 0 shape eq_refl).
  Qed.

Lemma standardize_shape (surrprefix : string) (n : nat) (data : matrix) :
    rect n data ->
    rect n (standardize surrprefix data) /\
    length (standardize surrprefix data) = length data.
  Proof.
    intros shape. unfold standardize. destruct (has_AUC surrprefix); [auto|].
    destruct (zscore_shape 1 shape) as [zshape zlen].
    split; [now apply rect_nan_to_num|].
    unfold nan_to_num. now rewrite length_map.
  Qed.






End ConstantColumn.

(** ** Surrogate trials *)

Section SurrogateTrial.

Lemma length_edge_row (u v : list nat) (row : vec) :
    length u = length v -> length (edge_row u v row) = length u.
  Proof.
    intros len. unfold edge_row. rewrite length_map2; now rewrite !length_map.
  Qed.




  (** Without edges, a trial computes an edge series without entries and
      fails when it takes its minimum. *)
Lemma edge_product_no_edges (y : matrix) :
    edge_product y [] [] = Ok (map (fun _ => []) y).
  Proof. unfold edge_product. apply mapM_pure, Forall_forall. reflexivity. Qed.

Lemma concat_no_edges (y : matrix) :
    concat (map (fun _ : vec => @nil float64) y) = [].
  Proof. induction y as [|row y IH]; trivial. Qed.

Lemma roll_columns_narrow (draw : nat -> nat) (n : nat) (z_ts : matrix) :
    z_ts <> [] -> rect n z_ts -> n < 2 ->
    exists zr, roll_columns draw (length z_ts) (seq 0 n) z_ts = Ok zr.
  Proof.
    intros ne shape lt.
    destruct n as [|[|n]]; [now exists z_ts| |lia].
    cbn [seq roll_columns].
    destruct (Nat.eqb_spec (length z_ts) 0) as [e|_];
      [destruct z_ts; [congruence|discriminate]|].
    cbn [bind]. unfold get_col.
    rewrite (mapM_pure (fun row => index row 0) (fun row => nth 0 row nan)).
    - cbn [bind]. eauto.
    - eapply Forall_impl; [|exact shape]. cbn beta. intros row len.
      apply index_ok. lia.
  Qed.

Lemma rss_surr_no_edges
      (w : world) (n : nat) (z_ts : matrix) (surrprefix : string) (irand : nat) :
    z_ts <> [] -> rect n z_ts -> n < 2 ->
    rss_surr w z_ts [] [] surrprefix irand = Raise ValueError.
  Proof.
    intros ne shape lt. unfold rss_surr.
    rewrite (ncols_rect ne shape).
    destruct (negb (surrprefix =? "")%string).
    - cbn [bind]. rewrite edge_product_no_edges. cbn [bind].
      now rewrite concat_no_edges.
    - destruct (roll_columns_narrow (randint w irand) ne shape lt) as [zr ->].
      cbn [bind]. rewrite edge_product_no_edges. cbn [bind].
      now rewrite concat_no_edges.
  Qed.

End SurrogateTrial.

(** ** Inputs with fewer than two nodes *)

Section NarrowInput.

Lemma mapM_raise_head {A B} (f : A -> result B) (a : A) (l : list A) (e : exn) :
    f a = Raise e -> mapM f (a :: l) = Raise e.
  Proof. intros h. cbn [mapM]. now rewrite h. Qed.

Lemma no_edges (n : nat) : n < 2 -> argwhere2 (triu_ones n 1) = [].
  Proof. destruct n as [|[|n]]; [reflexivity|reflexivity|lia]. Qed.

  (** C8, as the code has it.  There is no check of the shape.  For a
      series with at least one time point and fewer than two nodes the
      observed stage runs with an empty list of edges: the edge series has
      no columns and the RSS is zero at every time point.  The run then
      fails with [ValueError] in the first surrogate trial, which takes the
      minimum of an edge series without entries. *)
Theorem narrow_input_fails_in_first_trial
      (w : world) (surrprefix : string) (segments : bool) (n : nat) :
    fit_transform_data w <> [] ->
    rect n (fit_transform_data w) ->
    n < 2 ->
    let z_ts := standardize surrprefix (fit_transform_data w) in
    calculate_ets z_ts (ncols z_ts) = Ok (map (fun _ => []) z_ts, [], []) /\
    root_sum_squares (map (fun _ => []) z_ts) = map (fun _ => zero) z_ts /\
    event_detection w surrprefix segments = Raise ValueError.
  Proof.
    intros ne shape lt. cbv zeta.
    destruct (@standardize_shape surrprefix n _ shape) as [zshape zlen].
    remember (standardize surrprefix (fit_transform_data w)) as z_ts eqn:ez.
    assert (z_ts <> []) as zne.
    { destruct z_ts; [|discriminate].
      destruct (fit_transform_data w); [congruence|discriminate]. }
    assert (calculate_ets z_ts (ncols z_ts) = Ok (map (fun _ => []) z_ts, [], []))
      as observed.
    { unfold calculate_ets. rewrite (ncols_rect zne zshape), (no_edges lt).
      cbn [map]. now rewrite edge_product_no_edges. }
    split; [exact observed|]. split.
    - unfold root_sum_squares, sum_axis1. rewrite !map_map. reflexivity.
    - unfold event_detection. rewrite <- ez, observed. cbn [bind].
      change (seq 0 numrand) with (0 :: seq 1 99).
      rewrite (@mapM_raise_head _ _ _ 0 (seq 1 99) ValueError); [reflexivity|].
      exact (@rss_surr_no_edges w n z_ts surrprefix 0 zne zshape lt).
  Qed.

End NarrowInput.

(** ** Sample runs *)

Section SampleRuns.

  (** C8 fails on the code: a series with a single time point is processed
      to the end, with zero RSS and no peak. *)
Lemma single_time_point_is_processed :
    length (fit_transform_data single_time_point) = 1 /\
    exists out,
      event_detection single_time_point "" true = Ok out /\
      rss out = [zero] /\ idxpeak out = [].
  Proof.
    split; [reflexivity|]. eexists. split; [vm_compute; reflexivity|].
    split; reflexivity.
  Qed.

  (** C6 fails on the code: trial 1 returns RSS 2 for time 0, and the null
      matrix holds 0 there. *)
Lemma zeroing_covers_every_trial :
    exists out r,
      event_detection plain_AUC "AUC_" true = Ok out /\
      rss_surr plain_AUC (fit_transform_data plain_AUC) (u out) (v out) "AUC_" 1
        = Ok r /\
      nth_error (fst (fst r)) 0 = Some (of_Z 2) /\
      entry (rssr out) 0 1 = Some zero /\
      of_Z 2 <> zero.
  Proof.
    eexists. eexists. split; [vm_compute; reflexivity|].
    split; [vm_compute; reflexivity|].
    split; [reflexivity|]. split; [reflexivity|]. discriminate.
  Qed.


  (** C9 fails on the code: with two uniform histograms of four bins over
      [0, 100] every cumulative percentage is below 150, and percentile 150
      returns the last edge, 100, without error. *)
Lemma percentile_150_returns_last_edge :
    forallb (fun c => (c <? of_Z 150)%f64)
            (cumsum_percentile
               (pooled_histogram [repeat (of_Z 1) 4; repeat (of_Z 1) 4] 4))
      = true /\
    surrogates_to_array (uniform_world 1) (zero, of_Z 100) 2 4 (of_Z 150)
      = Ok (of_Z 100) /\
    ~ raises (surrogates_to_array (uniform_world 1) (zero, of_Z 100) 2 4 (of_Z 150)).
  Proof.
    split; [vm_compute; reflexivity|].
    assert (surrogates_to_array (uniform_world 1) (zero, of_Z 100) 2 4 (of_Z 150)
            = Ok (of_Z 100)) as e by (vm_compute; reflexivity).
    split; [exact e|]. rewrite e. intros [x h]. discriminate h.
  Qed.

End SampleRuns.

(** ** Instances of the theorems *)

Section Instances.

Lemma pvalue_is_pooled_fraction_witness :
    nth_error (pvalues sample_rss sample_rssr) 2 =
    Some (fraction (pooled_count sample_rssr 2 (of_Z 2)) (3 * 2)).
  Proof.
    apply pvalue_is_pooled_fraction.
    - repeat constructor.
    - reflexivity.
  Defined.

Lemma pvalue_antitone_witness :
    exists p1 p2 : Q,
      nth_error (pvalues sample_rss sample_rssr) 1 = Some (Some p1) /\
      nth_error (pvalues sample_rss sample_rssr) 2 = Some (Some p2) /\
      Qle p1 p2.
  Proof.
    apply (@pvalue_antitone sample_rss sample_rssr 1 2 (of_Z 3) (of_Z 2)).
    - discriminate.
    - reflexivity.
    - reflexivity.
    - reflexivity.
  Defined.

Lemma segmentation_by_offsets_is_scan_witness :
    map (event_members sample_idx (index_offsets sample_idx))
        (unique (index_offsets sample_idx)) = runs_by_scan sample_idx /\
    maximal_runs sample_idx (runs_by_scan sample_idx) /\
    segment_peaks sample_rss8 sample_idx = scan_peaks sample_rss8 sample_idx /\
    exists peaks,
      segment_peaks sample_rss8 sample_idx = Ok peaks /\
      Forall2 (is_peak sample_rss8) (runs_by_scan sample_idx) peaks.
  Proof.
    apply segmentation_by_offsets_is_scan.
    - unfold increasing, sample_idx. simpl. lia.
    - unfold sample_idx, sample_rss8. simpl. repeat constructor; lia.
  Defined.

Lemma threshold_ets_matrix_entries_witness :
    exists m,
      threshold_ets_matrix sample_ets [0; 2] (of_Z 6) = Ok m /\
      forall r c,
        entry m r c =
        option_map
          (fun x => if mem r [0; 2]
                    then (if (x <? of_Z 6)%f64 then zero else x)
                    else zero)
          (entry sample_ets r c).
  Proof.
    apply threshold_ets_matrix_entries.
    unfold sample_ets. simpl. repeat constructor; lia.
  Defined.

Lemma histogram_threshold_is_bin_edge_witness :
    surrogates_to_array two_sided_surrogates (zero, of_Z 100) 2 2 (of_Z 50)
    = Ok (of_Z 50).
  Proof.
    destruct (@histogram_threshold_is_bin_edge
                two_sided_surrogates (zero, of_Z 100) 2 2 (of_Z 50)
                [([of_nat 2; of_nat 0], linspace zero (of_Z 100) 3);
                 ([of_nat 0; of_nat 2], linspace zero (of_Z 100) 3)]
                [[2; 0]; [0; 2]])
      as (_ & _ & _ & _ & uniform).
    - reflexivity.
    - reflexivity.
    - repeat constructor.
    - simpl. lia.
    - simpl. lia.
    - rewrite (proj1 (uniform 2 eq_refl)). reflexivity.
  Defined.

Lemma percentile_above_mass_gives_last_edge_witness :
    surrogates_to_array (uniform_world 1) (zero, of_Z 100) 2 4 (of_Z 150)
    = Ok (last (linspace zero (of_Z 100) 5) nan).
  Proof.
    apply (@percentile_above_mass_gives_last_edge
             (uniform_world 1) (zero, of_Z 100) 2 4 (of_Z 150)
             (repeat (of_nat 1) 4) (linspace zero (of_Z 100) 5)
             [(repeat (of_nat 1) 4, linspace zero (of_Z 100) 5)]).
    - reflexivity.
    - repeat constructor.
    - reflexivity.
    - apply Forall_forall.
      refine (proj1 (forallb_forall (fun c => (c <=? of_Z 150)%f64) _) _).
      vm_compute. reflexivity.
  Defined.

Lemma null_distribution_entries_witness :
    exists rssr hist_range,
      null_distribution true 2 sample_results = Ok (rssr, hist_range) /\
      forall i j r x,
        nth_error sample_results j = Some r ->
        nth_error (fst (fst r)) i = Some x ->
        entry rssr i j = Some (if true && (i =? 0)%nat then zero else x).
  Proof.
    apply null_distribution_entries.
    - lia.
    - reflexivity.
    - apply Forall_forall. intros r inr.
      apply repeat_spec in inr. subst r. reflexivity.
  Defined.


Lemma narrow_input_fails_in_first_trial_witness :
    event_detection single_node "" true = Raise ValueError.
  Proof.
    refine (proj2 (proj2 (@narrow_input_fails_in_first_trial
                            single_node "" true 1 _ _ _))).
    - discriminate.
    - repeat constructor.
    - lia.
  Defined.


End Instances.


(** * Further properties *)

(** ** The edge index *)

Section EdgeIndex.

Lemma map2_map_diag {A B C} (f : A -> B -> C) (g : A -> B) (l : list A) :
    map2 f l (map g l) = map (fun a => f a (g a)) l.
  Proof.
    induction l as [|a l IH]; [reflexivity|]. cbn [map map2]. now rewrite IH.
  Qed.

Lemma argwhere_from_threshold (a len : nat) :
    forall k,
      argwhere_from k (map (fun j => (a <=? j)%nat) (seq k len)) =
      seq (Nat.max a k) (k + len - Nat.max a k).
  Proof.
    induction len as [|len IH]; intros k.
    - cbn [seq map argwhere_from]. replace (k + 0 - Nat.max a k) with 0 by lia.
      reflexivity.
    - cbn [seq map argwhere_from]. rewrite IH.
      destruct (Nat.leb_spec a k).
      + replace (Nat.max a k) with k by lia.
        replace (Nat.max a (S k)) with (S k) by lia.
        replace (k + S len - k) with (S (S k + len - S k)) by lia.
        reflexivity.
      + replace (Nat.max a (S k)) with (Nat.max a k) by lia.
        f_equal; lia.
  Qed.

Lemma triu_is_edge_pairs (n : nat) : argwhere2 (triu_ones n 1) = edge_pairs n.
  Proof.
    unfold argwhere2, triu_ones, edge_pairs.
    rewrite length_map, length_seq, map2_map_diag, flat_map_concat_map.
    f_equal. apply map_ext. intros a. unfold argwhere.
    rewrite argwhere_from_threshold.
    replace (Nat.max (a + 1) 0) with (S a) by lia.
    repeat f_equal; lia.
  Qed.

Lemma in_edge_pairs (n a b : nat) : In (a, b) (edge_pairs n) <-> a < b < n.
  Proof.
    unfold edge_pairs. rewrite in_flat_map. split.
    - intros (a' & ina & inb). apply in_seq in ina.
      apply in_map_iff in inb. destruct inb as (b' & [= <- <-] & inb).
      apply in_seq in inb. lia.
    - intros lt. exists a. split; [apply in_seq; lia|].
      apply in_map, in_seq. lia.
  Qed.

Lemma length_flat_map_sum {A B} (f : A -> list B) (l : list A) :
    length (flat_map f l) = list_sum (map (fun a => length (f a)) l).
  Proof.
    induction l as [|a l IH]; [reflexivity|].
    cbn [flat_map map list_sum]. now rewrite length_app, IH.
  Qed.

Lemma triangular_sum (n : nat) :
    2 * list_sum (map (fun a => n - S a) (seq 0 n)) = n * (n - 1).
  Proof.
    assert (forall a l, list_sum (a :: l) = a + list_sum l) as cons
        by reflexivity.
    induction n as [|n IH]; [reflexivity|].
    cbn [seq map]. rewrite cons, <- seq_shift, map_map.
    assert (map (fun a => S n - S (S a)) (seq 0 n) =
            map (fun a => n - S a) (seq 0 n)) as -> by (apply map_ext; intros; lia).
    remember (list_sum (map (fun a => n - S a) (seq 0 n))) as s eqn:es.
    clear es. destruct n as [|n]; [lia|].
    replace (S (S n) - 1) with (S n) by lia.
    replace (S n - 1) with n in IH by lia. nia.
  Qed.

Lemma length_edge_pairs (n : nat) : 2 * length (edge_pairs n) = n * (n - 1).
  Proof.
    unfold edge_pairs. rewrite length_flat_map_sum.
    assert (map (fun a => length (map (pair a) (seq (S a) (n - S a)))) (seq 0 n) =
            map (fun a => n - S a) (seq 0 n)) as ->.
    { apply map_ext. intros a. now rewrite length_map, length_seq. }
    apply triangular_sum.
  Qed.

  (** X1. For a series with [n] columns, [calculate_ets] lists the edges
      as the pairs [u < v < n] ordered by [u], then by [v]: every such
      pair once, [n (n - 1) / 2] of them, whatever the values of the
      series. *)
Theorem calculate_ets_edge_index (y : matrix) (n : nat) :
    rect n y ->
    exists ets,
      calculate_ets y n
        = Ok (ets, map fst (edge_pairs n), map snd (edge_pairs n)) /\
      2 * length (edge_pairs n) = n * (n - 1) /\
      forall a b, In (a, b) (edge_pairs n) <-> a < b < n.
  Proof.
    intros shape.
    destruct (calculate_ets_ok shape) as (u & v & eq & _).
    unfold calculate_ets in *. rewrite triu_is_edge_pairs in *.
    destruct (edge_product y _ _) as [ets|]; [|discriminate].
    exists ets. split; [reflexivity|].
    split; [apply length_edge_pairs|apply in_edge_pairs].
  Qed.

  (** X2. Whatever the dtype of the series and its product, the edge
      series has one row per time point and one column per edge, [u] and
      [v] have the same length, and the entry at time [t] for the edge
      [(a, b)] is the product, in that dtype, of the entries of nodes [a]
      and [b] at time [t].  On a [float64] series with the binary64 product
      the function is [calculate_ets]. *)
Theorem calculate_ets_entries
      (T : Type) (times : T -> T -> T) (d : T) (y : list (list T)) (n : nat) :
    Forall (fun row => length row = n) y ->
    (forall (z : matrix) (k : nat),
        calculate_ets_of mul z k = calculate_ets z k) /\
    exists ets u v,
      calculate_ets_of times y n = Ok (ets, u, v) /\
      length ets = length y /\
      Forall (fun row => length row = length u) ets /\
      length v = length u /\
      forall t e row a b,
        nth_error y t = Some row ->
        nth_error u e = Some a ->
        nth_error v e = Some b ->
        entry_of ets t e = Some (times (nth a row d) (nth b row d)).
  Proof.
    intros shape. split; [reflexivity|].
    unfold calculate_ets_of.
    pose proof (triu_pairs_inside n) as inside.
    set (uv := argwhere2 (triu_ones n 1)) in *.
    set (u := map fst uv). set (v := map snd uv).
    assert (Forall (fun j => j < n) u) as hu.
    { unfold u. rewrite Forall_map. eapply Forall_impl; [|exact inside].
      cbn beta. intros; lia. }
    assert (Forall (fun j => j < n) v) as hv.
    { unfold v. rewrite Forall_map. eapply Forall_impl; [|exact inside].
      cbn beta. intros; lia. }
    set (product := fun row : list T =>
           map2 times (map (fun j => nth j row d) u)
                      (map (fun j => nth j row d) v)).
    assert (edge_product_of times y u v = Ok (map product y)) as eq.
    { unfold edge_product_of. apply mapM_pure.
      eapply Forall_impl; [|exact shape]. cbn beta. intros row len.
      rewrite <- len in hu, hv.
      rewrite (@take_ok _ row u d hu), (@take_ok _ row v d hv).
      reflexivity. }
    assert (length v = length u) as len
        by (unfold u, v; now rewrite !length_map).
    rewrite eq. cbn [bind]. exists (map product y), u, v.
    split; [reflexivity|]. split; [apply length_map|].
    split; [|split; [exact len|]].
    - rewrite Forall_map. apply Forall_forall. intros row _. unfold product.
      rewrite length_map2; now rewrite !length_map.
    - intros t e row a b er ea eb. unfold entry_of.
      rewrite nth_error_map, er. cbn [option_map]. unfold product.
      now rewrite nth_error_map2, !nth_error_map, ea, eb.
  Qed.

End EdgeIndex.

(** ** The sign of the RSS *)

Section RssSign.

Lemma round_sign_clear (m e : Z) (l : location) :
    sign_clear (binary_round_aux prec emax false m e l) = true.
  Proof.
    unfold binary_round_aux.
    destruct (shr_fexp prec emax m e l) as [mrs' e'].
    destruct (shr_fexp prec emax _ e' loc_Exact) as [mrs'' e''].
    destruct (shr_m mrs''); trivial.
    now destruct (e'' <=? emax - prec)%Z.
  Qed.

Lemma square_sign_clear (x : float64) : sign_clear (square x) = true.
  Proof.
    destruct x as [s|s| |s m e]; unfold square, mul, SFmul;
      rewrite ?xorb_nilpotent; trivial.
    apply round_sign_clear.
  Qed.

Lemma add_sign_clear (x y : float64) :
    sign_clear x = true -> sign_clear y = true -> sign_clear (x + y)%f64 = true.
  Proof.
    destruct x as [[|]|[|]| |[|] m e], y as [[|]|[|]| |[|] m' e'];
      try discriminate; trivial.
    intros _ _. unfold add, SFadd, cond_Zopp.
    destruct (shl_align m e (Z.min e e')) as [a ea].
    destruct (shl_align m' e' (Z.min e e')) as [b eb].
    cbn [fst Z.add binary_normalize]. unfold binary_round.
    destruct (shl_align _ _ _) as [mz ez]. apply round_sign_clear.
  Qed.

Lemma sum_sign_clear (l : vec) :
    Forall (fun x => sign_clear x = true) l -> sign_clear (Np.sum l) = true.
  Proof.
    destruct l as [|x l]; [reflexivity|]. intros all.
    apply Forall_cons_iff in all. destruct all as [hx all]. cbn [Np.sum].
    revert x hx. induction all as [|y l hy _ IH]; intros x hx; [exact hx|].
    cbn [fold_left]. apply IH. now apply add_sign_clear.
  Qed.

Lemma sqrt_sign_clear (x : float64) :
    sign_clear x = true -> sign_clear (sqrt x) = true.
  Proof.
    destruct x as [[|]|[|]| |[|] m e]; try discriminate; trivial.
    intros _. unfold sqrt, SFsqrt.
    destruct (SFsqrt_core_binary prec emax (Z.pos m) e) as [[mz ez] lz].
    apply round_sign_clear.
  Qed.

Lemma sign_clear_not_below_zero (x : float64) :
    sign_clear x = true -> is_nan x = true \/ (zero <=? x)%f64 = true.
  Proof.
    destruct x as [[|]|[|]| |[|] m e]; try discriminate; auto.
  Qed.

  (** X3. The root sum of squares has one value per time point, and every
      value is NaN or at least 0, whatever the edge series holds. *)
Theorem root_sum_squares_not_negative (ets : matrix) :
    length (root_sum_squares ets) = length ets /\
    forall x, In x (root_sum_squares ets) ->
              is_nan x = true \/ (zero <=? x)%f64 = true.
  Proof.
    unfold root_sum_squares, sum_axis1. split; [now rewrite !length_map|].
    intros x inx. apply sign_clear_not_below_zero.
    rewrite !map_map in inx. apply in_map_iff in inx.
    destruct inx as (row & <- & _).
    apply sqrt_sign_clear, sum_sign_clear.
    rewrite Forall_map. apply Forall_forall. intros y _.
    apply square_sign_clear.
  Qed.

End RssSign.

(** ** Circular shifts of the columns *)

Section Randomization.

Lemma length_roll {A} (a : list A) (k : nat) : length (roll a k) = length a.
  Proof.
    unfold roll. destruct (length a) eqn:e; [exact e|]. rewrite <- e.
    rewrite length_app, length_skipn, length_firstn. lia.
  Qed.

Lemma roll_permutation {A} (a : list A) (k : nat) : Permutation (roll a k) a.
  Proof.
    unfold roll. destruct (length a); [reflexivity|].
    rewrite Permutation_app_comm. now rewrite firstn_skipn.
  Qed.

  (** The value at position [r] moves to position [(r + k) mod t]. *)
Lemma nth_roll {A} (a : list A) (k r : nat) (d : A) :
    r < length a ->
    nth ((r + k) mod length a) (roll a k) d = nth r a d.
  Proof.
    intros lt. unfold roll.
    destruct (length a) as [|t'] eqn:e; [lia|]. rewrite <- e in *.
    set (t := length a) in *.
    assert (k mod t < t) as small by (apply Nat.mod_upper_bound; lia).
    rewrite <- Nat.Div0.add_mod_idemp_r.
    set (k' := k mod t) in *.
    assert (length (skipn (t - k') a) = k') as ls
        by (rewrite length_skipn; fold t; lia).
    destruct (Nat.lt_ge_cases (r + k') t) as [inside | wraps].
    - rewrite Nat.mod_small by trivial.
      rewrite app_nth2 by lia. rewrite ls, nth_firstn.
      replace (r + k' - k') with r by lia.
      destruct (Nat.ltb_spec r (t - k')); [reflexivity|lia].
    - assert ((r + k') mod t = r + k' - t) as ->.
      { symmetry. apply (Nat.mod_unique _ _ 1); lia. }
      rewrite app_nth1 by lia. rewrite nth_skipn. f_equal. lia.
  Qed.

Lemma get_col_ok (n i : nat) (m : matrix) :
    rect n m -> i < n -> get_col i m = Ok (column i m).
  Proof.
    intros shape lt. unfold get_col, column. apply mapM_pure.
    eapply Forall_impl; [|exact shape]. cbn beta. intros row len.
    apply index_ok. lia.
  Qed.

Lemma nth_upd {A} (k j : nat) (x d : A) (l : list A) :
    nth j (upd k x l) d =
    if ((j =? k) && (k <? length l))%nat then x else nth j l d.
  Proof.
    revert k j. induction l as [|y l IH]; intros [|k] [|j];
      cbn [upd nth length]; trivial;
      try (now rewrite andb_false_r); rewrite IH; reflexivity.
  Qed.

Lemma column_set_col (n k j : nat) (c : vec) (m : matrix) :
    rect n m -> length c = length m -> k < n ->
    column j (set_col k c m) = if (j =? k)%nat then c else column j m.
  Proof.
    unfold column, set_col, rect. intros shape. revert c.
    induction shape as [|row m len _ IH]; intros [|x c] eq lt;
      cbn [length] in eq; try discriminate.
    - now destruct (j =? k)%nat.
    - cbn [map2 map]. rewrite IH by (congruence || trivial).
      rewrite nth_upd, len.
      destruct (Nat.ltb_spec k n); [|lia].
      rewrite andb_true_r. now destruct (j =? k)%nat.
  Qed.

Lemma length_column (i : nat) (m : matrix) : length (column i m) = length m.
  Proof. apply length_map. Qed.

Lemma roll_columns_spec (draw : nat -> nat) (n t : nat) (cols : list nat) :
    t <> 0 ->
    NoDup cols ->
    Forall (fun i => i < n) cols ->
    forall zr,
      rect n zr -> length zr = t ->
      exists zr',
        roll_columns draw t cols zr = Ok zr' /\
        rect n zr' /\ length zr' = t /\
        forall j, column j zr' =
                  if mem j cols then roll (column j zr) (draw j) else column j zr.
  Proof.
    intros pos nodup inside.
    induction inside as [|i cols lt _ IH]; intros zr shape len.
    - exists zr. auto.
    - apply NoDup_cons_iff in nodup. destruct nodup as [fresh nodup].
      cbn [roll_columns].
      destruct (Nat.eqb_spec t 0); [contradiction|]. cbn [bind].
      rewrite (get_col_ok shape lt). cbn [bind].
      set (c := roll (column i zr) (draw i)).
      assert (length c = length zr) as lc
          by (unfold c; now rewrite length_roll, length_column).
      destruct (@set_col_shape n i c zr shape lc) as [shape' len'].
      destruct (IH nodup (set_col i c zr) shape') as (zr' & eq & s & l & cols').
      { congruence. }
      exists zr'. split; [exact eq|]. split; [exact s|]. split; [exact l|].
      intros j. rewrite cols', (@column_set_col n i j c zr shape lc lt).
      cbn [mem existsb]. fold (mem j cols).
      destruct (Nat.eqb_spec j i) as [->|ne]; cbn [orb]; [|reflexivity].
      destruct (mem i cols) eqn:mi; [|reflexivity].
      exfalso. apply fresh. unfold mem in mi. apply existsb_exists in mi.
      destruct mi as (i' & ini & e). apply Nat.eqb_eq in e. now subst i'.
  Qed.

  (** X4. The randomization loop never fails on a series with at least one
      time point: it keeps the shape, and rolls every column on its own by
      its draw, so that the value of node [j] at time [r] moves to time
      [(r + k) mod t] and each column keeps its values. *)
Theorem roll_columns_shifts_each_column
      (draw : nat -> nat) (n : nat) (z_ts : matrix) :
    z_ts <> [] ->
    rect n z_ts ->
    exists zr,
      roll_columns draw (length z_ts) (seq 0 n) z_ts = Ok zr /\
      rect n zr /\ length zr = length z_ts /\
      forall j, j < n ->
        column j zr = roll (column j z_ts) (draw j) /\
        Permutation (column j zr) (column j z_ts) /\
        forall r, r < length z_ts ->
          nth ((r + draw j) mod length z_ts) (column j zr) nan =
          nth r (column j z_ts) nan.
  Proof.
    intros ne shape.
    destruct (@roll_columns_spec draw n (length z_ts) (seq 0 n)) with (zr := z_ts)
      as (zr & eq & s & l & cols); trivial.
    { destruct z_ts; [congruence|discriminate]. }
    { apply seq_NoDup. }
    { apply Forall_forall. intros i ini. apply in_seq in ini. lia. }
    exists zr. split; [exact eq|]. split; [exact s|]. split; [exact l|].
    intros j lt.
    assert (column j zr = roll (column j z_ts) (draw j)) as rolled.
    { rewrite cols. replace (mem j (seq 0 n)) with true; [reflexivity|].
      symmetry. apply existsb_exists. exists j.
      split; [apply in_seq; lia|apply Nat.eqb_refl]. }
    split; [exact rolled|]. rewrite rolled.
    split; [apply roll_permutation|].
    intros r lr. rewrite <- (length_column j z_ts). apply nth_roll.
    now rewrite length_column.
  Qed.

End Randomization.

(** ** Candidate time points *)

Section Candidates.

Lemma argwhere_from_complete (mask : list bool) :
    forall k j, nth_error mask j = Some true -> In (k + j) (argwhere_from k mask).
  Proof.
    induction mask as [|b mask IH]; intros k [|j] e; try discriminate.
    - cbn in e. injection e as ->. rewrite Nat.add_0_r. now left.
    - cbn [nth_error] in e. cbn [argwhere_from].
      replace (k + S j) with (S k + j) by lia.
      destruct b; [right|]; now apply IH.
  Qed.

Lemma argwhere_iff (mask : list bool) (t : nat) :
    In t (argwhere mask) <-> nth_error mask t = Some true.
  Proof.
    unfold argwhere. split.
    - intros h. apply argwhere_from_in in h. destruct h as [_ h].
      now rewrite Nat.sub_0_r in h.
    - intros h. exact (argwhere_from_complete mask 0 t h).
  Qed.

Lemma mean_ltb_pcrit (mask : list bool) :
    mean_ltb (mean_mask mask) pcrit = true <->
    1000 * count_occ bool_dec mask true < length mask.
  Proof.
    unfold mean_mask, mean_ltb, pcrit.
    destruct (length mask) as [|k]; [split; [discriminate|lia]|].
    unfold Qle_bool. cbn [Qnum Qden]. rewrite negb_true_iff, Z.leb_gt.
    rewrite Zpos_P_of_succ_nat. lia.
  Qed.

Lemma candidate_iff (rss : vec) (rssr : matrix) (t : nat) :
    In t (candidates (pvalues rss rssr)) <->
    exists x, nth_error rss t = Some x /\
              1000 * count_at_least rssr x < length (concat rssr).
  Proof.
    unfold candidates. rewrite argwhere_iff, nth_error_map.
    unfold pvalues. rewrite nth_error_map. unfold count_at_least.
    destruct (nth_error rss t) as [x|]; cbn [option_map].
    - split.
      + intros [= h]. apply mean_ltb_pcrit in h. rewrite length_map in h.
        eauto.
      + intros (x' & [= <-] & h). f_equal. apply mean_ltb_pcrit.
        now rewrite length_map.
    - split; [discriminate|]. intros (x & e & _). discriminate.
  Qed.

  (** X5. A time point is a candidate exactly when 1000 times the number
      of pooled surrogate values at least its RSS is below the size of the
      pool; and every p-value lies between 0 and 1. *)
Theorem candidates_by_count (rss : vec) (rssr : matrix) :
    (forall t,
        In t (candidates (pvalues rss rssr)) <->
        exists x, nth_error rss t = Some x /\
                  1000 * count_at_least rssr x < length (concat rssr)) /\
    (forall t p, nth_error (pvalues rss rssr) t = Some (Some p) ->
                 Qle (Qmake 0 1) p /\ Qle p (Qmake 1 1)).
  Proof.
    split; [intros t; apply candidate_iff|].
    intros t p e. unfold pvalues in e. rewrite nth_error_map in e.
    destruct (nth_error rss t) as [x|]; [|discriminate].
    cbn [option_map] in e. injection e as e. unfold mean_mask in e.
    set (mask := map (fun y => (y >=? x)%f64) (concat rssr)) in *.
    pose proof (count_occ_bound bool_dec true mask) as bound.
    destruct (length mask) as [|k]; [discriminate|]. injection e as <-.
    unfold Qle. cbn [Qnum Qden]. rewrite Zpos_P_of_succ_nat. lia.
  Qed.

  (** X6. A time point whose observed RSS is NaN always is a candidate,
      as soon as the pool is not empty: no surrogate value compares as at
      least NaN, so its p-value is 0. *)
Theorem nan_rss_is_candidate (rss : vec) (rssr : matrix) (t : nat) (x : float64) :
    nth_error rss t = Some x ->
    is_nan x = true ->
    concat rssr <> [] ->
    nth_error (pvalues rss rssr) t = Some (Some (Qmake 0 (Pos.of_nat (length (concat rssr))))) /\
    In t (candidates (pvalues rss rssr)).
  Proof.
    intros e isn ne.
    destruct x as [s|s| |s m ex]; try discriminate.
    assert (count_at_least rssr S754_nan = 0) as zero_count.
    { unfold count_at_least. clear ne.
      induction (concat rssr) as [|y l IH]; [reflexivity|exact IH]. }
    split.
    - rewrite (pvalues_nth _ rssr _ e), mean_mask_fraction, length_map.
      unfold count_at_least in zero_count. rewrite zero_count.
      destruct (length (concat rssr)) as [|k] eqn:el.
      + destruct (concat rssr); [congruence|discriminate].
      + unfold fraction. now rewrite Pos.of_nat_succ.
    - apply candidate_iff. exists S754_nan. split; [exact e|].
      rewrite zero_count. destruct (concat rssr); [congruence|cbn; lia].
  Qed.

End Candidates.

(** ** The stages of a run that returns *)

Section Stages.

Ltac inv_bind H :=
    match type of H with
    | bind ?c _ = Ok _ =>
        let e := fresh "e" in
        destruct c eqn:e; cbn [bind] in H; [|discriminate H]
    end.

Lemma event_detection_inv
      (w : world) (surrprefix : string) (segments : bool) (out : detection) :
    event_detection w surrprefix segments = Ok out ->
    let z_ts := standardize surrprefix (fit_transform_data w) in
    let idx := candidates (pvalues (rss out) (rssr out)) in
    calculate_ets z_ts (ncols z_ts) = Ok (ets out, u out, v out) /\
    rss out = root_sum_squares (ets out) /\
    (exists results hist_range,
        mapM (rss_surr w z_ts (u out) (v out) surrprefix) (seq 0 numrand)
          = Ok results /\
        null_distribution (has_AUC surrprefix) (length z_ts) results
          = Ok (rssr out, hist_range) /\
        match hist_range with
        | Some hr =>
            exists thr m,
              surrogates_to_array w hr numrand 500 (of_Z 95) = Ok thr /\
              threshold_ets_matrix (ets out) (idxpeak out) thr = Ok m /\
              ets_thr out = Some m
        | None => ets_thr out = None
        end) /\
    (if segments then segment_peaks (rss out) idx else Ok idx)
      = Ok (idxpeak out) /\
    (exists tspeaks,
        take z_ts (idxpeak out) = Ok tspeaks /\
        edge_product tspeaks (u out) (v out) = Ok (etspeaks out)) /\
    mu out = nanmean_axis0 (length (u out)) (etspeaks out).
  Proof.
    unfold event_detection. intros h.
    set (z_ts := standardize surrprefix (fit_transform_data w)) in *.
    inv_bind h. destruct a as [[ets0 u0] v0].
    inv_bind h. rename a into results.
    inv_bind h. destruct a as [rssr0 hist_range].
    inv_bind h. rename a into idxpeak0.
    inv_bind h. rename a into tspeaks.
    inv_bind h. rename a into etspeaks0.
    inv_bind h. rename a into thr0.
    injection h as <-. cbn [ets rss rssr idxpeak etspeaks mu ets_thr u v].
    cbv zeta. split; [reflexivity|]. split; [reflexivity|].
    split; [|split; [assumption|split; [eauto|reflexivity]]].
    exists results, hist_range. split; [assumption|]. split; [assumption|].
    destruct hist_range as [hr|].
    - match goal with H : bind _ _ = Ok thr0 |- _ => rename H into ht end.
      inv_bind ht. inv_bind ht. injection ht as <-. eauto.
    - match goal with H : Ok None = Ok thr0 |- _ => now injection H as <- end.
  Qed.

Lemma mapM_inv {A B} (f : A -> result B) (l : list A) (bs : list B) :
    mapM f l = Ok bs -> Forall2 (fun a b => f a = Ok b) l bs.
  Proof.
    revert bs. induction l as [|a l IH]; intros bs h; cbn [mapM] in h.
    - injection h as <-. constructor.
    - destruct (f a) as [b|] eqn:e; cbn [bind] in h; [|discriminate].
      destruct (mapM f l) as [bs'|]; cbn [bind] in h; [|discriminate].
      injection h as <-. constructor; auto.
  Qed.

Lemma Forall2_nth_error {A B} (R : A -> B -> Prop) (l : list A) (l' : list B) :
    Forall2 R l l' ->
    forall i a, nth_error l i = Some a ->
                exists b, nth_error l' i = Some b /\ R a b.
  Proof.
    induction 1 as [|a b l l' r _ IH]; intros [|i] a' e; try discriminate.
    - injection e as <-. exists b. auto.
    - now apply IH.
  Qed.

Lemma increasing_from_weaken (idx : list nat) (lo lo' : nat) :
    lo' <= lo -> increasing_from lo idx -> increasing_from lo' idx.
  Proof. destruct idx; cbn; [trivial|]. intros le [h inc]. split; [lia|trivial]. Qed.

Lemma increasing_from_app (l1 l2 : list nat) :
    forall lo p,
      increasing_from lo (l1 ++ l2) -> In p l1 ->
      lo <= p /\ increasing_from (S p) l2.
  Proof.
    induction l1 as [|i l1 IH]; intros lo p inc inp; [destruct inp|].
    cbn in inc. destruct inc as [le inc]. destruct inp as [->|inp].
    - split; [exact le|]. clear IH le.
      revert p inc. induction l1 as [|j l1 IH]; intros p inc; [exact inc|].
      cbn in inc. destruct inc as [le inc].
      apply (increasing_from_weaken l2 (lo := S j)); [lia|]. now apply IH.
    - destruct (IH (S i) p inc inp) as [le' inc']. split; [lia|exact inc'].
  Qed.

  (** One member of every run, taken run by run, is an increasing list. *)
Lemma members_of_runs_increasing (runs : list (list nat)) (peaks : list nat) :
    Forall2 (fun run p => In p run) runs peaks ->
    forall lo, increasing_from lo (concat runs) -> increasing_from lo peaks.
  Proof.
    induction 1 as [|run p runs peaks inp _ IH]; intros lo inc; [exact I|].
    cbn [concat] in inc.
    destruct (increasing_from_app run (concat runs) lo p inc inp) as [le inc'].
    split; [exact le|]. now apply IH.
  Qed.

Lemma segment_peaks_spec (rss : vec) (idx : list nat) :
    increasing idx ->
    Forall (fun i => i < length rss) idx ->
    exists peaks,
      segment_peaks rss idx = Ok peaks /\
      Forall2 (is_peak rss) (runs_by_scan idx) peaks.
  Proof.
    intros inc inside.
    pose proof (@groups_are_runs idx 0 0 inc) as groups.
    rewrite <- index_offsets_from in groups.
    assert (segment_peaks rss idx = mapM (run_peak rss) (runs_by_scan idx)) as ->.
    { rewrite <- groups, mapM_map. reflexivity. }
    apply mapM_Forall2.
    eapply Forall_impl; [|exact (runs_members_inside inside)].
    cbn beta. intros run [ne ins]. now apply run_peak_spec.
  Qed.

  (** X7. When a run with segmentation returns, its peaks are the
      candidates of largest observed RSS, one for every maximal run of
      consecutive candidate time points, in increasing order of time. *)
Theorem segmented_peaks_of_a_run
      (w : world) (surrprefix : string) (out : detection) :
    event_detection w surrprefix true = Ok out ->
    let idx := candidates (pvalues (rss out) (rssr out)) in
    Forall2 (is_peak (rss out)) (runs_by_scan idx) (idxpeak out) /\
    maximal_runs idx (runs_by_scan idx) /\
    increasing (idxpeak out) /\
    Forall (fun p => In p idx) (idxpeak out).
  Proof.
    intros h idx. destruct (event_detection_inv _ _ _ h) as (_ & _ & _ & ep & _).
    fold idx in ep. cbv zeta in ep.
    destruct (candidates_increasing (rss out) (rssr out)) as [inc inside].
    fold idx in inc, inside.
    destruct (@segment_peaks_spec (rss out) idx inc inside) as (peaks & eq & all).
    rewrite eq in ep. injection ep as <-.
    destruct (runs_by_scan_maximal idx) as [maxi _].
    split; [exact all|]. split; [exact maxi|].
    destruct maxi as (cat & _ & _).
    assert (Forall2 (fun run p => In p run) (runs_by_scan idx) peaks) as members.
    { eapply Forall2_impl; [|exact all]. cbn beta. intros run p [inp _]. exact inp. }
    split.
    - apply (members_of_runs_increasing members). now rewrite cat.
    - rewrite <- cat. clear - members.
      induction members as [|run p runs peaks inp _ IH]; constructor.
      + cbn [concat]. apply in_or_app. now left.
      + eapply Forall_impl; [|exact IH]. cbn beta. intros q inq.
        cbn [concat]. apply in_or_app. now right.
  Qed.

  (** X8. When a run without segmentation returns, its peaks are all the
      candidate time points: those for which 1000 times the number of
      pooled surrogate values at least the observed RSS is below the size
      of the pool. *)
Theorem unsegmented_peaks_of_a_run
      (w : world) (surrprefix : string) (out : detection) :
    event_detection w surrprefix false = Ok out ->
    idxpeak out = candidates (pvalues (rss out) (rssr out)) /\
    increasing (idxpeak out) /\
    forall t,
      In t (idxpeak out) <->
      exists x, nth_error (rss out) t = Some x /\
                1000 * count_at_least (rssr out) x < length (concat (rssr out)).
  Proof.
    intros h. destruct (event_detection_inv _ _ _ h) as (_ & _ & _ & ep & _).
    cbv zeta in ep. injection ep as ep.
    split; [now symmetry|]. rewrite <- ep.
    split; [apply candidates_increasing|]. intros t. apply candidate_iff.
  Qed.

End Stages.

(** ** Co-fluctuation at the peaks *)

Section PeakRows.

Lemma edge_product_rows (y : matrix) (u v : list nat) (e : matrix) :
    edge_product y u v = Ok e ->
    Forall2 (fun row erow =>
               (yu <- take row u ;; yv <- take row v ;; Ok (map2 mul yu yv))
               = Ok erow) y e.
  Proof. intros h. exact (mapM_inv _ _ h). Qed.

Lemma Forall2_length_eq {A B} (R : A -> B -> Prop) (l : list A) (l' : list B) :
    Forall2 R l l' -> length l = length l'.
  Proof. induction 1; cbn; congruence. Qed.

  (** X9. When a run returns, the co-fluctuation at the peaks has one row
      per peak, and that row is the row of the edge series at the time
      point of the peak; the mean co-fluctuation has one value per edge. *)
Theorem peak_rows_of_a_run
      (w : world) (surrprefix : string) (segments : bool) (out : detection) :
    event_detection w surrprefix segments = Ok out ->
    length (etspeaks out) = length (idxpeak out) /\
    length (mu out) = length (u out) /\
    forall k p,
      nth_error (idxpeak out) k = Some p ->
      exists row,
        nth_error (etspeaks out) k = Some row /\
        nth_error (ets out) p = Some row.
  Proof.
    intros h.
    destruct (event_detection_inv _ _ _ h)
      as (ec & _ & _ & _ & (tspeaks & et & ep) & em).
    cbv zeta in ec.
    set (z_ts := standardize surrprefix (fit_transform_data w)) in *.
    unfold calculate_ets in ec.
    destruct (edge_product z_ts _ _) as [ets0|] eqn:ee; [|discriminate].
    cbn [bind] in ec. injection ec as e1 e2 e3. rewrite e2, e3 in ee.
    apply edge_product_rows in ee, ep. unfold take in et.
    apply mapM_inv in et.
    split; [|split].
    - transitivity (length tspeaks); symmetry;
        [exact (Forall2_length_eq ep)|exact (Forall2_length_eq et)].
    - rewrite em. unfold nanmean_axis0. now rewrite length_map, length_seq.
    - intros k p ek.
      destruct (Forall2_nth_error et _ ek) as (row & er & ei).
      destruct (Forall2_nth_error ep _ er) as (erow & eer & prod).
      exists erow. split; [exact eer|].
      unfold index in ei. destruct (nth_error z_ts p) as [row'|] eqn:ez;
        [|discriminate].
      injection ei as ->.
      destruct (Forall2_nth_error ee _ ez) as (erow' & eer' & prod').
      cbv beta in prod, prod'. rewrite prod in prod'. injection prod' as <-.
      now rewrite <- e1.
  Qed.

Lemma entry_map_map (f : float64 -> float64) (m : matrix) (r c : nat) :
    entry (map (map f) m) r c = option_map f (entry m r c).
  Proof.
    unfold entry. rewrite nth_error_map. unfold matrix, vec in *.
    destruct (nth_error m r) as [row|]; cbn [option_map]; trivial.
    apply nth_error_map.
  Qed.

Lemma map_const_repeat {A B} (b : B) (l : list A) :
    map (fun _ => b) l = repeat b (length l).
  Proof. induction l as [|a l IH]; [reflexivity|]. cbn. now rewrite IH. Qed.

  (** X12. When a run returns and no time point is a candidate, there is
      no peak and no row of co-fluctuation, the mean co-fluctuation is NaN
      for every edge, and the thresholded edge matrix of AUC mode is zero
      everywhere. *)
Theorem run_without_candidates
      (w : world) (surrprefix : string) (segments : bool) (out : detection) :
    event_detection w surrprefix segments = Ok out ->
    candidates (pvalues (rss out) (rssr out)) = [] ->
    idxpeak out = [] /\
    etspeaks out = [] /\
    mu out = repeat nan (length (u out)) /\
    forall m, ets_thr out = Some m ->
              length m = length (ets out) /\
              forall r c x, entry m r c = Some x -> x = zero.
  Proof.
    intros h none.
    destruct (event_detection_inv _ _ _ h)
      as (_ & _ & (results & hr & _ & _ & ethr) & epk & (tspeaks & et & ep) & em).
    cbv zeta in epk. rewrite none in epk.
    assert (idxpeak out = []) as nopeak
        by (destruct segments; cbn in epk; now injection epk as <-).
    rewrite nopeak in *. cbn in et. injection et as <-.
    cbn in ep. injection ep as ep. rewrite <- ep in em.
    split; [reflexivity|]. split; [now symmetry|]. split.
    - rewrite em. unfold nanmean_axis0.
      change (fun e : nat => nanmean (map (fun row => nth e row nan) []))
        with (fun _ : nat => nan).
      now rewrite map_const_repeat, length_seq.
    - intros m em'. destruct hr as [hr|]; [|congruence].
      destruct ethr as (thr & m' & _ & et' & em'').
      assert (m' = m) as -> by congruence.
      unfold threshold_ets_matrix in et'. cbn in et'. injection et' as <-.
      split; [now rewrite !length_map|].
      intros r c x. rewrite !entry_map_map.
      destruct (entry (ets out) r c); cbn [option_map]; [|discriminate].
      intros [= <-]. now destruct (zero <? thr)%f64.
  Qed.

End PeakRows.

(** ** Assembly of the null matrix *)

Section Assembly.

Lemma broadcast_to_spread (t : nat) (x : vec) :
    length x = t \/ length x = 1 ->
    broadcast_to t x = Ok (spread t x) /\ length (spread t x) = t.
  Proof.
    unfold broadcast_to, spread. intros ok.
    destruct (Nat.eqb_spec (length x) t) as [e|ne]; [auto|].
    destruct ok as [e|e]; [contradiction|].
    destruct x as [|c [|d x]]; try discriminate.
    cbn [hd]. now rewrite repeat_length.
  Qed.

Lemma broadcast_to_mismatch (t : nat) (x : vec) :
    length x <> t -> length x <> 1 -> broadcast_to t x = Raise ValueError.
  Proof.
    unfold broadcast_to. intros ne ne1.
    destruct (Nat.eqb_spec (length x) t); [contradiction|].
    destruct x as [|c [|d x]]; trivial. now contradiction ne1.
  Qed.

Lemma broadcast_to_cases (t : nat) (x : vec) :
    (exists c, broadcast_to t x = Ok c /\ length c = t) \/
    broadcast_to t x = Raise ValueError.
  Proof.
    destruct (Nat.eq_dec (length x) t) as [e|ne].
    - left. exists (spread t x). apply broadcast_to_spread. auto.
    - destruct (Nat.eq_dec (length x) 1) as [e1|ne1].
      + left. exists (spread t x). apply broadcast_to_spread. auto.
      + right. now apply broadcast_to_mismatch.
  Qed.

Lemma length_set_col (k : nat) (c : vec) (m : matrix) :
    length c = length m -> length (set_col k c m) = length m.
  Proof. intros e. unfold set_col. now rewrite length_map2. Qed.

Lemma fill_columns_mismatch (results : list (vec * float64 * float64)) :
    forall (m : matrix) (k : nat),
      Exists (fun r => length (fst (fst r)) <> length m /\
                       length (fst (fst r)) <> 1) results ->
      fill_columns m k results = Raise ValueError.
  Proof.
    induction results as [|[[rs mn] mx] results IH]; intros m k bad.
    - inversion bad.
    - cbn [fill_columns fst].
      apply Exists_cons in bad. destruct bad as [[ne ne1] | bad].
      + cbn [fst] in ne, ne1.
        now rewrite (@broadcast_to_mismatch (length m) rs ne ne1).
      + destruct (broadcast_to_cases (length m) rs) as [(c & -> & lc) | ->];
          [|reflexivity].
        cbn [bind]. apply IH. now rewrite length_set_col.
  Qed.

Lemma fill_columns_spread (n : nat) (results : list (vec * float64 * float64)) :
    forall (m : matrix) (k : nat),
      rect n m ->
      Forall (fun r => length (fst (fst r)) = length m \/
                       length (fst (fst r)) = 1) results ->
      k + length results <= n ->
      exists m',
        fill_columns m k results = Ok m' /\
        length m' = length m /\
        rect n m' /\
        forall i j,
          entry m' i j =
          if ((k <=? j) && (j <? k + length results))%nat
          then match nth_error results (j - k) with
               | Some r => nth_error (spread (length m) (fst (fst r))) i
               | None => None
               end
          else entry m i j.
  Proof.
    induction results as [|[[rs mn] mx] results IH]; intros m k shape lens bound.
    - exists m. split; [reflexivity|]. split; [reflexivity|]. split; [exact shape|].
      intros i j. cbn [length]. rewrite Nat.add_0_r.
      destruct (Nat.leb_spec k j), (Nat.ltb_spec j k); trivial; lia.
    - apply Forall_cons_iff in lens. destruct lens as [len lens].
      cbn [fill_columns length fst] in *.
      destruct (@broadcast_to_spread (length m) rs len) as [-> lc]. cbn [bind].
      set (c := spread (length m) rs) in *.
      destruct (@set_col_shape n k c m shape lc) as [shape' len'].
      destruct (IH (set_col k c m) (S k) shape') as (m' & eq & lm & sm & ent).
      { now rewrite len'. }
      { lia. }
      exists m'. split; [exact eq|]. split; [congruence|]. split; [exact sm|].
      intros i j.
      rewrite ent, (@set_col_entry n k c m i j shape lc) by lia.
      rewrite len'.
      destruct (Nat.leb_spec (S k) j), (Nat.ltb_spec j (S k + length results)),
               (Nat.leb_spec k j), (Nat.ltb_spec j (k + S (length results))),
               (Nat.eqb_spec j k);
        cbn [andb]; try lia; trivial.
      + replace (j - k) with (S (j - S k)) by lia. reflexivity.
      + subst j. now rewrite Nat.sub_diag.
  Qed.

  (** X10. A trial that returns a single RSS value is accepted whatever
      the number of time points: its value fills the whole column of the
      null matrix (time 0 excepted in AUC mode, where it is zeroed), and
      the matrix has [t] rows and [numrand] columns. *)
Theorem null_distribution_broadcasts_single_value
      (auc : bool) (t : nat) (results : list (vec * float64 * float64)) :
    0 < t ->
    length results = numrand ->
    Forall (fun r => length (fst (fst r)) = t \/ length (fst (fst r)) = 1) results ->
    exists rssr hist_range,
      null_distribution auc t results = Ok (rssr, hist_range) /\
      length rssr = t /\
      rect numrand rssr /\
      forall i j c mn mx,
        i < t ->
        nth_error results j = Some ([c], mn, mx) ->
        entry rssr i j = Some (if auc && (i =? 0)%nat then zero else c).
  Proof.
    intros pos ntrials lens. unfold null_distribution.
    destruct (@fill_columns_spread numrand results
                (repeat (repeat zero numrand) t) 0 (rect_zeros t numrand))
      as (m & filled & len & shape & ent).
    { now rewrite repeat_length. }
    { rewrite ntrials. apply le_n. }
    rewrite filled. cbn [bind]. rewrite repeat_length in len, ent.
    assert (forall i j c mn mx,
               i < t -> nth_error results j = Some ([c], mn, mx) ->
               entry m i j = Some c) as kept.
    { intros i j c mn mx li hr. rewrite ent.
      assert (j < length results) by (apply nth_error_Some; congruence).
      destruct (Nat.leb_spec 0 j); [|lia].
      destruct (Nat.ltb_spec j (0 + length results)); [|lia].
      cbn [andb]. rewrite Nat.sub_0_r, hr. cbn [fst]. unfold spread.
      cbn [length hd]. destruct (Nat.eqb_spec 1 t) as [<-|ne].
      - destruct i; [reflexivity|lia].
      - rewrite (nth_error_nth' _ nan) by (now rewrite repeat_length).
        now rewrite nth_repeat_lt. }
    destruct auc.
    - destruct m as [|row0 rows] eqn:em; [cbn in len; lia|].
      destruct results as [|r0 results']; [discriminate ntrials|].
      cbn [zero_first_row bind map Np.min Np.max].
      eexists. eexists. split; [reflexivity|]. split; [exact len|].
      split.
      + unfold rect in *. apply Forall_cons_iff in shape.
        destruct shape as [l0 shape]. constructor; trivial.
        now rewrite length_map.
      + intros i j c mn mx li hr. specialize (kept i j c mn mx li hr).
        destruct i as [|i]; cbn [andb Nat.eqb]; [|exact kept].
        unfold entry in *. cbn [nth_error] in *.
        rewrite nth_error_map, kept. reflexivity.
    - eexists. eexists. split; [reflexivity|]. split; [exact len|].
      split; [exact shape|exact kept].
  Qed.

  (** X11. A trial whose RSS vector has neither [t] values nor a single
      one makes the assembly of the null matrix fail with [ValueError]. *)
Theorem null_distribution_rejects_other_lengths
      (auc : bool) (t : nat) (results : list (vec * float64 * float64)) :
    Exists (fun r => length (fst (fst r)) <> t /\ length (fst (fst r)) <> 1)
           results ->
    null_distribution auc t results = Raise ValueError.
  Proof.
    intros bad. unfold null_distribution.
    rewrite fill_columns_mismatch; [reflexivity|].
    now rewrite repeat_length.
  Qed.

End Assembly.

(** ** The mask of [debiasing] *)

Section Mask.

Lemma in_argwhere2 (m : list (list bool)) (i j : nat) :
    In (i, j) (argwhere2 m) <->
    exists row, nth_error m i = Some row /\ nth_error row j = Some true.
  Proof.
    unfold argwhere2. rewrite in_concat. split.
    - intros (l & inl & inp). apply in_map2 in inl.
      destruct inl as (k & a & row & ea & erow & ->).
      apply in_map_iff in inp. destruct inp as (j' & [= ei ej] & inj).
      subst a j'. apply argwhere_iff in inj.
      assert (k < length (seq 0 (length m))) as lt
          by (apply nth_error_Some; congruence).
      rewrite length_seq in lt. rewrite nth_error_seq in ea.
      destruct (Nat.ltb_spec k (length m)); [|lia].
      injection ea as ea. cbn in ea. subst k. eauto.
    - intros (row & erow & ej).
      exists (map (pair i) (argwhere row)). split.
      + apply (nth_error_In _ i). rewrite nth_error_map2, erow.
        assert (i < length m) as lt by (apply nth_error_Some; congruence).
        rewrite nth_error_seq. destruct (Nat.ltb_spec i (length m)); [|lia].
        reflexivity.
      + apply in_map. now apply argwhere_iff.
  Qed.

Lemma in_where_nonzero (mtx : matrix) (t e : nat) :
    In (t, e) (where_nonzero mtx) <->
    exists x, entry mtx t e = Some x /\ nonzero x = true.
  Proof.
    unfold where_nonzero. rewrite in_argwhere2. unfold entry.
    rewrite nth_error_map. unfold matrix, vec in *.
    destruct (nth_error mtx t) as [row|]; cbn [option_map].
    - split.
      + intros (brow & [= <-] & h). rewrite nth_error_map in h.
        destruct (nth_error row e) as [x|]; [|discriminate].
        injection h as h. eauto.
      + intros (x & ex & nz). eexists. split; [reflexivity|].
        now rewrite nth_error_map, ex, <- nz.
    - split; [intros (? & ? & _); discriminate|intros (? & ? & _); discriminate].
  Qed.

Lemma set_entry_spec (n r c : nat) (x : float64) (m : matrix) :
    rect n m -> r < length m -> c < n ->
    exists m',
      set_entry m r c x = Ok m' /\
      rect n m' /\ length m' = length m /\
      forall t k,
        entry m' t k =
        if ((t =? r) && (k =? c))%nat then Some x else entry m t k.
  Proof.
    intros shape lr lc. unfold set_entry. unfold matrix, vec in *.
    destruct (nth_error m r) as [row|] eqn:er;
      [|apply nth_error_None in er; lia].
    unfold index. rewrite er. cbn [bind].
    pose proof (rect_nth r shape er) as len. rewrite len.
    destruct (Nat.ltb_spec c n); [|lia].
    eexists. split; [reflexivity|]. split; [|split].
    - unfold rect in *. apply Forall_forall. intros row' inr.
      apply In_nth_error in inr. destruct inr as [i ei].
      rewrite nth_error_upd in ei. revert ei.
      destruct (Nat.eqb_spec i r) as [eq|ne].
      + intros ei. rewrite (proj2 (Nat.ltb_lt _ _) lr) in ei.
        injection ei as ei. subst row'. now rewrite length_upd.
      + intros ei. rewrite Forall_forall in shape.
        eapply shape, nth_error_In, ei.
    - apply length_upd.
    - intros t k. unfold entry. rewrite nth_error_upd.
      unfold matrix, vec in *.
      destruct (Nat.eqb_spec t r) as [->|ne]; cbn [andb].
      + rewrite (proj2 (Nat.ltb_lt _ _) lr).
        rewrite nth_error_upd, len, (proj2 (Nat.ltb_lt _ _) lc), er.
        reflexivity.
      + reflexivity.
  Qed.

Lemma mark_edges_spec (n : nat) (idx_u idx_v : list nat) (idxs : list (nat * nat)) :
    Forall (fun a => a < n) idx_u ->
    Forall (fun b => b < n) idx_v ->
    length idx_v = length idx_u ->
    forall ets_mask,
      rect n ets_mask ->
      Forall (fun p => fst p < length ets_mask /\ snd p < length idx_u) idxs ->
      exists mask,
        mark_edges ets_mask idx_u idx_v idxs = Ok mask /\
        rect n mask /\ length mask = length ets_mask /\
        forall t k,
          entry mask t k =
          option_map (fun x => if marked idx_u idx_v idxs t k then of_Z 1 else x)
                     (entry ets_mask t k).
  Proof.
    intros hu hv luv. rewrite Forall_forall in hu, hv.
    induction idxs as [|[time_idx edge_idx] idxs IH]; intros m shape inside.
    - exists m. split; [reflexivity|]. split; [exact shape|]. split; [reflexivity|].
      intros t k. cbn. now destruct (entry m t k).
    - apply Forall_cons_iff in inside. destruct inside as [[lt le] inside].
      cbn [fst snd] in lt, le. cbn [mark_edges].
      destruct (nth_error idx_u edge_idx) as [a|] eqn:ea;
        [|apply nth_error_None in ea; lia].
      destruct (nth_error idx_v edge_idx) as [b|] eqn:eb;
        [|apply nth_error_None in eb; lia].
      pose proof (hu a (nth_error_In _ _ ea)) as la.
      pose proof (hv b (nth_error_In _ _ eb)) as lb.
      unfold index at 1. rewrite ea. cbn [bind].
      destruct (@set_entry_spec n time_idx a (of_Z 1) m shape lt la)
        as (m1 & -> & s1 & l1 & e1).
      cbn [bind]. unfold index at 1. rewrite eb. cbn [bind].
      assert (time_idx < length m1) as lt1 by lia.
      destruct (@set_entry_spec n time_idx b (of_Z 1) m1 s1 lt1 lb)
        as (m2 & -> & s2 & l2 & e2).
      cbn [bind].
      destruct (IH m2 s2) as (mask & eq & s & l & ent).
      { eapply Forall_impl; [|exact inside]. cbn beta. intros p [? ?].
        split; [lia|trivial]. }
      exists mask. split; [exact eq|]. split; [exact s|]. split; [lia|].
      intros t k. rewrite ent, e2, e1.
      cbn [marked existsb fst snd]. fold (marked idx_u idx_v idxs t k).
      rewrite ea, eb.
      assert (entry m t k = None -> (t =? time_idx)%nat && (k =? a)%nat = false)
        as absent_a.
      { intros none. destruct (Nat.eqb_spec t time_idx) as [->|]; trivial.
        destruct (Nat.eqb_spec k a) as [->|]; trivial.
        destruct (nth_error m time_idx) as [row|] eqn:er;
          [|apply nth_error_None in er; lia].
        rewrite (@entry_inside n m time_idx a row shape er la) in none.
        discriminate. }
      assert (entry m t k = None -> (t =? time_idx)%nat && (k =? b)%nat = false)
        as absent_b.
      { intros none. destruct (Nat.eqb_spec t time_idx) as [->|]; trivial.
        destruct (Nat.eqb_spec k b) as [->|]; trivial.
        destruct (nth_error m time_idx) as [row|] eqn:er;
          [|apply nth_error_None in er; lia].
        rewrite (@entry_inside n m time_idx b row shape er lb) in none.
        discriminate. }
      rewrite (Nat.eqb_sym time_idx t), (Nat.eqb_sym a k), (Nat.eqb_sym b k).
      destruct (entry m t k) as [x|].
      + destruct (t =? time_idx)%nat, (k =? a)%nat, (k =? b)%nat,
                 (marked idx_u idx_v idxs t k); reflexivity.
      + rewrite absent_a, absent_b by reflexivity. reflexivity.
  Qed.

Lemma marked_iff (idx_u idx_v : list nat) (idxs : list (nat * nat)) (t n : nat) :
    marked idx_u idx_v idxs t n = true <->
    exists e, In (t, e) idxs /\
              (nth_error idx_u e = Some n \/ nth_error idx_v e = Some n).
  Proof.
    unfold marked. rewrite existsb_exists. split.
    - intros ([t' e] & inp & h). cbn [fst snd] in h.
      apply andb_prop in h. destruct h as [et h].
      apply Nat.eqb_eq in et. subst t'.
      exists e. split; trivial. apply orb_prop in h.
      destruct h as [h|h]; [left|right].
      + destruct (nth_error idx_u e); [|discriminate].
        apply Nat.eqb_eq in h. congruence.
      + destruct (nth_error idx_v e); [|discriminate].
        apply Nat.eqb_eq in h. congruence.
    - intros (e & inp & h). exists (t, e). split; trivial. cbn [fst snd].
      rewrite Nat.eqb_refl. cbn [andb].
      destruct h as [-> | ->]; rewrite Nat.eqb_refl;
        [reflexivity|apply orb_true_r].
  Qed.

Lemma marked_active (mtx : matrix) (idx_u idx_v : list nat) (t n : nat) :
    marked idx_u idx_v (where_nonzero mtx) t n = true <->
    active mtx idx_u idx_v t n.
  Proof.
    rewrite marked_iff. unfold active. split.
    - intros (e & inp & h). apply in_where_nonzero in inp.
      destruct inp as (x & ex & nz). eauto.
    - intros (e & x & ex & nz & h). exists e. split; trivial.
      apply in_where_nonzero. eauto.
  Qed.

Lemma entry_some_inside (n : nat) (m : matrix) (t e : nat) (x : float64) :
    rect n m -> entry m t e = Some x -> t < length m /\ e < n.
  Proof.
    intros shape h. unfold entry in h. unfold matrix, vec in *.
    destruct (nth_error m t) as [row|] eqn:er; [|discriminate].
    split.
    - apply nth_error_Some. congruence.
    - rewrite <- (rect_nth t shape er). apply nth_error_Some. congruence.
  Qed.

Lemma significant_mask_spec
      (n e : nat) (data mtx : matrix) (idx_u idx_v : list nat) :
    rect n data -> rect e mtx -> length mtx <= length data ->
    length idx_u = e -> length idx_v = e ->
    Forall (fun a => a < n) idx_u -> Forall (fun b => b < n) idx_v ->
    exists ets_mask,
      significant_mask data mtx idx_u idx_v = Ok ets_mask /\
      rect n ets_mask /\ length ets_mask = length data /\
      forall t k,
        t < length data -> k < n ->
        entry ets_mask t k =
        Some (if marked idx_u idx_v (where_nonzero mtx) t k
              then of_Z 1 else zero).
  Proof.
    intros sd sm lm lu lv hu hv. unfold significant_mask.
    assert (rect n (map (map (fun _ : float64 => zero)) data)) as sz.
    { apply rect_map; trivial. intros row len. now rewrite length_map. }
    destruct (@mark_edges_spec n idx_u idx_v (where_nonzero mtx) hu hv
                ltac:(congruence) (map (map (fun _ : float64 => zero)) data) sz)
      as (mask & eq & s & l & ent).
    { apply Forall_forall. intros [t k] inp. cbn [fst snd].
      apply in_where_nonzero in inp. destruct inp as (x & ex & _).
      destruct (@entry_some_inside e mtx t k x sm ex).
      rewrite length_map. unfold matrix, vec in *. lia. }
    exists mask. split; [exact eq|]. split; [exact s|].
    split; [now rewrite l, length_map|].
    intros t k lt lk. rewrite ent, entry_map_map.
    destruct (nth_error data t) as [row|] eqn:er;
      [|apply nth_error_None in er; lia].
    rewrite (@entry_inside n data t k row sd er lk). cbn [option_map].
    now destruct (marked _ _ _ t k).
  Qed.

  (** X13. With a thresholded matrix no longer than the data and edge
      lists that index its columns by nodes of the data, [debiasing] hands
      [debiasing_spike] a mask of the shape of the data whose entry at
      time [t] and node [k] is 1 when [k] is an end of an edge that is not
      zero at time [t], and 0 otherwise. *)
Theorem debiasing_mask_marks_edge_ends
      (debiasing_spike : matrix -> matrix -> matrix * matrix)
      (n e : nat) (data mtx : matrix) (idx_u idx_v : list nat) :
    rect n data -> rect e mtx -> length mtx <= length data ->
    length idx_u = e -> length idx_v = e ->
    Forall (fun a => a < n) idx_u -> Forall (fun b => b < n) idx_v ->
    exists ets_mask,
      debiasing debiasing_spike data mtx idx_u idx_v
        = Ok (debiasing_spike data ets_mask) /\
      rect n ets_mask /\ length ets_mask = length data /\
      forall t k,
        t < length data -> k < n ->
        (active mtx idx_u idx_v t k -> entry ets_mask t k = Some (of_Z 1)) /\
        (~ active mtx idx_u idx_v t k -> entry ets_mask t k = Some zero).
  Proof.
    intros sd sm lm lu lv hu hv.
    destruct (@significant_mask_spec n e data mtx idx_u idx_v sd sm lm lu lv hu hv)
      as (mask & eq & s & l & ent).
    exists mask. unfold debiasing. rewrite eq. cbn [bind].
    split; [reflexivity|]. split; [exact s|]. split; [exact l|].
    intros t k lt lk. rewrite (ent t k lt lk).
    pose proof (marked_active mtx idx_u idx_v t k) as iff.
    destruct (marked idx_u idx_v (where_nonzero mtx) t k).
    - split; [reflexivity|]. intros no. destruct no. now apply iff.
    - split; [|reflexivity]. intros yes. apply iff in yes. discriminate.
  Qed.

Lemma set_entry_cases (n r c : nat) (x : float64) (m : matrix) :
    rect n m ->
    (r < length m /\ c < n /\
     exists m', set_entry m r c x = Ok m' /\ rect n m' /\ length m' = length m) \/
    ((length m <= r \/ n <= c) /\ set_entry m r c x = Raise IndexError).
  Proof.
    intros shape.
    destruct (Nat.lt_ge_cases r (length m)) as [lr|lr].
    - destruct (Nat.lt_ge_cases c n) as [lc|lc].
      + left. split; [exact lr|]. split; [exact lc|].
        destruct (@set_entry_spec n r c x m shape lr lc)
          as (m' & eq & s & l & _). eauto.
      + right. split; [now right|]. unfold set_entry, index.
        unfold matrix, vec in *.
        destruct (nth_error m r) as [row|] eqn:er;
          [|apply nth_error_None in er; lia].
        cbn [bind]. rewrite (rect_nth r shape er).
        destruct (Nat.ltb_spec c n); [lia|reflexivity].
    - right. split; [now left|]. unfold set_entry.
      now rewrite (@index_raise _ m r lr).
  Qed.

Lemma mark_edges_raises (n : nat) (idx_u idx_v : list nat) (len : nat)
      (idxs : list (nat * nat)) :
    Exists (fun p =>
              len <= fst p \/
              length idx_u <= snd p \/ length idx_v <= snd p \/
              (exists a, nth_error idx_u (snd p) = Some a /\ n <= a) \/
              (exists b, nth_error idx_v (snd p) = Some b /\ n <= b)) idxs ->
    forall ets_mask,
      rect n ets_mask -> length ets_mask = len ->
      mark_edges ets_mask idx_u idx_v idxs = Raise IndexError.
  Proof.
    induction idxs as [|[time_idx edge_idx] idxs IH]; intros bad m shape lm.
    - inversion bad.
    - cbn [mark_edges].
      destruct (Nat.lt_ge_cases edge_idx (length idx_u)) as [lu|lu];
        [|now rewrite (@index_raise _ idx_u edge_idx lu)].
      rewrite (@index_ok _ idx_u edge_idx 0 lu). cbn [bind].
      destruct (@set_entry_cases n time_idx (nth edge_idx idx_u 0) (of_Z 1) m shape)
        as [(lt & la & m1 & -> & s1 & l1)|[_ ->]]; [|reflexivity].
      cbn [bind].
      destruct (Nat.lt_ge_cases edge_idx (length idx_v)) as [lv|lv];
        [|now rewrite (@index_raise _ idx_v edge_idx lv)].
      rewrite (@index_ok _ idx_v edge_idx 0 lv). cbn [bind].
      destruct (@set_entry_cases n time_idx (nth edge_idx idx_v 0) (of_Z 1) m1 s1)
        as [(lt1 & lb & m2 & -> & s2 & l2)|[_ ->]]; [|reflexivity].
      cbn [bind]. apply IH; [|exact s2|lia].
      apply Exists_cons in bad. destruct bad as [bad|bad]; [|exact bad].
      exfalso. cbn [fst snd] in bad.
      destruct bad as [h|[h|[h|[(a & ea & h)|(b & eb & h)]]]]; try lia.
      + rewrite (nth_error_nth _ _ 0 ea) in la. lia.
      + rewrite (nth_error_nth _ _ 0 eb) in lb. lia.
  Qed.

  (** X14. [debiasing] raises [IndexError] as soon as the thresholded
      matrix has an entry that is not zero at a time point outside the
      data, in a column without an entry in [idx_u] or [idx_v], or on an
      edge with an end outside the nodes of the data. *)
Theorem debiasing_index_error
      (debiasing_spike : matrix -> matrix -> matrix * matrix)
      (n : nat) (data mtx : matrix) (idx_u idx_v : list nat)
      (t e : nat) (x : float64) :
    rect n data ->
    entry mtx t e = Some x -> nonzero x = true ->
    length data <= t \/
    length idx_u <= e \/ length idx_v <= e \/
    (exists a, nth_error idx_u e = Some a /\ n <= a) \/
    (exists b, nth_error idx_v e = Some b /\ n <= b) ->
    debiasing debiasing_spike data mtx idx_u idx_v = Raise IndexError.
  Proof.
    intros sd ex nz bad. unfold debiasing, significant_mask.
    rewrite (@mark_edges_raises n idx_u idx_v (length data) (where_nonzero mtx));
      [reflexivity| |apply rect_map; trivial; intros; now rewrite length_map
       |apply length_map].
    apply Exists_exists. exists (t, e). split; [|exact bad].
    apply in_where_nonzero. eauto.
  Qed.

Lemma calculate_ets_shape
      (n : nat) (y ets0 : matrix) (u0 v0 : list nat) :
    rect n y -> calculate_ets y n = Ok (ets0, u0, v0) ->
    length ets0 = length y /\ rect (length u0) ets0 /\
    length v0 = length u0 /\
    Forall (fun a => a < n) u0 /\ Forall (fun b => b < n) v0.
  Proof.
    intros shape eq.
    destruct (@calculate_ets_ok n y shape) as (u1 & v1 & eq1 & hu & hv).
    rewrite eq1 in eq. injection eq as <- <- <-.
    assert (length v1 = length u1) as len.
    { unfold calculate_ets in eq1.
      destruct (edge_product y _ _); [|discriminate].
      injection eq1 as _ <- <-. now rewrite !length_map. }
    split; [apply length_map|]. split; [|auto].
    unfold rect. rewrite Forall_map. apply Forall_forall. intros row _.
    now apply length_edge_row.
  Qed.

Lemma thresholded_entry
      (ets_matrix : matrix) (selected_idxs : list nat) (thr : float64)
      (m : matrix) :
    threshold_ets_matrix ets_matrix selected_idxs thr = Ok m ->
    forall r c,
      entry m r c =
      option_map
        (fun x => if mem r selected_idxs
                  then (if (x <? thr)%f64 then zero else x)
                  else zero)
        (entry ets_matrix r c).
  Proof.
    intros eq.
    destruct (Forall_Exists_dec (fun i => i < length ets_matrix)
                (fun i => lt_dec i (length ets_matrix)) selected_idxs)
      as [inside|outside].
    - unfold threshold_ets_matrix in eq.
      rewrite (@take_ok _ ets_matrix selected_idxs [] inside) in eq.
      cbn [bind] in eq. injection eq as <-.
      intros r c. unfold entry.
      rewrite nth_error_map, assign_rows_nth; trivial.
      2: now rewrite length_map.
      rewrite nth_error_map.
      unfold matrix, vec in *.
      destruct (nth_error ets_matrix r) as [row|], (mem r selected_idxs);
        cbv beta iota delta [option_map]; trivial.
      + now rewrite nth_error_map.
      + rewrite !nth_error_map.
        destruct (nth_error row c); cbn [option_map]; trivial.
        now destruct (zero <? thr)%f64.
    - rewrite threshold_ets_matrix_raises in eq; [discriminate|].
      eapply Exists_impl; [|exact outside]. cbn beta. intros i. lia.
  Qed.

Lemma thresholded_shape
      (e : nat) (ets_matrix : matrix) (selected_idxs : list nat) (thr : float64)
      (m : matrix) :
    rect e ets_matrix ->
    threshold_ets_matrix ets_matrix selected_idxs thr = Ok m ->
    rect e m /\ length m = length ets_matrix.
  Proof.
    intros shape eq.
    pose proof (@thresholded_entry ets_matrix selected_idxs thr m eq) as ent.
    assert (length m = length ets_matrix) as len.
    { unfold threshold_ets_matrix in eq.
      destruct (take ets_matrix selected_idxs) as [sel|]; [|discriminate].
      cbn [bind] in eq. injection eq as <-.
      rewrite length_map.
      assert (forall idxs rows (a : matrix),
                 length (assign_rows a idxs rows) = length a) as la.
      { induction idxs as [|i idxs IH]; intros [|r rows] a; cbn; trivial.
        now rewrite IH, length_upd. }
      now rewrite la, length_map. }
    split; [|exact len].
    apply Forall_forall. intros row inr.
    apply In_nth_error in inr. destruct inr as [r er].
    unfold matrix, vec in *.
    assert (r < length ets_matrix) as lr
        by (rewrite <- len; apply nth_error_Some; congruence).
    destruct (nth_error ets_matrix r) as [row0|] eqn:er0;
      [|apply nth_error_None in er0; lia].
    pose proof (rect_nth r shape er0) as l0.
    apply Nat.le_antisymm.
    - apply Nat.nlt_ge. intros lt.
      pose proof (ent r e) as h. unfold entry in h.
      unfold matrix, vec in *. rewrite er, er0 in h.
      rewrite (proj2 (nth_error_None row0 e)) in h by lia.
      cbn [option_map] in h. apply nth_error_None in h. lia.
    - apply Nat.nlt_ge. intros lt.
      assert (e - 1 < e) as le by lia.
      pose proof (ent r (e - 1)) as h. unfold entry in h.
      unfold matrix, vec in *. rewrite er, er0 in h.
      destruct (nth_error row0 (e - 1)) eqn:e0;
        [|apply nth_error_None in e0; lia].
      cbn [option_map] in h.
      assert (nth_error row (e - 1) = None) as none
          by (apply nth_error_None; lia).
      congruence.
  Qed.

Lemma mem_In (r : nat) (idxs : list nat) : mem r idxs = true <-> In r idxs.
  Proof.
    unfold mem. rewrite existsb_exists. split.
    - intros (x & inx & e). apply Nat.eqb_eq in e. now subst x.
    - intros inr. exists r. split; [exact inr|apply Nat.eqb_refl].
  Qed.

  (** X15. After a run in AUC mode, [debiasing] on data of the shape of
      the run's series, the thresholded edge matrix and the edge lists of
      the run returns, and the mask it hands to [debiasing_spike] is zero
      at every time point that is not a peak of the run. *)
Theorem debiasing_marks_peaks_only
      (debiasing_spike : matrix -> matrix -> matrix * matrix)
      (w : world) (surrprefix : string) (segments : bool) (out : detection)
      (mtx : matrix) (n : nat) (data : matrix) :
    event_detection w surrprefix segments = Ok out ->
    ets_thr out = Some mtx ->
    fit_transform_data w <> [] ->
    rect n (fit_transform_data w) ->
    rect n data -> length data = length (fit_transform_data w) ->
    exists ets_mask,
      debiasing debiasing_spike data mtx (u out) (v out)
        = Ok (debiasing_spike data ets_mask) /\
      forall t k,
        t < length data -> k < n -> ~ In t (idxpeak out) ->
        entry ets_mask t k = Some zero.
  Proof.
    intros run thr_some nonempty sw sd ld.
    destruct (@event_detection_inv w surrprefix segments out run)
      as (ce & _ & (results & hr & _ & _ & ht) & _).
    destruct (@standardize_shape surrprefix n (fit_transform_data w) sw) as [sz lz].
    set (z_ts := standardize surrprefix (fit_transform_data w)) in *.
    assert (z_ts <> []) as nz.
    { intros e0. rewrite e0 in lz. destruct (fit_transform_data w);
        [now apply nonempty|discriminate]. }
    rewrite (@ncols_rect n z_ts nz sz) in ce.
    destruct (@calculate_ets_shape n z_ts (ets out) (u out) (v out) sz ce)
      as (le & se & lv & hu & hv).
    destruct hr as [hr|]; [|congruence].
    destruct ht as (thr & m & _ & et & em).
    assert (m = mtx) by congruence. subst m.
    destruct (@thresholded_shape (length (u out)) (ets out) (idxpeak out) thr mtx
                se et) as [sm lm].
    destruct (@significant_mask_spec n (length (u out)) data mtx (u out) (v out)
                sd sm ltac:(lia) eq_refl lv hu hv)
      as (mask & eq & _ & _ & ent).
    exists mask. unfold debiasing. rewrite eq. cbn [bind].
    split; [reflexivity|].
    intros t k lt lk notpeak. rewrite (ent t k lt lk).
    destruct (marked (u out) (v out) (where_nonzero mtx) t k) eqn:mk; trivial.
    exfalso. apply marked_iff in mk. destruct mk as (e & inp & _).
    apply in_where_nonzero in inp. destruct inp as (x & ex & nzx).
    rewrite (@thresholded_entry (ets out) (idxpeak out) thr mtx et) in ex.
    destruct (mem t (idxpeak out)) eqn:mt.
    - apply notpeak. now apply mem_In.
    - destruct (entry (ets out) t e); cbn [option_map] in ex; [|discriminate].
      injection ex as <-. discriminate.
  Qed.

End Mask.

(** ** What a run returns *)

Section Outputs.

Lemma fill_columns_shape (n : nat) (results : list (vec * float64 * float64)) :
    forall (m m' : matrix) (k : nat),
      rect n m -> fill_columns m k results = Ok m' ->
      rect n m' /\ length m' = length m.
  Proof.
    induction results as [|[[rs mn] mx] results IH]; intros m m' k shape h;
      cbn [fill_columns fst] in h.
    - injection h as <-. auto.
    - destruct (broadcast_to_cases (length m) rs) as [(c & e & lc) | e];
        rewrite e in h; cbn [bind] in h; [|discriminate].
      destruct (@set_col_shape n k c m shape lc) as [s l].
      destruct (IH _ _ _ s h) as [s' l']. split; [exact s'|congruence].
  Qed.

Lemma null_distribution_shape
      (auc : bool) (t : nat) (results : list (vec * float64 * float64))
      (rssr0 : matrix) (hist_range : option (float64 * float64)) :
    null_distribution auc t results = Ok (rssr0, hist_range) ->
    rect numrand rssr0 /\ length rssr0 = t /\
    (if auc then hist_range <> None else hist_range = None).
  Proof.
    unfold null_distribution. intros h.
    destruct (fill_columns _ 0 results) as [m|] eqn:ef; cbn [bind] in h;
      [|discriminate].
    destruct (@fill_columns_shape numrand results _ m 0 (rect_zeros t numrand) ef)
      as [s l].
    rewrite repeat_length in l.
    destruct auc.
    - destruct m as [|row0 rows]; cbn [zero_first_row bind] in h; [discriminate|].
      destruct (Np.min _); cbn [bind] in h; [|discriminate].
      destruct (Np.max _); cbn [bind] in h; [|discriminate].
      injection h as <- <-. split; [|split; [exact l|discriminate]].
      apply Forall_cons_iff in s. destruct s as [s0 s].
      constructor; [now rewrite length_map|exact s].
    - injection h as <- <-. auto.
  Qed.

Lemma peaks_are_candidates (segments : bool) (rss0 : vec) (rssr0 : matrix)
      (peaks : list nat) :
    (if segments then segment_peaks rss0 (candidates (pvalues rss0 rssr0))
     else Ok (candidates (pvalues rss0 rssr0))) = Ok peaks ->
    Forall (fun p => p < length rss0) peaks.
  Proof.
    intros ep.
    destruct (candidates_increasing rss0 rssr0) as [inc inside].
    destruct segments; [|now injection ep as <-].
    set (idx := candidates (pvalues rss0 rssr0)) in *.
    destruct (@segment_peaks_spec rss0 idx inc inside) as (peaks' & eq & all).
    rewrite eq in ep. injection ep as <-.
    destruct (runs_by_scan_maximal idx) as [(cat & _ & _) _].
    rewrite <- cat in inside. clear - all inside.
    induction all as [|run p runs peaks [inp _] _ IH]; constructor.
    - cbn [concat] in inside. apply Forall_app in inside.
      destruct inside as [inside _]. rewrite Forall_forall in inside. auto.
    - apply IH. cbn [concat] in inside. now apply Forall_app in inside.
  Qed.

  (** X16. When a run on a series of [t] time points and [n] nodes
      returns, there are [n (n - 1) / 2] edges, the edge series is
      [t x edges], the observed RSS has [t] values, the null matrix is
      [t x 100], every peak is a time point of the series, and the
      thresholded edge matrix is returned in AUC mode only, with the shape
      of the edge series. *)
Theorem run_output_shapes
      (w : world) (surrprefix : string) (segments : bool) (out : detection)
      (n : nat) :
    event_detection w surrprefix segments = Ok out ->
    fit_transform_data w <> [] ->
    rect n (fit_transform_data w) ->
    let t := length (fit_transform_data w) in
    let e := length (u out) in
    2 * e = n * (n - 1) /\ length (v out) = e /\
    length (ets out) = t /\ rect e (ets out) /\
    length (rss out) = t /\
    length (rssr out) = t /\ rect numrand (rssr out) /\
    Forall (fun p => p < t) (idxpeak out) /\
    match ets_thr out with
    | Some m => has_AUC surrprefix = true /\ length m = t /\ rect e m
    | None => has_AUC surrprefix = false
    end.
  Proof.
    intros run nonempty sw t e. subst t e.
    destruct (@event_detection_inv w surrprefix segments out run)
      as (ce & er & (results & hr & _ & en & ht) & ep & _).
    destruct (@standardize_shape surrprefix n (fit_transform_data w) sw) as [sz lz].
    set (z_ts := standardize surrprefix (fit_transform_data w)) in *.
    assert (z_ts <> []) as nz.
    { intros e0. rewrite e0 in lz. destruct (fit_transform_data w);
        [now apply nonempty|discriminate]. }
    rewrite (@ncols_rect n z_ts nz sz) in ce.
    destruct (@calculate_ets_shape n z_ts (ets out) (u out) (v out) sz ce)
      as (le & se & lv & _ & _).
    assert (length (rss out) = length (fit_transform_data w)) as lr.
    { rewrite er. unfold root_sum_squares, sum_axis1.
      rewrite !length_map. unfold matrix, vec in *. congruence. }
    destruct (@null_distribution_shape _ _ _ _ _ en) as (sr & lrs & hh).
    split.
    { unfold calculate_ets in ce. rewrite triu_is_edge_pairs in ce.
      destruct (edge_product z_ts _ _); [|discriminate].
      injection ce as _ eu _. rewrite <- eu, length_map.
      apply length_edge_pairs. }
    split; [exact lv|]. split; [congruence|]. split; [exact se|].
    split; [exact lr|]. split; [congruence|]. split; [exact sr|].
    split.
    { rewrite <- lr. eapply peaks_are_candidates. exact ep. }
    destruct hr as [hr|].
    - destruct ht as (thr & m & _ & et & ->).
      destruct (@thresholded_shape (length (u out)) (ets out) (idxpeak out) thr m
                  se et) as [sm lm].
      split; [|split; [congruence|exact sm]].
      destruct (has_AUC surrprefix); [reflexivity|discriminate].
    - rewrite ht. destruct (has_AUC surrprefix); [now contradiction hh|reflexivity].
  Qed.

Lemma shr_1_nonneg (mrs : shr_record) :
    (0 <= shr_m mrs)%Z -> (0 <= shr_m (shr_1 mrs))%Z.
  Proof.
    destruct mrs as [m r s]. destruct m as [|[p|p|]|[p|p|]]; cbn; lia.
  Qed.

Lemma iter_shr_1_nonneg (p : positive) :
    forall mrs, (0 <= shr_m mrs)%Z -> (0 <= shr_m (iter_pos shr_1 p mrs))%Z.
  Proof.
    induction p as [p IH|p IH|]; intros mrs h; cbn [iter_pos].
    - now apply IH, IH, shr_1_nonneg.
    - now apply IH, IH.
    - now apply shr_1_nonneg.
  Qed.

Lemma shr_fexp_nonneg (m e : Z) (l : location) :
    (0 <= m)%Z -> (0 <= shr_m (fst (shr_fexp prec emax m e l)))%Z.
  Proof.
    intros h. unfold shr_fexp, shr.
    assert (0 <= shr_m (shr_record_of_loc m l))%Z as h0
        by (destruct l as [|[| |]]; exact h).
    destruct (fexp prec emax (Zdigits2 m + e) - e)%Z; cbn [fst]; trivial.
    now apply iter_shr_1_nonneg.
  Qed.

Lemma round_nearest_even_nonneg (m : Z) (l : location) :
    (0 <= m)%Z -> (0 <= round_nearest_even m l)%Z.
  Proof.
    intros h. destruct l as [|[| |]]; cbn [round_nearest_even]; try lia.
    destruct (Z.even m); lia.
  Qed.

Lemma round_cases (s : bool) (m e : Z) (l : location) :
    (0 <= m)%Z ->
    match binary_round_aux prec emax s m e l with
    | S754_nan => False
    | S754_zero s' | S754_infinity s' | S754_finite s' _ _ => s' = s
    end.
  Proof.
    intros h. unfold binary_round_aux.
    pose proof (shr_fexp_nonneg e l h) as h1.
    destruct (shr_fexp prec emax m e l) as [mrs' e']. cbn [fst] in h1.
    pose proof (shr_fexp_nonneg e' loc_Exact
                  (round_nearest_even_nonneg (loc_of_shr_record mrs') h1)) as h2.
    destruct (shr_fexp prec emax _ e' loc_Exact) as [mrs'' e'']. cbn [fst] in h2.
    destruct (shr_m mrs''); [reflexivity| |lia].
    now destruct (e'' <=? emax - prec)%Z.
  Qed.

Lemma round_unsigned (m e : Z) (l : location) :
    (0 <= m)%Z ->
    unsigned_number (binary_round_aux prec emax false m e l) = true.
  Proof.
    intros h. pose proof (round_cases false e l h) as c.
    destruct (binary_round_aux prec emax false m e l); now subst.
  Qed.

Lemma round_number (s : bool) (m e : Z) (l : location) :
    (0 <= m)%Z -> is_nan (binary_round_aux prec emax s m e l) = false.
  Proof.
    intros h. pose proof (round_cases s e l h) as c.
    now destruct (binary_round_aux prec emax s m e l).
  Qed.

Lemma mul_number (x y : float64) :
    is_finite x = true -> is_finite y = true -> is_nan (x * y)%f64 = false.
  Proof.
    destruct x as [s|s| |s m e], y as [s'|s'| |s' m' e'];
      try discriminate; trivial.
    intros _ _. unfold mul, SFmul. apply round_number. lia.
  Qed.

Lemma square_unsigned (x : float64) :
    is_nan x = false -> unsigned_number (square x) = true.
  Proof.
    destruct x as [s|s| |s m e]; try discriminate; intros _;
      unfold square, mul, SFmul; rewrite ?xorb_nilpotent; trivial.
    apply round_unsigned. lia.
  Qed.

Lemma add_unsigned (x y : float64) :
    unsigned_number x = true -> unsigned_number y = true ->
    unsigned_number (x + y)%f64 = true.
  Proof.
    destruct x as [[|]|[|]| |[|] m e], y as [[|]|[|]| |[|] m' e'];
      try discriminate; trivial.
    intros _ _. unfold add, SFadd, cond_Zopp.
    destruct (shl_align m e (Z.min e e')) as [a ea].
    destruct (shl_align m' e' (Z.min e e')) as [b eb].
    cbn [fst Z.add binary_normalize]. unfold binary_round.
    destruct (shl_align _ _ _) as [mz ez]. apply round_unsigned. lia.
  Qed.

Lemma sum_unsigned (l : vec) :
    Forall (fun x => unsigned_number x = true) l ->
    unsigned_number (Np.sum l) = true.
  Proof.
    destruct l as [|x l]; [reflexivity|]. intros all.
    apply Forall_cons_iff in all. destruct all as [hx all]. cbn [Np.sum].
    revert x hx. induction all as [|y l hy _ IH]; intros x hx; [exact hx|].
    cbn [fold_left]. apply IH. now apply add_unsigned.
  Qed.

Lemma sqrt_unsigned (x : float64) :
    unsigned_number x = true -> unsigned_number (sqrt x) = true.
  Proof.
    destruct x as [[|]|[|]| |[|] m e]; try discriminate; trivial.
    intros _. unfold sqrt, SFsqrt.
    assert (0 <= fst (fst (SFsqrt_core_binary prec emax (Z.pos m) e)))%Z as h.
    { unfold SFsqrt_core_binary.
      match goal with
      | |- context [Z.sqrtrem ?a] =>
          pose proof (Z.sqrtrem_sqrt a) as es;
          pose proof (Z.sqrt_nonneg a) as ns;
          destruct (Z.sqrtrem a) as [q r]
      end.
      cbn [fst] in es |- *. lia. }
    destruct (SFsqrt_core_binary prec emax (Z.pos m) e) as [[mz ez] lz].
    now apply round_unsigned.
  Qed.

Lemma unsigned_not_below_zero (x : float64) :
    unsigned_number x = true -> is_nan x = false /\ (zero <=? x)%f64 = true.
  Proof.
    destruct x as [[|]|[|]| |[|] m e]; try discriminate; auto.
  Qed.

Lemma take_In {A} (a : list A) (js : list nat) (b : list A) :
    take a js = Ok b -> Forall (fun x => In x a) b.
  Proof.
    intros h. apply mapM_inv in h.
    induction h as [|j x js b ej _ IH]; constructor; trivial.
    unfold index in ej. destruct (nth_error a j) as [y|] eqn:e; [|discriminate].
    injection ej as <-. eapply nth_error_In, e.
  Qed.

Lemma edge_product_numbers (y : matrix) (u0 v0 : list nat) (e : matrix) :
    Forall (Forall (fun x => is_finite x = true)) y ->
    edge_product y u0 v0 = Ok e ->
    Forall (Forall (fun x => is_nan x = false)) e.
  Proof.
    intros fin h. apply edge_product_rows in h.
    induction h as [|row erow y e er _ IH]; constructor.
    - apply Forall_cons_iff in fin. destruct fin as [frow _].
      rewrite Forall_forall in frow.
      destruct (take row u0) as [yu|] eqn:eu; cbn [bind] in er; [|discriminate].
      destruct (take row v0) as [yv|] eqn:ev; cbn [bind] in er; [|discriminate].
      injection er as <-.
      pose proof (@take_In _ row u0 yu eu) as iu.
      pose proof (@take_In _ row v0 yv ev) as iv.
      rewrite Forall_forall in iu, iv.
      apply Forall_forall. intros x inx. apply in_map2 in inx.
      destruct inx as (k & a & b & ea & eb & ->).
      apply mul_number; apply frow;
        [eapply iu, nth_error_In, ea|eapply iv, nth_error_In, eb].
    - apply IH. now apply Forall_cons_iff in fin.
  Qed.

Lemma root_sum_squares_numbers (e : matrix) :
    Forall (Forall (fun x => is_nan x = false)) e ->
    Forall (fun x => unsigned_number x = true) (root_sum_squares e).
  Proof.
    intros all. unfold root_sum_squares, sum_axis1. rewrite !map_map.
    rewrite Forall_map. eapply Forall_impl; [|exact all]. cbn beta.
    intros row hrow. apply sqrt_unsigned, sum_unsigned.
    rewrite Forall_map. eapply Forall_impl; [|exact hrow]. cbn beta.
    intros x. apply square_unsigned.
  Qed.

Lemma nan_to_num_finite (m : matrix) :
    Forall (Forall (fun x => is_finite x = true)) (nan_to_num m).
  Proof.
    unfold nan_to_num. rewrite Forall_map. apply Forall_forall. intros row _.
    rewrite Forall_map. apply Forall_forall. intros x _.
    apply nan_to_num1_finite.
  Qed.

  (** X17. Outside AUC mode the observed series is finite after
      standardization, so that, when a run returns, no entry of its edge
      series is NaN and its RSS is a number that is at least 0 at every
      time point, whatever the data hold. *)
Theorem observed_rss_is_a_number
      (w : world) (surrprefix : string) (segments : bool) (out : detection) :
    has_AUC surrprefix = false ->
    event_detection w surrprefix segments = Ok out ->
    Forall (Forall (fun x => is_nan x = false)) (ets out) /\
    Forall (fun x => is_nan x = false /\ (zero <=? x)%f64 = true) (rss out).
  Proof.
    intros mode run.
    destruct (@event_detection_inv w surrprefix segments out run)
      as (ce & er & _).
    unfold standardize in ce. rewrite mode in ce.
    unfold calculate_ets in ce.
    destruct (edge_product _ _ _) as [e|] eqn:ee; cbn [bind] in ce;
      [|discriminate].
    injection ce as eets _ _. rewrite <- eets in *.
    pose proof (@edge_product_numbers _ _ _ e (nan_to_num_finite _) ee)
      as numbers.
    split; [exact numbers|]. rewrite er.
    eapply Forall_impl; [|apply root_sum_squares_numbers, numbers].
    cbn beta. apply unsigned_not_below_zero.
  Qed.

End Outputs.

(** ** The range of the surrogate edge series *)

Section Range.

Import Order.

Lemma fold_minimum (r : vec) :
    forall x,
      is_nan x = false -> Forall (fun y => is_nan y = false) r ->
      let m := fold_left minimum r x in
      (m = x \/ In m r) /\ (m <=? x)%f64 = true /\
      Forall (fun y => (m <=? y)%f64 = true) r.
  Proof.
    induction r as [|y r IH]; intros x nx nr; cbv zeta; cbn [fold_left].
    - split; [now left|]. split; [apply leb_refl; exact nx|constructor].
    - apply Forall_cons_iff in nr. destruct nr as [ny nr].
      replace (minimum x y) with (if (x <=? y)%f64 then x else y)
        by (unfold minimum; now rewrite nx, orb_false_r).
      destruct (x <=? y)%f64 eqn:le.
      + destruct (IH x nx nr) as (mem & mx & all).
        split; [destruct mem; [now left|right; now right]|].
        split; [exact mx|]. constructor; [|exact all].
        eapply leb_trans; [exact mx|exact le].
      + destruct (IH y ny nr) as (mem & my & all).
        split; [right; destruct mem as [->|]; [now left|now right]|].
        split; [|constructor; [exact my|exact all]].
        eapply leb_trans; [exact my|].
        now apply ltb_leb, not_leb_ltb.
  Qed.

Lemma fold_maximum (r : vec) :
    forall x,
      is_nan x = false -> Forall (fun y => is_nan y = false) r ->
      let m := fold_left maximum r x in
      (m = x \/ In m r) /\ (x <=? m)%f64 = true /\
      Forall (fun y => (y <=? m)%f64 = true) r.
  Proof.
    induction r as [|y r IH]; intros x nx nr; cbv zeta; cbn [fold_left].
    - split; [now left|]. split; [apply leb_refl; exact nx|constructor].
    - apply Forall_cons_iff in nr. destruct nr as [ny nr].
      replace (maximum x y) with (if (y <=? x)%f64 then x else y)
        by (unfold maximum, geb; now rewrite nx, orb_false_r).
      destruct (y <=? x)%f64 eqn:le.
      + destruct (IH x nx nr) as (mem & mx & all).
        split; [destruct mem; [now left|right; now right]|].
        split; [exact mx|]. constructor; [|exact all].
        eapply leb_trans; [exact le|exact mx].
      + destruct (IH y ny nr) as (mem & my & all).
        split; [right; destruct mem as [->|]; [now left|now right]|].
        split; [|constructor; [exact my|exact all]].
        eapply leb_trans; [|exact my].
        now apply ltb_leb, not_leb_ltb.
  Qed.

Lemma min_spec (l : vec) (m : float64) :
    Forall (fun y => is_nan y = false) l -> Np.min l = Ok m ->
    In m l /\ Forall (fun y => (m <=? y)%f64 = true) l.
  Proof.
    destruct l as [|x r]; [discriminate|]. intros nl h.
    apply Forall_cons_iff in nl. destruct nl as [nx nr].
    cbn [Np.min] in h. injection h as <-.
    destruct (@fold_minimum r x nx nr) as (mem & mx & all).
    split; [destruct mem as [->|]; [now left|now right]|].
    constructor; [exact mx|exact all].
  Qed.

Lemma max_spec (l : vec) (m : float64) :
    Forall (fun y => is_nan y = false) l -> Np.max l = Ok m ->
    In m l /\ Forall (fun y => (y <=? m)%f64 = true) l.
  Proof.
    destruct l as [|x r]; [discriminate|]. intros nl h.
    apply Forall_cons_iff in nl. destruct nl as [nx nr].
    cbn [Np.max] in h. injection h as <-.
    destruct (@fold_maximum r x nx nr) as (mem & mx & all).
    split; [destruct mem as [->|]; [now left|now right]|].
    constructor; [exact mx|exact all].
  Qed.

Lemma Forall_upd {A} (P : A -> Prop) (i : nat) (x : A) (l : list A) :
    P x -> Forall P l -> Forall P (upd i x l).
  Proof.
    intros px. revert i. induction l as [|y l IH]; intros i all;
      [destruct i; constructor|].
    apply Forall_cons_iff in all. destruct all as [py all].
    destruct i as [|i]; cbn [upd]; constructor; auto.
  Qed.

Lemma Forall_set_col (P : float64 -> Prop) (i : nat) (c : vec) (m : matrix) :
    Forall P c -> Forall (Forall P) m -> Forall (Forall P) (set_col i c m).
  Proof.
    unfold set_col. revert c.
    induction m as [|row m IH]; intros c pc pm; [constructor|].
    destruct c as [|x c]; [constructor|]. cbn [map2].
    apply Forall_cons_iff in pc. destruct pc as [px pc].
    apply Forall_cons_iff in pm. destruct pm as [prow pm].
    constructor; [now apply Forall_upd|now apply IH].
  Qed.

Lemma Forall_get_col (P : float64 -> Prop) (i : nat) (c : vec) (m : matrix) :
    Forall (Forall P) m -> get_col i m = Ok c -> Forall P c.
  Proof.
    intros pm h. apply mapM_inv in h.
    induction h as [|row x m c ex _ IH]; constructor.
    - apply Forall_cons_iff in pm. destruct pm as [prow _].
      unfold index in ex. destruct (nth_error row i) as [y|] eqn:e; [|discriminate].
      injection ex as <-. rewrite Forall_forall in prow.
      eapply prow, nth_error_In, e.
    - apply IH. now apply Forall_cons_iff in pm.
  Qed.

Lemma Forall_roll_columns
      (P : float64 -> Prop) (draw : nat -> nat) (t : nat) (cols : list nat) :
    forall zr zr',
      Forall (Forall P) zr -> roll_columns draw t cols zr = Ok zr' ->
      Forall (Forall P) zr'.
  Proof.
    induction cols as [|i cols IH]; intros zr zr' pz h; cbn [roll_columns] in h.
    - now injection h as <-.
    - destruct (t =? 0)%nat; cbn [bind] in h; [discriminate|].
      destruct (get_col i zr) as [c|] eqn:ec; cbn [bind] in h; [|discriminate].
      apply (IH _ _ (Forall_set_col i
                       (Permutation_Forall
                          (Permutation_sym (roll_permutation c (draw i)))
                          (@Forall_get_col P i c zr pz ec))
                       pz) h).
  Qed.

  (** X18. A surrogate trial on a finite series returns one RSS value per
      time point of the edge series of its surrogate (the loaded surrogate
      after cleaning, or the series with rolled columns) together with the
      smallest and the largest entry of that edge series: both are entries
      of it and every entry lies between them. *)
Theorem surrogate_range_bounds_edge_series
      (w : world) (z_ts : matrix) (u0 v0 : list nat) (surrprefix : string)
      (irand : nat) (rssr0 : vec) (mn mx : float64) :
    Forall (Forall (fun x => is_finite x = true)) z_ts ->
    rss_surr w z_ts u0 v0 surrprefix irand = Ok (rssr0, mn, mx) ->
    exists zr etsr,
      (if negb (surrprefix =? "")%string
       then Ok (surrogate_series w surrprefix irand)
       else roll_columns (randint w irand) (length z_ts)
                         (seq 0 (ncols z_ts)) z_ts) = Ok zr /\
      edge_product zr u0 v0 = Ok etsr /\
      length rssr0 = length etsr /\
      In mn (concat etsr) /\ In mx (concat etsr) /\
      Forall (fun x => (mn <=? x)%f64 = true /\ (x <=? mx)%f64 = true)
             (concat etsr).
  Proof.
    intros fin h. unfold rss_surr in h.
    match type of h with
    | bind ?c _ = _ => destruct c as [zr|] eqn:ez; cbn [bind] in h;
                       [|discriminate]
    end.
    destruct (edge_product zr u0 v0) as [etsr|] eqn:ee; cbn [bind] in h;
      [|discriminate].
    destruct (Np.min (concat etsr)) as [mn'|] eqn:emn; cbn [bind] in h;
      [|discriminate].
    destruct (Np.max (concat etsr)) as [mx'|] eqn:emx; cbn [bind] in h;
      [|discriminate].
    injection h as <- <- <-.
    exists zr, etsr. split; [reflexivity|]. split; [exact ee|].
    split; [unfold root_sum_squares, sum_axis1; now rewrite !length_map|].
    assert (Forall (Forall (fun x => is_finite x = true)) zr) as fz.
    { destruct (negb (surrprefix =? "")%string).
      - injection ez as <-. apply nan_to_num_finite.
      - eapply Forall_roll_columns; [exact fin|exact ez]. }
    pose proof (@edge_product_numbers zr u0 v0 etsr fz ee) as numbers.
    assert (Forall (fun x => is_nan x = false) (concat etsr)) as flat.
    { apply Forall_concat. exact numbers. }
    destruct (@min_spec _ _ flat emn) as [imn lo].
    destruct (@max_spec _ _ flat emx) as [imx hi].
    split; [exact imn|]. split; [exact imx|].
    rewrite Forall_forall in lo, hi. apply Forall_forall. auto.
  Qed.

  (** X19. In AUC mode the null distribution comes with a histogram range:
      when the extremes returned by the trials are numbers, its lower end
      is the smallest of the trials' minima and its upper end the largest
      of their maxima, so that it contains the range of every trial. *)
Theorem histogram_range_contains_every_trial
      (t : nat) (results : list (vec * float64 * float64))
      (rssr0 : matrix) (hist_range : option (float64 * float64)) :
    null_distribution true t results = Ok (rssr0, hist_range) ->
    Forall (fun r => is_nan (snd (fst r)) = false /\ is_nan (snd r) = false)
           results ->
    exists hist_min hist_max,
      hist_range = Some (hist_min, hist_max) /\
      In hist_min (map (fun r => snd (fst r)) results) /\
      In hist_max (map snd results) /\
      Forall (fun r => (hist_min <=? snd (fst r))%f64 = true /\
                       (snd r <=? hist_max)%f64 = true) results.
  Proof.
    unfold null_distribution. intros h numbers.
    destruct (fill_columns _ 0 results) as [m|]; cbn [bind] in h; [|discriminate].
    destruct (zero_first_row m); cbn [bind] in h; [|discriminate].
    destruct (Np.min _) as [hist_min|] eqn:emn; cbn [bind] in h; [|discriminate].
    destruct (Np.max _) as [hist_max|] eqn:emx; cbn [bind] in h; [|discriminate].
    injection h as _ <-. exists hist_min, hist_max. split; [reflexivity|].
    assert (Forall (fun y => is_nan y = false)
                   (map (fun r => snd (fst r)) results)) as nmin.
    { rewrite Forall_map. eapply Forall_impl; [|exact numbers].
      cbn beta. now intros r [? _]. }
    assert (Forall (fun y => is_nan y = false) (map snd results)) as nmax.
    { rewrite Forall_map. eapply Forall_impl; [|exact numbers].
      cbn beta. now intros r [_ ?]. }
    destruct (@min_spec _ _ nmin emn) as [imn lo].
    destruct (@max_spec _ _ nmax emx) as [imx hi].
    split; [exact imn|]. split; [exact imx|].
    rewrite Forall_map in lo, hi. rewrite Forall_forall in lo, hi.
    apply Forall_forall. auto.
  Qed.

End Range.

(** ** A pooled histogram without counts *)

Section NoCounts.

Lemma fold_add_zeros (rows : matrix) (n : nat) :
    Forall (fun row => row = repeat zero n) rows ->
    fold_left (map2 add) rows (repeat zero n) = repeat zero n.
  Proof.
    induction 1 as [|row rows -> _ IH]; cbn [fold_left]; trivial.
    replace (map2 add (repeat zero n) (repeat zero n)) with (repeat zero n);
      [exact IH|].
    clear. induction n as [|n IH]; cbn; [reflexivity|]. now rewrite <- IH.
  Qed.

Lemma cumsum_from_zeros (n : nat) :
    cumsum_from zero (repeat zero n) = repeat zero n.
  Proof.
    induction n as [|n IH]; cbn [repeat cumsum_from]; [reflexivity|].
    change (zero + zero)%f64 with zero. now rewrite IH.
  Qed.

Lemma sum_zeros (n : nat) : Np.sum (repeat zero n) = zero.
  Proof.
    destruct n as [|n]; [reflexivity|]. cbn [repeat Np.sum].
    induction n as [|n IH]; cbn [repeat fold_left]; [reflexivity|].
    change (zero + zero)%f64 with zero. exact IH.
  Qed.

Lemma count_upto_nan (percentile : float64) (n : nat) :
    count_upto percentile (repeat nan n) = 0.
  Proof.
    unfold count_upto. induction n as [|n IH]; cbn [repeat filter]; trivial.
  Qed.

  (** X20. When no histogram of the trials has a count (every bin of
      every trial is 0), the cumulative percentages are 0/0, no error is
      signalled and the threshold is the first bin edge of the first
      trial, whatever the percentile. *)
Theorem threshold_without_counts
      (w : world) (hist_range : float64 * float64) (trials nbins : nat)
      (percentile : float64) (hist : list (vec * vec)) :
    mapM (fun irand => calculate_hist w irand hist_range nbins) (seq 0 trials)
      = Ok hist ->
    hist <> [] ->
    Forall (fun h => fst h = repeat zero nbins) hist ->
    surrogates_to_array w hist_range trials nbins percentile
      = index (snd (hd ([], []) hist)) 0.
  Proof.
    intros eh nonempty none.
    rewrite (@surrogates_to_array_unfold w hist_range trials nbins percentile
               hist eh).
    destruct hist as [|[counts edges] rest]; [now contradiction nonempty|].
    assert (Forall (fun h : vec * vec => length (fst h) = nbins)
                   ((counts, edges) :: rest)) as lens.
    { eapply Forall_impl; [|exact none]. cbn beta. intros [c ed] e.
      cbn [fst] in *. subst c. apply repeat_length. }
    rewrite (@pooled_threshold_unfold ((counts, edges) :: rest) nbins percentile
               counts edges rest _ eq_refl (gather_counts lens)).
    cbn [hd snd]. f_equal.
    apply Forall_cons_iff in none. destruct none as [e0 none].
    cbn [fst] in e0. subst counts. cbn [map fst pooled_histogram sum_axis0].
    rewrite fold_add_zeros by (rewrite Forall_map; exact none).
    unfold cumsum_percentile. rewrite sum_zeros.
    replace (cumsum (repeat zero nbins)) with (repeat zero nbins)
      by (destruct nbins; cbn [repeat cumsum]; [|rewrite cumsum_from_zeros];
          reflexivity).
    rewrite map_repeat. change (zero / zero * of_Z 100)%f64 with nan.
    apply count_upto_nan.
  Qed.

End NoCounts.

(** ** The shuffle mode *)

Section Shuffle.

Lemma roll_columns_ext (draw draw' : nat -> nat) (t : nat) (cols : list nat) :
    (forall i, draw i = draw' i) ->
    forall zr, roll_columns draw t cols zr = roll_columns draw' t cols zr.
  Proof.
    intros same. induction cols as [|i cols IH]; intros zr; cbn [roll_columns];
      trivial.
    rewrite same. destruct (t =? 0)%nat; cbn [bind]; trivial.
    destruct (get_col i zr); cbn [bind]; trivial.
  Qed.

Lemma mapM_ext {A B} (f g : A -> result B) (l : list A) :
    (forall a, f a = g a) -> mapM f l = mapM g l.
  Proof.
    intros same. induction l as [|a l IH]; cbn [mapM]; trivial.
    now rewrite same, IH.
  Qed.

  (** X21. Without a surrogate prefix a run reads no surrogate volume and
      computes no histogram: two runs on the same data with the same
      random draws return the same, whatever the surrogate volumes and the
      histograms would be. *)
Theorem shuffle_run_reads_no_surrogate (w w' : world) (segments : bool) :
    fit_transform_data w = fit_transform_data w' ->
    (forall irand i, randint w irand i = randint w' irand i) ->
    event_detection w "" segments = event_detection w' "" segments.
  Proof.
    intros data draws. unfold event_detection. rewrite <- data.
    set (z_ts := standardize "" (fit_transform_data w)).
    destruct (calculate_ets z_ts (ncols z_ts)) as [[[ets0 u0] v0]|];
      cbn [bind]; trivial.
    rewrite (@mapM_ext _ _ (rss_surr w z_ts u0 v0 "") (rss_surr w' z_ts u0 v0 "")).
    2:{ intros irand. unfold rss_surr. cbn [String.eqb negb].
        now rewrite (@roll_columns_ext (randint w irand) (randint w' irand)
                       (length z_ts) (seq 0 (ncols z_ts)) (draws irand)). }
    destruct (mapM _ (seq 0 numrand)) as [results|]; cbn [bind]; trivial.
    change (has_AUC "") with false.
    destruct (null_distribution false (length z_ts) results)
      as [[rssr0 hist_range]|] eqn:en; cbn [bind]; trivial.
    destruct (@null_distribution_shape _ _ _ _ _ en) as (_ & _ & ->).
    reflexivity.
  Qed.

End Shuffle.

(** ** Instances of the further properties *)

Section FurtherInstances.

Lemma calculate_ets_edge_index_witness :
    exists ets,
      calculate_ets sample_series 3
        = Ok (ets, map fst (edge_pairs 3), map snd (edge_pairs 3)) /\
      2 * length (edge_pairs 3) = 3 * (3 - 1) /\
      forall a b, In (a, b) (edge_pairs 3) <-> a < b < 3.
  Proof.
    apply calculate_ets_edge_index. repeat constructor.
  Defined.

Lemma calculate_ets_entries_witness :
    exists ets u v,
      calculate_ets_of mul32 sample_series32 3 = Ok (ets, u, v) /\
      length ets = length sample_series32 /\
      Forall (fun row => length row = length u) ets /\
      length v = length u /\
      forall t e row a b,
        nth_error sample_series32 t = Some row ->
        nth_error u e = Some a ->
        nth_error v e = Some b ->
        entry_of ets t e
        = Some (mul32 (nth a row S754_nan) (nth b row S754_nan)).
  Proof.
    apply (@calculate_ets_entries _ mul32 S754_nan sample_series32 3).
    repeat constructor.
  Defined.

Lemma roll_columns_shifts_each_column_witness :
    exists zr,
      roll_columns S (length sample_series) (seq 0 3) sample_series = Ok zr /\
      rect 3 zr /\ length zr = length sample_series /\
      forall j, j < 3 ->
        column j zr = roll (column j sample_series) (S j) /\
        Permutation (column j zr) (column j sample_series) /\
        forall r, r < length sample_series ->
          nth ((r + S j) mod length sample_series) (column j zr) nan =
          nth r (column j sample_series) nan.
  Proof.
    apply (@roll_columns_shifts_each_column S 3 sample_series).
    - discriminate.
    - repeat constructor.
  Defined.

Lemma nan_rss_is_candidate_witness :
    nth_error (pvalues [of_Z 1; nan] sample_rssr) 1
      = Some (Some (Qmake 0 (Pos.of_nat (length (concat sample_rssr))))) /\
    In 1 (candidates (pvalues [of_Z 1; nan] sample_rssr)).
  Proof.
    apply (@nan_rss_is_candidate [of_Z 1; nan] sample_rssr 1 nan).
    - reflexivity.
    - reflexivity.
    - discriminate.
  Defined.

Lemma segmented_peaks_of_a_run_witness :
    let idx := candidates (pvalues (rss shuffled) (rssr shuffled)) in
    Forall2 (is_peak (rss shuffled)) (runs_by_scan idx)
            (idxpeak shuffled) /\
    maximal_runs idx (runs_by_scan idx) /\
    increasing (idxpeak shuffled) /\
    Forall (fun p => In p idx) (idxpeak shuffled).
  Proof.
    apply (@segmented_peaks_of_a_run shuffle_world "" shuffled).
    vm_compute. reflexivity.
  Defined.

Lemma unsegmented_peaks_of_a_run_witness :
    idxpeak shuffled_unsegmented
      = candidates (pvalues (rss shuffled_unsegmented) (rssr shuffled_unsegmented)) /\
    increasing (idxpeak shuffled_unsegmented) /\
    forall t,
      In t (idxpeak shuffled_unsegmented) <->
      exists x, nth_error (rss shuffled_unsegmented) t = Some x /\
                1000 * count_at_least (rssr shuffled_unsegmented) x
                < length (concat (rssr shuffled_unsegmented)).
  Proof.
    apply (@unsegmented_peaks_of_a_run shuffle_world "" shuffled_unsegmented).
    vm_compute. reflexivity.
  Defined.

Lemma peak_rows_of_a_run_witness :
    length (etspeaks shuffled) = length (idxpeak shuffled) /\
    length (mu shuffled) = length (u shuffled) /\
    forall k p,
      nth_error (idxpeak shuffled) k = Some p ->
      exists row,
        nth_error (etspeaks shuffled) k = Some row /\
        nth_error (ets shuffled) p = Some row.
  Proof.
    apply (@peak_rows_of_a_run shuffle_world "" true shuffled).
    vm_compute. reflexivity.
  Defined.

Lemma null_distribution_broadcasts_single_value_witness :
    exists rssr hist_range,
      null_distribution false 2 (repeat ([of_Z 3], zero, zero) numrand)
        = Ok (rssr, hist_range) /\
      length rssr = 2 /\
      rect numrand rssr /\
      forall i j c mn mx,
        i < 2 ->
        nth_error (repeat ([of_Z 3], zero, zero) numrand) j = Some ([c], mn, mx) ->
        entry rssr i j = Some (if false && (i =? 0)%nat then zero else c).
  Proof.
    apply null_distribution_broadcasts_single_value.
    - lia.
    - apply repeat_length.
    - apply Forall_forall. intros r inr.
      apply repeat_spec in inr. subst r. now right.
  Defined.

Lemma null_distribution_rejects_other_lengths_witness :
    null_distribution false 2 [([of_Z 1; of_Z 2; of_Z 3], zero, zero)]
    = Raise ValueError.
  Proof.
    apply null_distribution_rejects_other_lengths.
    constructor. split; discriminate.
  Defined.

Lemma run_without_candidates_witness :
    idxpeak quiet = [] /\
    etspeaks quiet = [] /\
    mu quiet = repeat nan (length (u quiet)) /\
    forall m, ets_thr quiet = Some m ->
              length m = length (ets quiet) /\
              forall r c x, entry m r c = Some x -> x = zero.
  Proof.
    apply (@run_without_candidates (uniform_world 1) "" true quiet).
    - vm_compute. reflexivity.
    - vm_compute. reflexivity.
  Defined.

Lemma debiasing_mask_marks_edge_ends_witness :
    exists ets_mask,
      debiasing mask_and_data sample_nodes sample_mtx [0; 0; 1] [1; 2; 2]
        = Ok (mask_and_data sample_nodes ets_mask) /\
      rect 3 ets_mask /\ length ets_mask = length sample_nodes /\
      forall t k,
        t < length sample_nodes -> k < 3 ->
        (active sample_mtx [0; 0; 1] [1; 2; 2] t k ->
         entry ets_mask t k = Some (of_Z 1)) /\
        (~ active sample_mtx [0; 0; 1] [1; 2; 2] t k ->
         entry ets_mask t k = Some zero).
  Proof.
    apply (@debiasing_mask_marks_edge_ends
             mask_and_data 3 3 sample_nodes sample_mtx [0; 0; 1] [1; 2; 2]).
    - repeat constructor.
    - repeat constructor.
    - unfold sample_mtx, sample_nodes. simpl. lia.
    - reflexivity.
    - reflexivity.
    - repeat constructor.
    - repeat constructor.
  Defined.

Lemma debiasing_index_error_witness :
    debiasing mask_and_data sample_short sample_mtx [0; 0; 1] [1; 2; 2]
    = Raise IndexError.
  Proof.
    apply (@debiasing_index_error
             mask_and_data 3 sample_short sample_mtx [0; 0; 1] [1; 2; 2]
             2 0 (of_Z 7)).
    - repeat constructor.
    - reflexivity.
    - reflexivity.
    - left. unfold sample_short. simpl. lia.
  Defined.

Lemma debiasing_marks_peaks_only_witness :
    exists ets_mask,
      debiasing mask_and_data (fit_transform_data peaks_world) peaks_thresholded
                (u peaks_segmented) (v peaks_segmented)
        = Ok (mask_and_data (fit_transform_data peaks_world) ets_mask) /\
      forall t k,
        t < length (fit_transform_data peaks_world) -> k < 2 ->
        ~ In t (idxpeak peaks_segmented) ->
        entry ets_mask t k = Some zero.
  Proof.
    apply (@debiasing_marks_peaks_only
             mask_and_data peaks_world "AUC_" true peaks_segmented
             peaks_thresholded 2 (fit_transform_data peaks_world)).
    - vm_compute. reflexivity.
    - reflexivity.
    - discriminate.
    - repeat constructor.
    - repeat constructor.
    - reflexivity.
  Defined.

Lemma run_output_shapes_witness :
    let t := length (fit_transform_data shuffle_world) in
    let e := length (u shuffled) in
    2 * e = 3 * (3 - 1) /\ length (v shuffled) = e /\
    length (ets shuffled) = t /\ rect e (ets shuffled) /\
    length (rss shuffled) = t /\
    length (rssr shuffled) = t /\ rect numrand (rssr shuffled) /\
    Forall (fun p => p < t) (idxpeak shuffled) /\
    match ets_thr shuffled with
    | Some m => has_AUC "" = true /\ length m = t /\ rect e m
    | None => has_AUC "" = false
    end.
  Proof.
    apply (@run_output_shapes shuffle_world "" true shuffled 3).
    - vm_compute. reflexivity.
    - discriminate.
    - repeat constructor.
  Defined.

Lemma observed_rss_is_a_number_witness :
    Forall (Forall (fun x => is_nan x = false)) (ets shuffled) /\
    Forall (fun x => is_nan x = false /\ (zero <=? x)%f64 = true) (rss shuffled).
  Proof.
    apply (@observed_rss_is_a_number shuffle_world "" true shuffled).
    - reflexivity.
    - vm_compute. reflexivity.
  Defined.

Lemma surrogate_range_bounds_edge_series_witness :
    exists zr etsr,
      (if negb ("AUC_" =? "")%string
       then Ok (surrogate_series plain_AUC "AUC_" 0)
       else roll_columns (randint plain_AUC 0)
                         (length (fit_transform_data plain_AUC))
                         (seq 0 (ncols (fit_transform_data plain_AUC)))
                         (fit_transform_data plain_AUC)) = Ok zr /\
      edge_product zr [0] [1] = Ok etsr /\
      length [of_Z 2; of_Z 12] = length etsr /\
      In (of_Z 2) (concat etsr) /\ In (of_Z 12) (concat etsr) /\
      Forall (fun x => (of_Z 2 <=? x)%f64 = true /\ (x <=? of_Z 12)%f64 = true)
             (concat etsr).
  Proof.
    apply (@surrogate_range_bounds_edge_series
             plain_AUC (fit_transform_data plain_AUC) [0] [1] "AUC_" 0
             [of_Z 2; of_Z 12] (of_Z 2) (of_Z 12)).
    - repeat constructor.
    - vm_compute. reflexivity.
  Defined.

Lemma histogram_range_contains_every_trial_witness :
    exists hist_min hist_max,
      Some (of_Z (-1), of_Z 5) = Some (hist_min, hist_max) /\
      In hist_min (map (fun r => snd (fst r)) sample_trials) /\
      In hist_max (map snd sample_trials) /\
      Forall (fun r => (hist_min <=? snd (fst r))%f64 = true /\
                       (snd r <=? hist_max)%f64 = true) sample_trials.
  Proof.
    apply (@histogram_range_contains_every_trial
             1 sample_trials sample_null (Some (of_Z (-1), of_Z 5))).
    - vm_compute. reflexivity.
    - repeat constructor.
  Defined.

Lemma threshold_without_counts_witness :
    surrogates_to_array (uniform_world 0) (zero, of_Z 100) 2 4 (of_Z 95)
    = index (snd (hd ([], [])
                     [(repeat zero 4, linspace zero (of_Z 100) 5);
                      (repeat zero 4, linspace zero (of_Z 100) 5)])) 0.
  Proof.
    apply threshold_without_counts.
    - vm_compute. reflexivity.
    - discriminate.
    - repeat constructor.
  Defined.

Lemma shuffle_run_reads_no_surrogate_witness :
    event_detection single_time_point "" true
    = event_detection (uniform_world 1) "" true.
  Proof.
    apply shuffle_run_reads_no_surrogate.
    - reflexivity.
    - intros irand i. reflexivity.
  Defined.

End FurtherInstances.
